(** * The plugin protocol of [packages/plugin-protocol/src/types/events.ts]

    The source file is a catalogue of type declarations: the payload of every
    protocol event, the identity and configuration value types they mention,
    and the [ProtocolEvents] table that maps event names to payloads.

    The development has two layers.

    - [Module Schema] transcribes the declarations.  A TypeScript type is a
      value of [Ty]; a value on the wire is a [JValue]; [has_type] is
      structural assignability (an object type constrains the properties it
      names and leaves the others free).  Statements about what a declared
      type admits are statements about [has_type].

    - The later sections give the declared value types as records and model
      the behaviour the protocol asks of its participants (commit with
      optimistic concurrency, route evaluation, the [spark:emit] tracker).
      That behaviour is not implemented by the declarations; each such
      definition says so in its comment. *)

From Stdlib Require Import ZArith Ascii String List Bool.
From stdpp Require Import gmap strings list fin_maps.

Local Open Scope string_scope.
Local Open Scope Z_scope.

Set Warnings "-register-all,-clear-no-such-hyp".

(** ** Values on the wire *)

(** JSON-like values.  A [number] is an integer here: the statements below
    only use counters (revisions, versions).  [JUndefined] is the value of a
    property that is written as [undefined]; a missing property has no
    binding at all. *)
Inductive JValue : Type :=
| JUndefined
| JNull
| JBool (b : bool)
| JNum (n : Z)
| JStr (s : string)
| JArr (items : list JValue)
| JObj (props : list (string * JValue)).

(** The binding of property [k]: the first one in the list. *)
Fixpoint get_prop (k : string) (props : list (string * JValue)) : option JValue :=
  match props with
  | [] => None
  | (k', x) :: rest => if String.eqb k k' then Some x else get_prop k rest
  end.

Definition prop (k : string) (v : JValue) : option JValue :=
  match v with
  | JObj props => get_prop k props
  | _ => None
  end.

(** A property is absent when it has no binding or is bound to [undefined]. *)
Definition absent (o : option JValue) : bool :=
  match o with
  | None | Some JUndefined => true
  | Some _ => false
  end.

Definition is_string (v : JValue) : bool :=
  match v with JStr _ => true | _ => false end.

Definition is_boolean (v : JValue) : bool :=
  match v with JBool _ => true | _ => false end.

Definition is_string_array (v : JValue) : bool :=
  match v with JArr items => forallb is_string items | _ => false end.

(** An optional property of a leaf of [RouteTargetExpression]. *)
Definition optional_boolean (o : option JValue) : bool :=
  match o with
  | None | Some JUndefined => true
  | Some x => is_boolean x
  end.

Definition required_string_array (o : option JValue) : bool :=
  match o with
  | Some x => is_string_array x
  | None => false
  end.

(** [RouteTargetExpression] (events.ts, lines 346-355) is the one recursive
    declaration of the file; membership is decided by recursion on the
    value.  The walk over [props] finds the first binding of the child list
    ([all] or [any]) so that the recursion stays on sub-values. *)
Fixpoint is_route_expr (v : JValue) : bool :=
  match v with
  | JObj props =>
      let children (key : string) :=
        (fix find (ps : list (string * JValue)) : bool :=
           match ps with
           | [] => false
           | (k, x) :: rest =>
               if String.eqb key k
               then match x with
                    | JArr items => forallb is_route_expr items
                    | _ => false
                    end
               else find rest
           end) props in
      let leaf (key : string) :=
        required_string_array (get_prop key props)
        && optional_boolean (get_prop "inverted" props) in
      match get_prop "type" props with
      | Some (JStr tag) =>
          if String.eqb tag "and" then children "all"
          else if String.eqb tag "or" then children "any"
          else if String.eqb tag "glob" then
            match get_prop "glob" props with
            | Some (JStr _) => optional_boolean (get_prop "inverted" props)
            | _ => false
            end
          else if String.eqb tag "ids" then leaf "ids"
          else if String.eqb tag "plugin" then leaf "plugins"
          else if String.eqb tag "instance" then leaf "instances"
          else if String.eqb tag "label" then leaf "selectors"
          else if String.eqb tag "module" then leaf "modules"
          else if String.eqb tag "source" then leaf "sources"
          else false
      | _ => false
      end
  | _ => false
  end.

(** ** Types *)

(** The fragment of the TypeScript type language the file uses.  A field of
    an object type is [(name, (optional, type))]. *)
Inductive Ty : Type :=
| TUnknown
| TUndefined
| TString
| TNumber
| TBoolean
| TLit (s : string)
| TLitBool (b : bool)
| TArray (elem : Ty)
| TRecord (val : Ty)
| TObject (fields : list (string * (bool * Ty)))
| TUnion (alts : list Ty)
| TInter (parts : list Ty)
| TRoute
| TExternal (name : string).

Definition Field : Type := (string * (bool * Ty))%type.

Definition req (name : string) (t : Ty) : Field := (name, (false, t)).
Definition opt (name : string) (t : Ty) : Field := (name, (true, t)).

(** A field against the binding of its property: a required field needs a
    binding of the right type; an optional one may also be absent. *)
Definition field_ok (check : JValue -> bool) (optional : bool) (o : option JValue) : bool :=
  match o with
  | Some x => check x || (optional && absent o)
  | None => optional
  end.

(** Structural assignability, without the compiler's excess-property and
    weak-type warnings (they concern literals in source text, not values). *)
Fixpoint has_type (t : Ty) (v : JValue) {struct t} : bool :=
  match t with
  | TUnknown => true
  | TUndefined => match v with JUndefined => true | _ => false end
  | TString => is_string v
  | TNumber => match v with JNum _ => true | _ => false end
  | TBoolean => is_boolean v
  | TLit s => match v with JStr s' => String.eqb s s' | _ => false end
  | TLitBool b => match v with JBool b' => Bool.eqb b b' | _ => false end
  | TArray elem =>
      match v with
      | JArr items => forallb (has_type elem) items
      | _ => false
      end
  | TRecord val =>
      match v with
      | JObj props => forallb (fun p => has_type val (snd p)) props
      | _ => false
      end
  | TObject fields =>
      match v with
      | JObj props =>
          forallb (fun f : Field =>
                     let '(name, (optional, ft)) := f in
                     field_ok (has_type ft) optional (get_prop name props))
                  fields
      | _ => false
      end
  | TUnion alts => existsb (fun t' => has_type t' v) alts
  | TInter parts => forallb (fun t' => has_type t' v) parts
  | TRoute => is_route_expr v
  | TExternal _ => true
  end.

(** ** The declarations of events.ts *)

Module Schema.

(** *** Type operators *)

Definition named_in (names : list string) (f : Field) : bool :=
  existsb (String.eqb (fst f)) names.

(** [Partial<T>]: every field optional. *)
Definition Partial (t : Ty) : Ty :=
  match t with
  | TObject fields =>
      TObject (map (fun f : Field => (fst f, (true, snd (snd f)))) fields)
  | _ => t
  end.

(** [Pick<T, K>]: the fields named in [K]. *)
Definition Pick (t : Ty) (names : list string) : Ty :=
  match t with
  | TObject fields => TObject (List.filter (named_in names) fields)
  | _ => t
  end.

(** [Omit<T, K>]: the fields not named in [K]; through an intersection it
    drops them from every part. *)
Fixpoint Omit (t : Ty) (names : list string) : Ty :=
  match t with
  | TObject fields =>
      TObject (List.filter (fun f => negb (named_in names f)) fields)
  | TInter parts => TInter (map (fun p => Omit p names) parts)
  | _ => t
  end.

(** A union of string literals. *)
Definition OneOf (names : list string) : Ty := TUnion (map TLit names).

(** [any] places no constraint on a value. *)
Definition TAny : Ty := TUnknown.

(** *** Identity, configuration and routing value types (lines 5-360) *)

Definition DiscordGuildMember : Ty :=
  TObject [req "nickname" TString; req "displayName" TString; req "id" TString].

Definition Discord : Ty :=
  TObject [opt "guildMember" DiscordGuildMember; opt "guildId" TString;
           opt "guildName" TString; opt "channelId" TString].

Definition PluginIdentity : Ty :=
  TObject [req "id" TString; opt "version" TString;
           opt "labels" (TRecord TString)].

Definition ModuleIdentity : Ty :=
  TObject [req "id" TString; req "kind" (TLit "plugin");
           req "plugin" PluginIdentity; opt "labels" (TRecord TString)].

Definition MetadataEventSource : Ty := ModuleIdentity.

Definition ModuleConfigSchema : Ty :=
  TObject [req "id" TString; req "version" TNumber;
           opt "schema" (TRecord TUnknown)].

Definition ModuleDependency : Ty :=
  TObject [req "role" TString; opt "optional" TBoolean; opt "version" TString;
           opt "min" TString; opt "max" TString;
           opt "constraints" (TRecord TUnknown)].

Definition ModuleContribution : Ty :=
  TObject [opt "capabilities" (TArray TString);
           opt "providers" (TArray (TRecord TUnknown));
           opt "ui" (TRecord TUnknown);
           opt "hooks" (TArray (TRecord TUnknown));
           opt "resources" (TRecord TUnknown)].

Definition ModulePhaseNames : list string :=
  ["announced"; "preparing"; "prepared"; "configuration-needed";
   "configured"; "ready"; "failed"].

Definition ModulePhase : Ty := OneOf ModulePhaseNames.

Definition Localizable : Ty :=
  TUnion [TString;
          TObject [req "key" TString; opt "fallback" TString;
                   opt "params" (TRecord (TUnion [TString; TNumber; TBoolean]))]].

Definition ModuleConfigNotice : Ty :=
  TObject [opt "code" TString; opt "message" Localizable; opt "path" TString;
           opt "replacedBy" TString; opt "since" TNumber; opt "link" TString].

Definition ModuleConfigStep : Ty :=
  TObject [opt "code" TString; opt "message" Localizable;
           opt "paths" (TArray TString)].

Definition ModuleConfigPlan : Ty :=
  TObject [req "schema" ModuleConfigSchema;
           opt "missing" (TArray TString);
           opt "invalid" (TArray (TObject [req "path" TString; req "reason" TString]));
           opt "defaults" (TRecord TUnknown);
           opt "deprecated" (TArray (TUnion [TString; ModuleConfigNotice]));
           opt "migrations"
             (TArray (TObject [req "from" TNumber; req "to" TNumber;
                               opt "steps" (TArray (TUnion [TString; ModuleConfigStep]));
                               opt "notes" (TArray (TUnion [TString; ModuleConfigNotice]))]));
           opt "nextSteps" (TArray (TUnion [TString; ModuleConfigStep]));
           opt "warnings" (TArray (TUnion [TString; ModuleConfigNotice]))].

Definition ModuleConfigValidation : Ty :=
  TObject [req "status" (OneOf ["partial"; "valid"; "invalid"]);
           opt "missing" (TArray TString);
           opt "invalid" (TArray (TObject [req "path" TString; req "reason" Localizable]));
           opt "warnings" (TArray (TUnion [TString; ModuleConfigNotice]))].

(** [ModuleConfigEnvelope<C = Record<string, unknown>>], lines 294-320. *)
Definition ModuleConfigEnvelope (C : Ty) : Ty :=
  TObject [req "configId" TString; req "revision" TNumber;
           req "schemaVersion" TNumber; opt "source" ModuleIdentity;
           opt "full" C; opt "patch" (Partial C); opt "baseRevision" TNumber].

Definition ModuleCapability : Ty :=
  TObject [req "id" TString; opt "name" TString; opt "description" Localizable;
           opt "configSchema" ModuleConfigSchema;
           opt "metadata" (TRecord TUnknown)].

Definition RouteTargetExpression : Ty := TRoute.

Definition RouteConfig : Ty :=
  TObject [opt "destinations" (TArray (TUnion [TString; RouteTargetExpression]));
           opt "bypass" TBoolean].

(** *** Enumerations and input/output sources (lines 362-396) *)

Definition MessageHeartbeatKind : Ty := OneOf ["ping"; "pong"].

Definition MessageHeartbeat : Ty := OneOf ["🩵"; "💛"].

Definition WebSocketEventSource : Ty :=
  OneOf ["proj-airi:server-runtime"; "proj-airi:stage-web";
         "proj-airi:stage-tamagotchi"].

Definition InputSource : Ty :=
  TObject [req "stage-web" TBoolean; req "stage-tamagotchi" TBoolean;
           req "discord" Discord].

Definition WithInputSource (sources : list string) : Ty := Pick InputSource sources.

Definition AllInputSources : list string :=
  ["stage-web"; "stage-tamagotchi"; "discord"].

Definition ContextUpdateStrategy : Ty := OneOf ["replace-self"; "append-self"].

(** *** Context updates (lines 398-430) *)

Definition ContextUpdateDestinationAll : Ty :=
  TObject [req "all" (TLitBool true)].

Definition ContextUpdateDestinationList : Ty :=
  TObject [opt "include" (TArray TString); opt "exclude" (TArray TString)].

Definition ContextUpdateDestinationFilter : Ty :=
  TUnion [ContextUpdateDestinationAll; ContextUpdateDestinationList].

(** [ContextUpdate<Metadata = Record<string, unknown>, Content = undefined>]. *)
Definition ContextUpdate (Metadata Content : Ty) : Ty :=
  TObject [req "id" TString; req "contextId" TString; opt "lane" TString;
           opt "ideas" (TArray TString); opt "hints" (TArray TString);
           req "strategy" ContextUpdateStrategy; req "text" TString;
           opt "content" Content;
           opt "destinations" (TUnion [TArray TString; ContextUpdateDestinationFilter]);
           opt "metadata" Metadata].

Definition ContextUpdateDefault : Ty := ContextUpdate (TRecord TUnknown) TUndefined.

(** *** Input events (lines 432-472) *)

Definition InputMessageOverrides : Ty :=
  TObject [opt "sessionId" TString; opt "messagePrefix" TString].

Definition TextOrParts : Ty :=
  TUnion [TString; TArray (TExternal "CommonContentPart")].

Definition InputContextUpdate : Ty :=
  TInter [Omit (ContextUpdate (TRecord TUnknown) TextOrParts) ["id"; "contextId"];
          Partial (Pick (ContextUpdate (TRecord TUnknown) TextOrParts) ["id"; "contextId"])].

Definition WebSocketEventInputTextBase : Ty :=
  TObject [req "text" TString; opt "textRaw" TString;
           opt "overrides" InputMessageOverrides;
           opt "contextUpdates" (TArray InputContextUpdate)].

Definition WebSocketEventInputText : Ty :=
  TInter [WebSocketEventInputTextBase; Partial (WithInputSource AllInputSources)].

Definition WebSocketEventInputTextVoiceBase : Ty :=
  TObject [req "transcription" TString; opt "textRaw" TString;
           opt "overrides" InputMessageOverrides;
           opt "contextUpdates" (TArray InputContextUpdate)].

Definition WebSocketEventInputTextVoice : Ty :=
  TInter [WebSocketEventInputTextVoiceBase; Partial (WithInputSource AllInputSources)].

Definition WebSocketEventInputVoiceBase : Ty :=
  TObject [req "audio" (TExternal "ArrayBuffer");
           opt "overrides" InputMessageOverrides;
           opt "contextUpdates" (TArray InputContextUpdate)].

Definition WebSocketEventInputVoice : Ty :=
  TInter [WebSocketEventInputVoiceBase; Partial (WithInputSource AllInputSources)].

Definition InputEventData : Ty :=
  TUnion [WebSocketEventInputText; WebSocketEventInputTextVoice;
          WebSocketEventInputVoice].

Definition InputEventEnvelope : Ty :=
  TUnion [TObject [req "type" (TLit "input:text"); req "data" WebSocketEventInputText];
          TObject [req "type" (TLit "input:text:voice"); req "data" WebSocketEventInputTextVoice];
          TObject [req "type" (TLit "input:voice"); req "data" WebSocketEventInputVoice]].

Definition OutputSource : Ty :=
  TObject [req "gen-ai:chat"
             (TObject [req "message" (TExternal "UserMessage");
                       req "contexts"
                         (TRecord (TArray (ContextUpdate (TRecord TAny) TextOrParts)));
                       req "composedMessage" (TArray (TExternal "Message"));
                       opt "input" InputEventEnvelope])].

Definition WithOutputSource (sources : list string) : Ty := Pick OutputSource sources.

(** [EventBaseMetadata], lines 474-480. *)
Definition EventBaseMetadata : Ty :=
  TObject [opt "source" ModuleIdentity;
           opt "event" (TObject [opt "id" TString; opt "parentId" TString])].

(** *** Event payloads (lines 504-841) *)

Definition ModuleAuthenticateEvent : Ty := TObject [req "token" TString].

Definition ModuleAuthenticatedEvent : Ty := TObject [req "authenticated" TBoolean].

Definition ModuleCompatibilityRequestEvent : Ty :=
  TObject [req "protocolVersion" TString; req "apiVersion" TString;
           opt "supportedProtocolVersions" (TArray TString);
           opt "supportedApiVersions" (TArray TString)].

Definition ModuleCompatibilityResultEvent : Ty :=
  TObject [req "protocolVersion" TString; req "apiVersion" TString;
           req "mode" (OneOf ["exact"; "downgraded"; "rejected"]);
           opt "reason" TString].

Definition RegistryModulesSyncEvent : Ty :=
  TObject [req "modules"
             (TArray (TObject [req "name" TString; opt "index" TNumber;
                               req "identity" ModuleIdentity]))].

Definition ErrorEvent : Ty := TObject [req "message" TString].

(** The keys of [ProtocolEvents], in the order of the interface
    (lines 910-1076).  [keyof ProtocolEvents<C>] is the union of these. *)
Definition ProtocolEventNames : list string :=
  ["error";
   "module:authenticate"; "module:authenticated";
   "module:compatibility:request"; "module:compatibility:result";
   "registry:modules:sync";
   "module:announce"; "module:prepared"; "module:configuration:needed";
   "module:status";
   "module:configuration:validate:request";
   "module:configuration:validate:response";
   "module:configuration:validate:status";
   "module:configuration:plan:request";
   "module:configuration:plan:response";
   "module:configuration:plan:status";
   "module:configuration:commit";
   "module:configuration:commit:status";
   "module:configuration:configured";
   "module:contribute:capability:offer";
   "module:contribute:capability:configuration:needed";
   "module:contribute:capability:configuration:validate:request";
   "module:contribute:capability:configuration:validate:response";
   "module:contribute:capability:configuration:validate:status";
   "module:contribute:capability:configuration:plan:request";
   "module:contribute:capability:configuration:plan:response";
   "module:contribute:capability:configuration:plan:status";
   "module:contribute:capability:configuration:commit";
   "module:contribute:capability:configuration:commit:status";
   "module:contribute:capability:configuration:configured";
   "module:contribute:capability:activated";
   "module:status:change";
   "module:configure";
   "ui:configure";
   "input:text"; "input:text:voice"; "input:voice";
   "output:gen-ai:chat:tool-call"; "output:gen-ai:chat:message";
   "output:gen-ai:chat:complete";
   "spark:notify"; "spark:emit"; "spark:command";
   "speak:text";
   "transport:connection:heartbeat";
   "context:update"].

Definition KeyofProtocolEvents : Ty := OneOf ProtocolEventNames.

(** [ModuleAnnounceEvent<C>]: the parameter only reaches [keyof], and the
    keys of [ProtocolEvents<C>] are the same for every [C]. *)

Definition ModuleAnnounceEvent : Ty :=
  TObject [req "name" TString; req "identity" ModuleIdentity;
           req "possibleEvents" (TArray KeyofProtocolEvents);
           opt "configSchema" ModuleConfigSchema;
           opt "dependencies" (TArray ModuleDependency)].

Definition ModulePreparedEvent : Ty :=
  TObject [req "identity" ModuleIdentity;
           opt "missingDependencies" (TArray ModuleDependency)].

Definition ModuleConfigurationNeededEvent (C : Ty) : Ty :=
  TObject [req "identity" ModuleIdentity; opt "schema" ModuleConfigSchema;
           opt "current" (ModuleConfigEnvelope C); opt "reason" TString].

Definition ModuleStatusEvent : Ty :=
  TObject [req "identity" ModuleIdentity; req "phase" ModulePhase;
           opt "reason" TString; opt "details" (TRecord TUnknown)].

Definition ModuleConfigurationValidateRequestEvent (C : Ty) : Ty :=
  TObject [req "identity" ModuleIdentity;
           opt "current" (ModuleConfigEnvelope C)].

Definition ModuleConfigurationValidateResponseEvent (C : Ty) : Ty :=
  TObject [req "identity" ModuleIdentity;
           req "validation" ModuleConfigValidation;
           opt "plan" ModuleConfigPlan;
           opt "current" (ModuleConfigEnvelope C)].

Definition ModuleConfigurationValidateStatusEvent : Ty :=
  TObject [req "identity" ModuleIdentity;
           req "state" (OneOf ["queued"; "working"; "done"; "failed"]);
           opt "note" TString; opt "progress" TNumber].

Definition ModuleConfigurationPlanRequestEvent (C : Ty) : Ty :=
  TObject [req "identity" ModuleIdentity; opt "plan" ModuleConfigPlan;
           opt "current" (ModuleConfigEnvelope C)].

Definition ModuleConfigurationPlanResponseEvent (C : Ty) : Ty :=
  TObject [req "identity" ModuleIdentity; req "plan" ModuleConfigPlan;
           opt "current" (ModuleConfigEnvelope C)].

Definition ModuleConfigurationPlanStatusEvent : Ty :=
  TObject [req "identity" ModuleIdentity;
           req "state" (OneOf ["queued"; "working"; "done"; "failed"]);
           opt "note" TString; opt "progress" TNumber].

Definition ModuleConfigurationCommitEvent (C : Ty) : Ty :=
  TObject [req "identity" ModuleIdentity; req "config" (ModuleConfigEnvelope C)].

Definition ModuleConfigurationCommitStatusEvent : Ty :=
  TObject [req "identity" ModuleIdentity;
           req "state" (OneOf ["queued"; "working"; "done"; "failed"]);
           opt "note" TString; opt "progress" TNumber].

Definition ModuleConfigurationConfiguredEvent (C : Ty) : Ty :=
  TObject [req "identity" ModuleIdentity; req "config" (ModuleConfigEnvelope C)].

Definition ModuleContributeCapabilityOfferEvent : Ty :=
  TObject [req "identity" ModuleIdentity; req "capability" ModuleCapability].

Definition ModuleContributeCapabilityConfigurationNeededEvent (C : Ty) : Ty :=
  TObject [req "identity" ModuleIdentity; req "capabilityId" TString;
           opt "schema" ModuleConfigSchema;
           opt "current" (ModuleConfigEnvelope C); opt "reason" TString].

Definition ModuleContributeCapabilityConfigurationValidateRequestEvent (C : Ty) : Ty :=
  TObject [req "identity" ModuleIdentity; req "capabilityId" TString;
           opt "current" (ModuleConfigEnvelope C)].

Definition ModuleContributeCapabilityConfigurationValidateResponseEvent (C : Ty) : Ty :=
  TObject [req "identity" ModuleIdentity; req "capabilityId" TString;
           req "validation" ModuleConfigValidation;
           opt "plan" ModuleConfigPlan;
           opt "current" (ModuleConfigEnvelope C)].

Definition ModuleContributeCapabilityConfigurationValidateStatusEvent : Ty :=
  TObject [req "identity" ModuleIdentity; req "capabilityId" TString;
           req "state" (OneOf ["queued"; "working"; "done"; "failed"]);
           opt "note" TString; opt "progress" TNumber].

Definition ModuleContributeCapabilityConfigurationPlanRequestEvent (C : Ty) : Ty :=
  TObject [req "identity" ModuleIdentity; req "capabilityId" TString;
           opt "plan" ModuleConfigPlan;
           opt "current" (ModuleConfigEnvelope C)].

Definition ModuleContributeCapabilityConfigurationPlanResponseEvent (C : Ty) : Ty :=
  TObject [req "identity" ModuleIdentity; req "capabilityId" TString;
           req "plan" ModuleConfigPlan;
           opt "current" (ModuleConfigEnvelope C)].

Definition ModuleContributeCapabilityConfigurationPlanStatusEvent : Ty :=
  TObject [req "identity" ModuleIdentity; req "capabilityId" TString;
           req "state" (OneOf ["queued"; "working"; "done"; "failed"]);
           opt "note" TString; opt "progress" TNumber].

Definition ModuleContributeCapabilityConfigurationCommitEvent (C : Ty) : Ty :=
  TObject [req "identity" ModuleIdentity; req "capabilityId" TString;
           req "config" (ModuleConfigEnvelope C)].

Definition ModuleContributeCapabilityConfigurationCommitStatusEvent : Ty :=
  TObject [req "identity" ModuleIdentity; req "capabilityId" TString;
           req "state" (OneOf ["queued"; "working"; "done"; "failed"]);
           opt "note" TString; opt "progress" TNumber].

Definition ModuleContributeCapabilityConfigurationConfiguredEvent (C : Ty) : Ty :=
  TObject [req "identity" ModuleIdentity; req "capabilityId" TString;
           req "config" (ModuleConfigEnvelope C)].

Definition ModuleContributeCapabilityActivatedEvent : Ty :=
  TObject [req "identity" ModuleIdentity; req "capabilityId" TString;
           req "active" TBoolean; opt "reason" TString].

Definition ModuleStatusChangeEvent : Ty :=
  TObject [req "identity" ModuleIdentity; req "phase" ModulePhase;
           opt "reason" TString; opt "details" (TRecord TUnknown)].

Definition ModuleConfigureEvent (C : Ty) : Ty :=
  TObject [req "config" (TUnion [C; TRecord TUnknown])].

Definition UiConfigureEvent (C : Ty) : Ty :=
  TObject [req "moduleName" TString; opt "moduleIndex" TNumber;
           req "config" (TUnion [C; TRecord TUnknown])].

Definition OutputGenAiChatToolCallEvent : Ty :=
  TInter [TObject [req "toolCalls" (TArray (TExternal "ToolMessage"))];
          Partial (WithInputSource AllInputSources);
          Partial (WithOutputSource ["gen-ai:chat"])].

Definition OutputGenAiChatMessageEvent : Ty :=
  TInter [TObject [req "message" (TExternal "AssistantMessage")];
          Partial (WithInputSource AllInputSources);
          Partial (WithOutputSource ["gen-ai:chat"])].

Definition OutputGenAiChatUsage : Ty :=
  TObject [req "promptTokens" TNumber; req "completionTokens" TNumber;
           req "totalTokens" TNumber;
           req "source" (OneOf ["provider-based"; "estimate-based"])].

Definition OutputGenAiChatCompleteEvent : Ty :=
  TInter [TObject [req "message" (TExternal "AssistantMessage");
                   req "toolCalls" (TArray (TExternal "ToolMessage"));
                   req "usage" OutputGenAiChatUsage];
          Partial (WithInputSource AllInputSources);
          Partial (WithOutputSource ["gen-ai:chat"])].

Definition SparkNotifyEvent : Ty :=
  TObject [req "id" TString; req "eventId" TString; opt "lane" TString;
           req "kind" (OneOf ["alarm"; "ping"; "reminder"]);
           req "urgency" (OneOf ["immediate"; "soon"; "later"]);
           req "headline" TString; opt "note" TString;
           opt "payload" (TRecord TUnknown); opt "ttlMs" TNumber;
           opt "requiresAck" TBoolean;
           req "destinations" (TArray TString);
           opt "metadata" (TRecord TUnknown)].

Definition SparkEmitStateNames : list string :=
  ["queued"; "working"; "done"; "dropped"; "blocked"; "expired"].

Definition SparkEmitEvent : Ty :=
  TObject [req "id" TString; opt "eventId" TString;
           req "state" (OneOf SparkEmitStateNames);
           opt "note" TString;
           req "destinations" (TArray TString);
           opt "metadata" (TRecord TUnknown)].

Definition SparkCommandGuidanceOption : Ty :=
  TObject [req "label" TString; req "steps" (TArray TString);
           opt "rationale" TString; opt "possibleOutcome" (TArray TString);
           opt "risk" (OneOf ["high"; "medium"; "low"; "none"]);
           opt "fallback" (TArray TString); opt "triggers" (TArray TString)].

Definition SparkCommandGuidance : Ty :=
  TObject [req "type" (OneOf ["proposal"; "instruction"; "memory-recall"]);
           opt "persona"
             (TRecord (OneOf ["very-high"; "high"; "medium"; "low"; "very-low"]));
           req "options" (TArray SparkCommandGuidanceOption)].

Definition SparkCommandEvent : Ty :=
  TObject [req "id" TString; opt "eventId" TString; opt "parentEventId" TString;
           req "commandId" TString;
           req "interrupt" (TUnion [TLit "force"; TLit "soft"; TLitBool false]);
           req "priority" (OneOf ["critical"; "high"; "normal"; "low"]);
           req "intent"
             (OneOf ["plan"; "proposal"; "action"; "pause"; "resume";
                     "reroute"; "context"]);
           opt "ack" TString; opt "guidance" SparkCommandGuidance;
           opt "contexts" (TArray ContextUpdateDefault);
           req "destinations" (TArray TString)].

Definition SpeakTextEvent : Ty :=
  TObject [req "text" TString; opt "voiceId" TString;
           opt "emotion" (OneOf ["neutral"; "happy"; "sad"; "angry"; "excited"]);
           opt "speed" TNumber; opt "metadata" (TRecord TUnknown)].

Definition TransportConnectionHeartbeatEvent : Ty :=
  TObject [req "kind" MessageHeartbeatKind;
           req "message" (TUnion [MessageHeartbeat; TString]);
           opt "at" TNumber].

Definition ContextUpdateEvent : Ty := ContextUpdateDefault.

(** *** The catalogue (lines 910-1080) *)

(** [ProtocolEvents<C = undefined>]: event name to payload type. *)
Definition ProtocolEvents (C : Ty) : list (string * Ty) :=
  [("error", ErrorEvent);
   ("module:authenticate", ModuleAuthenticateEvent);
   ("module:authenticated", ModuleAuthenticatedEvent);
   ("module:compatibility:request", ModuleCompatibilityRequestEvent);
   ("module:compatibility:result", ModuleCompatibilityResultEvent);
   ("registry:modules:sync", RegistryModulesSyncEvent);
   ("module:announce", ModuleAnnounceEvent);
   ("module:prepared", ModulePreparedEvent);
   ("module:configuration:needed", ModuleConfigurationNeededEvent C);
   ("module:status", ModuleStatusEvent);
   ("module:configuration:validate:request", ModuleConfigurationValidateRequestEvent C);
   ("module:configuration:validate:response", ModuleConfigurationValidateResponseEvent C);
   ("module:configuration:validate:status", ModuleConfigurationValidateStatusEvent);
   ("module:configuration:plan:request", ModuleConfigurationPlanRequestEvent C);
   ("module:configuration:plan:response", ModuleConfigurationPlanResponseEvent C);
   ("module:configuration:plan:status", ModuleConfigurationPlanStatusEvent);
   ("module:configuration:commit", ModuleConfigurationCommitEvent C);
   ("module:configuration:commit:status", ModuleConfigurationCommitStatusEvent);
   ("module:configuration:configured", ModuleConfigurationConfiguredEvent C);
   ("module:contribute:capability:offer", ModuleContributeCapabilityOfferEvent);
   ("module:contribute:capability:configuration:needed",
     ModuleContributeCapabilityConfigurationNeededEvent C);
   ("module:contribute:capability:configuration:validate:request",
     ModuleContributeCapabilityConfigurationValidateRequestEvent C);
   ("module:contribute:capability:configuration:validate:response",
     ModuleContributeCapabilityConfigurationValidateResponseEvent C);
   ("module:contribute:capability:configuration:validate:status",
     ModuleContributeCapabilityConfigurationValidateStatusEvent);
   ("module:contribute:capability:configuration:plan:request",
     ModuleContributeCapabilityConfigurationPlanRequestEvent C);
   ("module:contribute:capability:configuration:plan:response",
     ModuleContributeCapabilityConfigurationPlanResponseEvent C);
   ("module:contribute:capability:configuration:plan:status",
     ModuleContributeCapabilityConfigurationPlanStatusEvent);
   ("module:contribute:capability:configuration:commit",
     ModuleContributeCapabilityConfigurationCommitEvent C);
   ("module:contribute:capability:configuration:commit:status",
     ModuleContributeCapabilityConfigurationCommitStatusEvent);
   ("module:contribute:capability:configuration:configured",
     ModuleContributeCapabilityConfigurationConfiguredEvent C);
   ("module:contribute:capability:activated", ModuleContributeCapabilityActivatedEvent);
   ("module:status:change", ModuleStatusChangeEvent);
   ("module:configure", ModuleConfigureEvent C);
   ("ui:configure", UiConfigureEvent C);
   ("input:text", WebSocketEventInputText);
   ("input:text:voice", WebSocketEventInputTextVoice);
   ("input:voice", WebSocketEventInputVoice);
   ("output:gen-ai:chat:tool-call", OutputGenAiChatToolCallEvent);
   ("output:gen-ai:chat:message", OutputGenAiChatMessageEvent);
   ("output:gen-ai:chat:complete", OutputGenAiChatCompleteEvent);
   ("spark:notify", SparkNotifyEvent);
   ("spark:emit", SparkEmitEvent);
   ("spark:command", SparkCommandEvent);
   ("speak:text", SpeakTextEvent);
   ("transport:connection:heartbeat", TransportConnectionHeartbeatEvent);
   ("context:update", ContextUpdateEvent)].

(** [ProtocolEvents<C>[E]]. *)
Fixpoint payload_in (table : list (string * Ty)) (E : string) : option Ty :=
  match table with
  | [] => None
  | (name, t) :: rest => if String.eqb E name then Some t else payload_in rest E
  end.

Definition payload_of (C : Ty) (E : string) : option Ty :=
  payload_in (ProtocolEvents C) E.

(** The [metadata] field [ProtocolEventOf] gives to every payload. *)
Definition OpenMetadata : Ty := TObject [opt "metadata" (TRecord TUnknown)].

(** [ProtocolEventOf<E, C>] (lines 1078-1080); [None] is [never]. *)
Definition ProtocolEventOf (E : string) (C : Ty) : option Ty :=
  match payload_of C E with
  | Some payload => Some (TInter [Omit payload ["metadata"]; OpenMetadata])
  | None => None
  end.

(** The event definitions of lines 843-904: the name given to [defineEventa]
    and its payload type argument, at the default [C = undefined]. *)
Definition definedEvents : list (string * Ty) :=
  [("module:authenticate", ModuleAuthenticateEvent);
   ("module:authenticated", ModuleAuthenticatedEvent);
   ("module:compatibility:request", ModuleCompatibilityRequestEvent);
   ("module:compatibility:result", ModuleCompatibilityResultEvent);
   ("registry:modules:sync", RegistryModulesSyncEvent);
   ("error", ErrorEvent);
   ("module:announce", ModuleAnnounceEvent);
   ("module:prepared", ModulePreparedEvent);
   ("module:configuration:needed", ModuleConfigurationNeededEvent TUndefined);
   ("module:status", ModuleStatusEvent);
   ("module:configuration:validate:request", ModuleConfigurationValidateRequestEvent TUndefined);
   ("module:configuration:validate:response", ModuleConfigurationValidateResponseEvent TUndefined);
   ("module:configuration:validate:status", ModuleConfigurationValidateStatusEvent);
   ("module:configuration:plan:request", ModuleConfigurationPlanRequestEvent TUndefined);
   ("module:configuration:plan:response", ModuleConfigurationPlanResponseEvent TUndefined);
   ("module:configuration:plan:status", ModuleConfigurationPlanStatusEvent);
   ("module:configuration:commit", ModuleConfigurationCommitEvent TUndefined);
   ("module:configuration:commit:status", ModuleConfigurationCommitStatusEvent);
   ("module:configuration:configured", ModuleConfigurationConfiguredEvent TUndefined);
   ("module:contribute:capability:offer", ModuleContributeCapabilityOfferEvent);
   ("module:contribute:capability:configuration:needed",
     ModuleContributeCapabilityConfigurationNeededEvent TUndefined);
   ("module:contribute:capability:configuration:validate:request",
     ModuleContributeCapabilityConfigurationValidateRequestEvent TUndefined);
   ("module:contribute:capability:configuration:validate:response",
     ModuleContributeCapabilityConfigurationValidateResponseEvent TUndefined);
   ("module:contribute:capability:configuration:validate:status",
     ModuleContributeCapabilityConfigurationValidateStatusEvent);
   ("module:contribute:capability:configuration:plan:request",
     ModuleContributeCapabilityConfigurationPlanRequestEvent TUndefined);
   ("module:contribute:capability:configuration:plan:response",
     ModuleContributeCapabilityConfigurationPlanResponseEvent TUndefined);
   ("module:contribute:capability:configuration:plan:status",
     ModuleContributeCapabilityConfigurationPlanStatusEvent);
   ("module:contribute:capability:configuration:commit",
     ModuleContributeCapabilityConfigurationCommitEvent TUndefined);
   ("module:contribute:capability:configuration:commit:status",
     ModuleContributeCapabilityConfigurationCommitStatusEvent);
   ("module:contribute:capability:configuration:configured",
     ModuleContributeCapabilityConfigurationConfiguredEvent TUndefined);
   ("module:contribute:capability:activated", ModuleContributeCapabilityActivatedEvent);
   ("module:status:change", ModuleStatusChangeEvent);
   ("module:configure", ModuleConfigureEvent TUndefined);
   ("ui:configure", UiConfigureEvent TUndefined);
   ("input:text", WebSocketEventInputText);
   ("input:text:voice", WebSocketEventInputTextVoice);
   ("input:voice", WebSocketEventInputVoice);
   ("output:gen-ai:chat:tool-call", OutputGenAiChatToolCallEvent);
   ("output:gen-ai:chat:message", OutputGenAiChatMessageEvent);
   ("output:gen-ai:chat:complete", OutputGenAiChatCompleteEvent);
   ("spark:notify", SparkNotifyEvent);
   ("spark:emit", SparkEmitEvent);
   ("spark:command", SparkCommandEvent);
   ("speak:text", SpeakTextEvent);
   ("transport:connection:heartbeat", TransportConnectionHeartbeatEvent);
   ("context:update", ContextUpdateEvent)].

(** *** The configuration negotiation steps (lines 565-695)

    The step suffix, and the module-level and capability-level payload
    declared for it. *)
Definition module_prefix : string := "module:configuration:".
Definition capability_prefix : string := "module:contribute:capability:configuration:".

Definition negotiation_steps : list string :=
  ["validate:request"; "validate:response"; "validate:status";
   "plan:request"; "plan:response"; "plan:status";
   "commit"; "commit:status"; "configured"].

Definition status_steps : list string :=
  ["validate:status"; "plan:status"; "commit:status"].

End Schema.

(** ** Operations on wire values used by the statements *)

(** The value without its bindings of property [k]. *)
Definition without (k : string) (v : JValue) : JValue :=
  match v with
  | JObj props => JObj (List.filter (fun p => negb (String.eqb k (fst p))) props)
  | _ => v
  end.

(** The value with property [k] bound to [x]. *)
Definition with_prop (k : string) (x : JValue) (v : JValue) : JValue :=
  match v with
  | JObj props => JObj ((k, x) :: props)
  | _ => v
  end.

Definition present (k : string) (v : JValue) : bool := negb (absent (prop k v)).

(** The invariant the specification states for envelopes: exactly one of
    [full] and [patch] is set, and [baseRevision] is set whenever [patch]
    is. *)
Definition envelope_invariant (v : JValue) : bool :=
  xorb (present "full" v) (present "patch" v)
  && implb (present "patch" v) (present "baseRevision" v).

(** The field [name] of an object type. *)
Fixpoint field_in (fields : list Field) (name : string) : option (bool * Ty) :=
  match fields with
  | [] => None
  | (n, d) :: rest => if String.eqb name n then Some d else field_in rest name
  end.

Definition field_of (t : Ty) (name : string) : option (bool * Ty) :=
  match t with
  | TObject fields => field_in fields name
  | _ => None
  end.

Definition fields_of (t : Ty) : list Field :=
  match t with
  | TObject fields => fields
  | _ => []
  end.

Definition drop_field (name : string) (fields : list Field) : list Field :=
  List.filter (fun f => negb (String.eqb name (fst f))) fields.

(** ** Value types as records

    The declared value types the behavioural models compute with.  A field
    [f?: T] is an [option]; [Record<string, T>] is a finite map. *)

Definition Config : Type := gmap string JValue.

Record PluginIdentity : Type := {
  plugin_id : string;
  plugin_version : option string;
  plugin_labels : option (gmap string string)
}.

(** [kind] has the single value ['plugin'] and carries no information. *)
Record ModuleIdentity : Type := {
  identity_id : string;
  identity_plugin : PluginIdentity;
  identity_labels : option (gmap string string)
}.

Record ModuleConfigEnvelope : Type := {
  configId : string;
  revision : Z;
  schemaVersion : Z;
  source : option ModuleIdentity;
  full : option Config;
  patch : option Config;
  baseRevision : option Z
}.

Inductive RouteTargetExpression : Type :=
| RouteAnd (all : list RouteTargetExpression)
| RouteOr (any : list RouteTargetExpression)
| RouteGlob (glob : string) (inverted : option bool)
| RouteIds (ids : list string) (inverted : option bool)
| RoutePlugin (plugins : list string) (inverted : option bool)
| RouteInstance (instances : list string) (inverted : option bool)
| RouteLabel (selectors : list string) (inverted : option bool)
| RouteModule (modules : list string) (inverted : option bool)
| RouteSource (sources : list string) (inverted : option bool).

Inductive SparkEmitState : Type :=
| Queued | Working | Done | Dropped | Blocked | Expired.

Record SparkEmitEvent : Type := {
  emit_id : string;
  emit_eventId : option string;
  emit_state : SparkEmitState;
  emit_note : option string;
  emit_destinations : list string;
  emit_metadata : option Config
}.

(** ** Commit with optimistic concurrency *)

Module Commit.

(** What the responder keeps per [configId]. *)
Record StoredConfig : Type := {
  stored_revision : Z;
  stored_config : Config
}.

Abbreviation ConfigStore := (gmap string StoredConfig).

Inductive CommitOutcome : Type :=
| Configured (config : ModuleConfigEnvelope)
| RejectedStale (current : option Z)
| RejectedNoBase
| RejectedEmpty.

Definition accepted (o : CommitOutcome) : bool :=
  match o with Configured _ => true | _ => false end.

Definition storedRevision (st : ConfigStore) (cid : string) : option Z :=
  stored_revision <$> st !! cid.

(** The envelope announced by [:configured]: the stored state in full. *)
Definition configured_envelope (e : ModuleConfigEnvelope) (s : StoredConfig) : ModuleConfigEnvelope :=
  {| configId := configId e;
     revision := stored_revision s;
     schemaVersion := schemaVersion e;
     source := source e;
     full := Some (stored_config s);
     patch := None;
     baseRevision := None |}.

(** Modelled from the spec: the responder's commit step, which the source
    file names ([module:configuration:commit], [:configured]) but does not
    implement.  Section 4.2: the responder must reject a patch whose
    [baseRevision] does not match its current [revision] for that
    [configId]; on success it advances [revision] and emits [:configured]
    with the new envelope.  A rejected commit leaves the store as it was.
    A patch is folded over the stored payload (its keys win).  The
    specification does not say which revision a [full] payload gets: here it
    is the successor of the stored one, or the envelope's own [revision]
    when nothing is stored; no statement below depends on that choice. *)
Definition commit (e : ModuleConfigEnvelope) (st : ConfigStore) : ConfigStore * CommitOutcome :=
  match patch e with
  | Some p =>
      match baseRevision e with
      | Some base =>
          match st !! configId e with
          | Some cur =>
              if base =? stored_revision cur then
                let next := {| stored_revision := stored_revision cur + 1;
                               stored_config := p ∪ stored_config cur |} in
                (<[configId e := next]> st, Configured (configured_envelope e next))
              else (st, RejectedStale (Some (stored_revision cur)))
          | None => (st, RejectedStale None)
          end
      | None => (st, RejectedNoBase)
      end
  | None =>
      match full e with
      | Some c =>
          let next := {| stored_revision :=
                           match st !! configId e with
                           | Some cur => stored_revision cur + 1
                           | None => revision e
                           end;
                         stored_config := c |} in
          (<[configId e := next]> st, Configured (configured_envelope e next))
      | None => (st, RejectedEmpty)
      end
  end.

(** A run of commits, with the outcome of each. *)
Fixpoint commit_all (es : list ModuleConfigEnvelope) (st : ConfigStore)
  : ConfigStore * list CommitOutcome :=
  match es with
  | [] => (st, [])
  | e :: rest =>
      let '(st1, o) := commit e st in
      let '(st2, os) := commit_all rest st1 in
      (st2, o :: os)
  end.

(** Scenario 2 of the specification: revision 5 is stored and a patch on
    base 5 arrives. *)
Definition scenario2_store : ConfigStore :=
  {[ "stage-ui-live2d" := {| stored_revision := 5;
                             stored_config := {[ "model" := JStr "Hiyori" ]} |} ]}.

Definition scenario2_patch : ModuleConfigEnvelope :=
  {| configId := "stage-ui-live2d"; revision := 5; schemaVersion := 2;
     source := None; full := None;
     patch := Some {[ "model" := JStr "Haru" ]};
     baseRevision := Some 5 |}.

End Commit.

(** ** Route evaluation *)

Module Routing.

(** An entry of the live registry: the element type of
    [RegistryModulesSyncEvent.modules] (lines 526-532) with the source tag
    the specification lists among the registry metadata. *)
Record RegistryEntry : Type := {
  entry_name : string;
  entry_index : option Z;
  entry_identity : ModuleIdentity;
  entry_source : option string
}.

Definition entry_id (e : RegistryEntry) : string := identity_id (entry_identity e).

Abbreviation Registry := (list RegistryEntry).

(** What each kind of leaf selects in a registry entry.  The specification
    says that a leaf "computes a match set from the registry" and leaves the
    matching rule of each kind to the implementation, so the evaluator takes
    the seven rules as an interface; none of them sees the [inverted] flag. *)
Class LeafMatchers : Type := {
  glob_selects : string -> RegistryEntry -> bool;
  ids_select : list string -> RegistryEntry -> bool;
  plugins_select : list string -> RegistryEntry -> bool;
  instances_select : list string -> RegistryEntry -> bool;
  labels_select : list string -> RegistryEntry -> bool;
  modules_select : list string -> RegistryEntry -> bool;
  sources_select : list string -> RegistryEntry -> bool
}.

(** [inverted?: boolean] read as a condition: absent counts as [false]. *)
Definition is_inverted (inverted : option bool) : bool :=
  match inverted with
  | Some true => true
  | _ => false
  end.

Definition registry_ids (reg : Registry) : gset string :=
  list_to_set (map entry_id reg).

Definition match_set (selects : RegistryEntry -> bool) (reg : Registry) : gset string :=
  list_to_set (map entry_id (List.filter selects reg)).

(** A leaf: its match set, complemented against the whole registry when the
    leaf is inverted. *)
Definition leaf_result (inverted : option bool) (selects : RegistryEntry -> bool)
    (reg : Registry) : gset string :=
  if is_inverted inverted
  then registry_ids reg ∖ match_set selects reg
  else match_set selects reg.

Section Evaluate.
Context {M : LeafMatchers}.

(** Modelled from the spec: the routing engine of section 4.4, of which
    the source file declares only the expression type.  [and] and [or]
    combine the results of their children by intersection and union (the
    empty [and] is the whole registry, the empty [or] is empty); a leaf
    computes its match set from the registry and applies [inverted] by
    complementing against the full registry set.  The result is the set
    of matching module ids. *)
Fixpoint evaluate (x : RouteTargetExpression) (reg : Registry) : gset string :=
  match x with
  | RouteAnd all =>
      foldr (fun child acc => evaluate child reg ∩ acc) (registry_ids reg) all
  | RouteOr any =>
      foldr (fun child acc => evaluate child reg ∪ acc) ∅ any
  | RouteGlob glob inverted => leaf_result inverted (glob_selects glob) reg
  | RouteIds ids inverted => leaf_result inverted (ids_select ids) reg
  | RoutePlugin plugins inverted => leaf_result inverted (plugins_select plugins) reg
  | RouteInstance instances inverted => leaf_result inverted (instances_select instances) reg
  | RouteLabel selectors inverted => leaf_result inverted (labels_select selectors) reg
  | RouteModule modules inverted => leaf_result inverted (modules_select modules) reg
  | RouteSource sources inverted => leaf_result inverted (sources_select sources) reg
  end.

(** An element of [RouteConfig.destinations]: a plain id is an implicit
    [ids] leaf. *)
Definition evaluate_destination (d : string + RouteTargetExpression) (reg : Registry)
  : gset string :=
  match d with
  | inl id => evaluate (RouteIds [id] None) reg
  | inr x => evaluate x reg
  end.
End Evaluate.

(** Flipping [inverted?: boolean]. *)
Definition toggle (inverted : option bool) : option bool :=
  Some (negb (is_inverted inverted)).

(** The inversion of an expression.  A leaf flips its [inverted] flag.  The
    [and] and [or] alternatives of the source type have no such flag; their
    inversion is the dual combinator over the inverted children, the one
    form the type offers for it. *)
Fixpoint invert (x : RouteTargetExpression) : RouteTargetExpression :=
  match x with
  | RouteAnd all => RouteOr (map invert all)
  | RouteOr any => RouteAnd (map invert any)
  | RouteGlob glob inverted => RouteGlob glob (toggle inverted)
  | RouteIds ids inverted => RouteIds ids (toggle inverted)
  | RoutePlugin plugins inverted => RoutePlugin plugins (toggle inverted)
  | RouteInstance instances inverted => RouteInstance instances (toggle inverted)
  | RouteLabel selectors inverted => RouteLabel selectors (toggle inverted)
  | RouteModule modules inverted => RouteModule modules (toggle inverted)
  | RouteSource sources inverted => RouteSource sources (toggle inverted)
  end.

Definition is_leaf (x : RouteTargetExpression) : bool :=
  match x with
  | RouteAnd _ | RouteOr _ => false
  | _ => true
  end.

(** *** One choice of matching rules, for the scenarios of the specification *)

(** [*] matches any run of characters; every other character matches
    itself. *)
Fixpoint glob_match (pattern : string) (s : string) : bool :=
  match pattern with
  | EmptyString => match s with EmptyString => true | _ => false end
  | String c rest =>
      if Ascii.eqb c "*"%char then
        (fix star (t : string) : bool :=
           glob_match rest t
           || match t with
              | EmptyString => false
              | String _ t' => star t'
              end) s
      else match s with
           | String d s' => Ascii.eqb c d && glob_match rest s'
           | EmptyString => false
           end
  end.

(** A selector [key=value] as a pair; a selector without [=] has no value. *)
Fixpoint split_selector (s : string) : string * option string :=
  match s with
  | EmptyString => (EmptyString, None)
  | String c rest =>
      if Ascii.eqb c "="%char then (EmptyString, Some rest)
      else let '(k, v) := split_selector rest in (String c k, v)
  end.

Definition label_holds (labels : option (gmap string string)) (selector : string) : bool :=
  let '(k, v) := split_selector selector in
  match labels with
  | Some m =>
      match m !! k, v with
      | Some actual, Some wanted => String.eqb actual wanted
      | Some _, None => true
      | None, _ => false
      end
  | None => false
  end.

Definition mem (x : string) (l : list string) : bool := existsb (String.eqb x) l.

Definition scenario_matchers : LeafMatchers := {|
  glob_selects glob e := glob_match glob (entry_id e);
  ids_select ids e := mem (entry_id e) ids;
  plugins_select plugins e := mem (plugin_id (identity_plugin (entry_identity e))) plugins;
  instances_select instances e := mem (entry_id e) instances;
  labels_select selectors e := forallb (label_holds (identity_labels (entry_identity e))) selectors;
  modules_select modules e := mem (entry_name e) modules;
  sources_select sources e :=
    match entry_source e with
    | Some tag => mem tag sources
    | None => false
    end
|}.

Definition scenario_entry (id : string) (labels : list (string * string)) : RegistryEntry :=
  {| entry_name := id;
     entry_index := None;
     entry_identity :=
       {| identity_id := id;
          identity_plugin := {| plugin_id := id; plugin_version := None; plugin_labels := None |};
          identity_labels := Some (list_to_map labels) |};
     entry_source := None |}.

(** Scenario 3 of the specification. *)
Definition scenario3_registry : Registry :=
  [scenario_entry "stage-web" [("env", "prod")];
   scenario_entry "telegram-bot" [("env", "prod")]].

Definition scenario3_expression : RouteTargetExpression :=
  RouteAnd [RouteLabel ["env=prod"] None; RouteGlob "stage-*" (Some true)].

End Routing.

(** ** The spark:emit tracker *)

Module Spark.

(** The correlation of a report: its [id] and [eventId]. *)
Definition correlation (e : SparkEmitEvent) : string * option string :=
  (emit_id e, emit_eventId e).

Abbreviation Tracker := (gmap (string * option string) SparkEmitState).

(** The steps of the progression
    [queued -> working -> {done | dropped | blocked | expired}]. *)
Definition spark_next (from to : SparkEmitState) : bool :=
  match from, to with
  | Queued, Working => true
  | Working, (Done | Dropped | Blocked | Expired) => true
  | _, _ => false
  end.

Definition terminal (s : SparkEmitState) : bool :=
  match s with
  | Queued | Working => false
  | _ => true
  end.

Definition rank (s : SparkEmitState) : nat :=
  match s with
  | Queued => 0%nat
  | Working => 1%nat
  | _ => 2%nat
  end.

(** A state change a receiver observes for a correlation. *)
Record Transition : Type := {
  tr_key : string * option string;
  tr_from : option SparkEmitState;
  tr_to : SparkEmitState
}.

(** Modelled from the spec: the receiver's record of [spark:emit] reports,
    which the source file does not implement (it declares the payload
    only).  Sections 4.5 and 5: [state] is a one-way progression without
    reverse transitions, retried deliveries with the same [(id, eventId)]
    collapse, and out-of-order updates are discarded.  The first report of a
    correlation sets its state; a later report is taken only when it is the
    next step of the progression, and is dropped otherwise. *)
Definition deliver (e : SparkEmitEvent) (tr : Tracker) : Tracker * option Transition :=
  match tr !! correlation e with
  | None =>
      (<[correlation e := emit_state e]> tr,
       Some {| tr_key := correlation e; tr_from := None; tr_to := emit_state e |})
  | Some cur =>
      if spark_next cur (emit_state e) then
        (<[correlation e := emit_state e]> tr,
         Some {| tr_key := correlation e; tr_from := Some cur; tr_to := emit_state e |})
      else (tr, None)
  end.

(** A sequence of deliveries, with the state changes observed in order. *)
Fixpoint deliver_all (es : list SparkEmitEvent) (tr : Tracker) : Tracker * list Transition :=
  match es with
  | [] => (tr, [])
  | e :: rest =>
      let '(tr1, o) := deliver e tr in
      let '(tr2, log) := deliver_all rest tr1 in
      (tr2, match o with Some t => t :: log | None => log end)
  end.

(** The states a correlation went through, in order. *)
Definition history (key : string * option string) (log : list Transition) : list SparkEmitState :=
  map tr_to (List.filter (fun t => bool_decide (tr_key t = key)) log).

Definition observed (es : list SparkEmitEvent) (key : string * option string) : list SparkEmitState :=
  history key (snd (deliver_all es ∅)).

(** A sequence of states every adjacent pair of which is a step of the
    progression. *)
Fixpoint one_way (states : list SparkEmitState) : bool :=
  match states with
  | a :: ((b :: _) as rest) => spark_next a b && one_way rest
  | _ => true
  end.

(** The history of a correlation, continued from the state the tracker has
    for it. *)
Definition history_from (cur : option SparkEmitState) (h : list SparkEmitState)
  : list SparkEmitState :=
  match cur with
  | Some s => s :: h
  | None => h
  end.

Definition report (id : string) (eventId : option string) (s : SparkEmitState) : SparkEmitEvent :=
  {| emit_id := id; emit_eventId := eventId; emit_state := s; emit_note := None;
     emit_destinations := []; emit_metadata := None |}.

End Spark.

(** ** Records on the wire

    The object each record stands for.  The lemmas of [Module WireFacts]
    check every encoding against the declaration it mirrors. *)

Module Wire.

Definition optional_prop {A : Type} (name : string) (enc : A -> JValue) (o : option A)
  : list (string * JValue) :=
  match o with
  | Some a => [(name, enc a)]
  | None => []
  end.

Definition strings_json (l : list string) : JValue := JArr (map JStr l).

Definition labels_json (m : gmap string string) : JValue :=
  JObj (map (fun kv : string * string => (fst kv, JStr (snd kv))) (map_to_list m)).

Definition config_json (c : Config) : JValue := JObj (map_to_list c).

Definition plugin_json (p : PluginIdentity) : JValue :=
  JObj ([("id", JStr (plugin_id p))]
        ++ optional_prop "version" JStr (plugin_version p)
        ++ optional_prop "labels" labels_json (plugin_labels p)).

Definition identity_json (i : ModuleIdentity) : JValue :=
  JObj ([("id", JStr (identity_id i)); ("kind", JStr "plugin");
         ("plugin", plugin_json (identity_plugin i))]
        ++ optional_prop "labels" labels_json (identity_labels i)).

Definition envelope_json (e : ModuleConfigEnvelope) : JValue :=
  JObj ([("configId", JStr (configId e)); ("revision", JNum (revision e));
         ("schemaVersion", JNum (schemaVersion e))]
        ++ optional_prop "source" identity_json (source e)
        ++ optional_prop "full" config_json (full e)
        ++ optional_prop "patch" config_json (patch e)
        ++ optional_prop "baseRevision" JNum (baseRevision e)).

Definition state_name (s : SparkEmitState) : string :=
  match s with
  | Queued => "queued"
  | Working => "working"
  | Done => "done"
  | Dropped => "dropped"
  | Blocked => "blocked"
  | Expired => "expired"
  end.

Definition emit_json (e : SparkEmitEvent) : JValue :=
  JObj ([("id", JStr (emit_id e))]
        ++ optional_prop "eventId" JStr (emit_eventId e)
        ++ [("state", JStr (state_name (emit_state e)))]
        ++ optional_prop "note" JStr (emit_note e)
        ++ [("destinations", strings_json (emit_destinations e))]
        ++ optional_prop "metadata" config_json (emit_metadata e)).

Definition leaf_json (tag key : string) (names : list string) (inverted : option bool) : JValue :=
  JObj ([("type", JStr tag); (key, strings_json names)]
        ++ optional_prop "inverted" JBool inverted).

Fixpoint route_json (x : RouteTargetExpression) : JValue :=
  match x with
  | RouteAnd all => JObj [("type", JStr "and"); ("all", JArr (map route_json all))]
  | RouteOr any => JObj [("type", JStr "or"); ("any", JArr (map route_json any))]
  | RouteGlob glob inverted =>
      JObj ([("type", JStr "glob"); ("glob", JStr glob)]
            ++ optional_prop "inverted" JBool inverted)
  | RouteIds ids inverted => leaf_json "ids" "ids" ids inverted
  | RoutePlugin plugins inverted => leaf_json "plugin" "plugins" plugins inverted
  | RouteInstance instances inverted => leaf_json "instance" "instances" instances inverted
  | RouteLabel selectors inverted => leaf_json "label" "selectors" selectors inverted
  | RouteModule modules inverted => leaf_json "module" "modules" modules inverted
  | RouteSource sources inverted => leaf_json "source" "sources" sources inverted
  end.

End Wire.

(** ** Sample values *)

Module Samples.

Definition plugin : JValue := JObj [("id", JStr "telegram-bot")].

Definition identity : JValue :=
  JObj [("id", JStr "telegram-01"); ("kind", JStr "plugin"); ("plugin", plugin)].

(** The example envelope of the source comment (lines 286-292) without its
    [full] payload. *)
Definition envelope_without_payload : JValue :=
  JObj [("configId", JStr "stage-ui-live2d"); ("revision", JNum 12);
        ("schemaVersion", JNum 2)].

Definition envelope_with_both : JValue :=
  JObj [("configId", JStr "stage-ui-live2d"); ("revision", JNum 12);
        ("schemaVersion", JNum 2);
        ("full", JObj [("model", JStr "Hiyori")]);
        ("patch", JObj [("model", JStr "Hiyori")]);
        ("baseRevision", JNum 11)].

Definition envelope_patch_without_base : JValue :=
  JObj [("configId", JStr "stage-ui-live2d"); ("revision", JNum 12);
        ("schemaVersion", JNum 2);
        ("patch", JObj [("model", JStr "Hiyori")])].

Definition envelope_full : JValue :=
  JObj [("configId", JStr "stage-ui-live2d"); ("revision", JNum 12);
        ("schemaVersion", JNum 2);
        ("full", JObj [("model", JStr "Hiyori");
                       ("driver", JObj [("type", JStr "live2d")])])].

Definition failed_without_reason : JValue :=
  JObj [("identity", identity); ("phase", JStr "failed")].

Definition failed_with_reason : JValue :=
  JObj [("identity", identity); ("phase", JStr "failed");
        ("reason", JStr "driver crashed")].

Definition announce : JValue :=
  JObj [("name", JStr "telegram"); ("identity", identity);
        ("possibleEvents", JArr [JStr "input:text"; JStr "spark:emit"])].

Definition notify : JValue :=
  JObj [("id", JStr "n1"); ("eventId", JStr "ev1"); ("kind", JStr "alarm");
        ("urgency", JStr "immediate"); ("headline", JStr "Under attack by witch");
        ("destinations", JArr [JStr "character"])].

Definition emit : JValue :=
  JObj [("id", JStr "n1"); ("eventId", JStr "ev1"); ("state", JStr "working");
        ("destinations", JArr [JStr "character"; JStr "minecraft-agent"])].

Definition command : JValue :=
  JObj [("id", JStr "c1"); ("eventId", JStr "ev1"); ("commandId", JStr "cmd-1");
        ("interrupt", JStr "force"); ("priority", JStr "critical");
        ("intent", JStr "action"); ("destinations", JArr [JStr "minecraft-agent"])].

Definition context_update (destinations : JValue) : JValue :=
  JObj [("id", JStr "u1"); ("contextId", JStr "ctx1");
        ("ideas", JArr [JStr "retreat"]); ("hints", JArr [JStr "low hp"]);
        ("strategy", JStr "append-self"); ("text", JStr "witch nearby");
        ("destinations", destinations)].

Definition destination_all : JValue := JObj [("all", JBool true)].

Definition destination_list : JValue :=
  JObj [("include", JArr [JStr "character"]); ("exclude", JArr [JStr "telegram-01"])].

(** An error event whose [metadata] is an open record but not an
    [EventBaseMetadata]: its [source] is not a module identity. *)
Definition error_with_free_metadata : JValue :=
  JObj [("message", JStr "boom"); ("metadata", JObj [("source", JNum 42)])].

End Samples.


(** A type that constrains named properties only: an object type, or an
    intersection of such. *)
Fixpoint object_like (t : Ty) : bool :=
  match t with
  | TObject _ => true
  | TInter parts => forallb object_like parts
  | _ => false
  end.

(** Whether an object-like type names property [k]. *)
Fixpoint mentions (k : string) (t : Ty) : bool :=
  match t with
  | TObject fields => existsb (fun f : Field => String.eqb k (fst f)) fields
  | TInter parts => existsb (mentions k) parts
  | _ => false
  end.

Definition keep_field (name : string) (fields : list Field) : list Field :=
  List.filter (fun f => String.eqb name (fst f)) fields.

(** ** Definitions used by the statements about the catalogue *)

Module Statements.
Import Schema.

(** The two payloads that announce or request a phase. *)
Definition status_payloads : list Ty := [ModuleStatusEvent; ModuleStatusChangeEvent].

Definition spark_payloads : list Ty :=
  [SparkNotifyEvent; SparkEmitEvent; SparkCommandEvent].

(** The three shapes [ContextUpdate.destinations] accepts. *)
Definition context_destination (d : JValue) : bool :=
  is_string_array d
  || has_type ContextUpdateDestinationAll d
  || has_type ContextUpdateDestinationList d.

Definition progress_states : list string := ["queued"; "working"; "done"; "failed"].

End Statements.
(** ** The context bridge

    The store of [src/packages/stage-ui/src/components/scenes/Stage.vue],
    second document (lines 629-1061): the handlers it registers in
    [initialize].  Calls into other stores are effects, listed in the order
    the handler makes them. *)

Module Bridge.

(** *** JavaScript operators on values *)

(** [v.k]: [undefined] when the property is missing. *)
Definition get (k : string) (v : JValue) : JValue :=
  match prop k v with
  | Some x => x
  | None => JUndefined
  end.

Definition nullish (v : JValue) : bool :=
  match v with
  | JUndefined | JNull => true
  | _ => false
  end.

(** [v?.k]. *)
Definition chain (k : string) (v : JValue) : JValue :=
  if nullish v then JUndefined else get k v.

(** [v ?? d]. *)
Definition coalesce (v d : JValue) : JValue :=
  if nullish v then d else v.

(** The condition [if (v)]. *)
Definition truthy (v : JValue) : bool :=
  match v with
  | JUndefined | JNull => false
  | JBool b => b
  | JNum n => negb (n =? 0)
  | JStr s => negb (String.eqb s "")
  | JArr _ | JObj _ => true
  end.

(** The properties [{...v}] copies.  The operands below are objects or
    [undefined] by their types; [undefined] spreads nothing. *)
Definition own_props (v : JValue) : list (string * JValue) :=
  match v with
  | JObj props => props
  | _ => []
  end.

(** The string a value of type [string] holds. *)
Definition text_of (v : JValue) : string :=
  match v with
  | JStr s => s
  | _ => EmptyString
  end.

(** *** input:text (lines 706-789) *)

(** Lines 714-722, the callback of [contextUpdates?.map], on an update that
    is not [null] or [undefined] (on those [update.id] throws, see
    [map_throws]): [{...update, id, contextId}] with
    [id = update.id ?? nanoid()] and [contextId = update.contextId ?? id].
    In an object literal the later property wins; in [JObj] the first
    binding does, so the properties written last come first.  [fresh] is
    the id [nanoid()] returns. *)
Definition normalize_update (fresh : string) (update : JValue) : JValue :=
  let id := coalesce (get "id" update) (JStr fresh) in
  let contextId := coalesce (get "contextId" update) id in
  JObj (("id", id) :: ("contextId", contextId) :: own_props update).

Fixpoint normalize_from (nanoid : nat -> string) (i : nat) (updates : list JValue)
  : list JValue :=
  match updates with
  | [] => []
  | update :: rest => normalize_update (nanoid i) update :: normalize_from nanoid (S i) rest
  end.

(** [contextUpdates?.map(...)] where it does not throw (see [map_throws]):
    [nanoid i] is the id drawn for the update at index [i]. *)
Definition normalizedContextUpdates (nanoid : nat -> string) (contextUpdates : JValue)
  : JValue :=
  match contextUpdates with
  | JArr updates => JArr (normalize_from nanoid 0 updates)
  | _ => JUndefined
  end.

(** Lines 727-731 and 697-701:
    [{...update, metadata: event.metadata, createdAt}]. *)
Definition context_message (metadata : JValue) (createdAt : Z) (update : JValue) : JValue :=
  JObj (("metadata", metadata) :: ("createdAt", JNum createdAt) :: own_props update).

(** Lines 738-743; [text] and [messagePrefix] are strings by the type of
    the event. *)
Definition messageText (text overrides : JValue) : string :=
  if truthy (chain "messagePrefix" overrides)
  then (text_of (chain "messagePrefix" overrides) ++ text_of text)%string
  else text_of text.

Inductive Effect : Type :=
| IngestContextMessage (message : JValue)
| BroadcastContext (message : JValue)
| Ingest (text : string) (model chatProvider input targetSessionId : JValue)
| Send (event : JValue).

(** The input handed to [chatOrchestrator.ingest] (lines 772-781). *)
Definition ingest_input (data normalized : JValue) : JValue :=
  JObj [("type", JStr "input:text");
        ("data", JObj (("text", get "text" data)
                       :: ("textRaw", get "textRaw" data)
                       :: ("overrides", get "overrides" data)
                       :: ("contextUpdates", normalized)
                       :: own_props data))].

Definition items (v : JValue) : list JValue :=
  match v with
  | JArr l => l
  | _ => []
  end.

(** Whether [contextUpdates?.map(...)] (lines 714-722) throws a TypeError:
    a value that is not [null] or [undefined] and not an array has no
    [map], and the callback reads [update.id] of an update that may be
    [null] or [undefined]. *)
Definition map_throws (contextUpdates : JValue) : bool :=
  match contextUpdates with
  | JUndefined | JNull => false
  | JArr updates => existsb nullish updates
  | _ => true
  end.

(** How a run of a handler ends, with the calls it made until then. *)
Inductive Outcome : Type :=
| Returns (effects : list Effect)
| Throws (effects : list Effect).

Definition effects_of (outcome : Outcome) : list Effect :=
  match outcome with
  | Returns effects | Throws effects => effects
  end.

Definition returns (outcome : Outcome) : bool :=
  match outcome with
  | Returns _ => true
  | Throws _ => false
  end.

Definition resolved (chatProvider : option JValue) : bool :=
  match chatProvider with
  | Some _ => true
  | None => false
  end.

(** The handler of [input:text] (lines 706-789).  [event] is the received
    event, with its [data] and [metadata]; [now] is [Date.now()];
    [activeProvider] and [activeModel] are the values of the two refs;
    [chatProvider] is what [getProviderInstance] resolves to, [None] when it
    rejects; [locks] tells whether [navigator.locks] exists, in which case
    the callback given to it runs once the lock is granted.

    The handler throws before any call when [event.data] is [null] or
    [undefined] (line 712) or the map of lines 714-722 throws, and after the
    context messages when [getProviderInstance] rejects or [navigator.locks]
    is missing.  An error of [chatOrchestrator.ingest] is caught (lines
    784-786). *)
Definition on_input_text (nanoid : nat -> string) (now : Z)
    (activeProvider activeModel : JValue) (chatProvider : option JValue) (locks : bool)
    (event : JValue) : Outcome :=
  let data := get "data" event in
  if nullish data || map_throws (get "contextUpdates" data) then Throws []
  else
    let normalized := normalizedContextUpdates nanoid (get "contextUpdates" data) in
    let messages :=
      map (fun update =>
             IngestContextMessage (context_message (get "metadata" event) now update))
          (items normalized) in
    if truthy activeProvider && truthy activeModel
    then match chatProvider with
         | None => Throws messages
         | Some provider =>
             if locks
             then Returns
                    (messages
                     ++ [Ingest (messageText (get "text" data) (get "overrides" data))
                                activeModel provider (ingest_input data normalized)
                                (chain "sessionId" (get "overrides" data))])%list
             else Throws messages
         end
    else Returns messages.


Definition ingested (effects : list Effect) : list JValue :=
  flat_map (fun e => match e with IngestContextMessage m => [m] | _ => [] end) effects.

Definition forwarded (effects : list Effect) : list JValue :=
  flat_map (fun e => match e with Ingest _ _ _ input _ => [input] | _ => [] end) effects.

(** *** Outgoing chat events (lines 919-962) *)

Definition gen_ai_chat (context : JValue) : JValue :=
  JObj [("message", get "message" context);
        ("composedMessage", get "composedMessage" context);
        ("contexts", get "contexts" context);
        ("input", get "input" context)].

(** [onAssistantMessage]: the [output:gen-ai:chat:message] event. *)
Definition assistant_message_event (stageWeb stageTamagotchi : bool)
    (message context : JValue) : JValue :=
  JObj [("type", JStr "output:gen-ai:chat:message");
        ("data", JObj (("message", message)
                       :: ("stage-web", JBool stageWeb)
                       :: ("stage-tamagotchi", JBool stageTamagotchi)
                       :: ("gen-ai:chat", gen_ai_chat context)
                       :: own_props (chain "data" (get "input" context))))].

(** [onChatTurnComplete]: the [output:gen-ai:chat:complete] event. *)
Definition chat_turn_complete_event (stageWeb stageTamagotchi : bool)
    (chat context : JValue) : JValue :=
  JObj [("type", JStr "output:gen-ai:chat:complete");
        ("data", JObj (("message", get "output" chat)
                       :: ("toolCalls", JArr [])
                       :: ("stage-web", JBool stageWeb)
                       :: ("stage-tamagotchi", JBool stageTamagotchi)
                       :: ("usage", JObj [("promptTokens", JNum 0);
                                          ("completionTokens", JNum 0);
                                          ("totalTokens", JNum 0);
                                          ("source", JStr "estimate-based")])
                       :: ("gen-ai:chat", gen_ai_chat context)
                       :: own_props (chain "data" (get "input" context))))].

End Bridge.

(** ** Remote chat streams (lines 965-1034) *)

Module RemoteStream.

(** The events of the stream channel, as the hooks of lines 869-917 build
    them: [type], the payload of the hook, the sender's [sessionId] and the
    [context]. *)
Inductive ChatStreamEvent : Type :=
| BeforeCompose (sessionId : string) (message context : JValue)
| AfterCompose (sessionId : string) (message context : JValue)
| BeforeSend (sessionId : string) (message context : JValue)
| AfterSend (sessionId : string) (message context : JValue)
| TokenLiteral (sessionId : string) (literal : string) (context : JValue)
| TokenSpecial (sessionId : string) (special : string) (context : JValue)
| StreamEnd (sessionId : string) (context : JValue)
| AssistantEnd (sessionId : string) (message context : JValue).

(** What the handler reads of the session store when it runs. *)
Record ChatSession : Type := {
  activeSessionId : string;
  getSessionGenerationValue : option string -> Z
}.

(** [remoteStreamGuard] when it is not [null]. *)
Record Guard : Type := {
  guard_sessionId : string;
  generation : Z
}.

Inductive StreamEffect : Type :=
| EmitHooks (event : ChatStreamEvent)
| SetSending (sending : bool)
| BeginStream
| AppendStreamLiteral (literal : string)
| FinalizeStream (message : option JValue).

(** The three tests of the [token-literal], [stream-end] and
    [assistant-end] cases. *)
Definition guard_current (session : ChatSession) (guard : option Guard) : bool :=
  match guard with
  | None => false
  | Some g =>
      String.eqb (guard_sessionId g) (activeSessionId session)
      && (getSessionGenerationValue session (Some (guard_sessionId g)) =? generation g)
  end.

(** One run of the watcher of [incomingStreamEvent] on an event, from the
    guard it finds to the guard it leaves, with its effects in order.
    [isProcessingRemoteStream] is set for the length of the run and cleared
    at its end on every path; the hooks it silences are
    [broadcast_hook]. *)
Definition on_stream_event (session : ChatSession) (event : ChatStreamEvent)
    (remoteStreamGuard : option Guard) : option Guard * list StreamEffect :=
  match event with
  | BeforeCompose _ _ _ | AfterCompose _ _ _ | AfterSend _ _ _ | TokenSpecial _ _ _ =>
      (remoteStreamGuard, [EmitHooks event])
  | BeforeSend _ _ _ =>
      (Some {| guard_sessionId := activeSessionId session;
               generation := getSessionGenerationValue session None |},
       [EmitHooks event; SetSending true; BeginStream])
  | TokenLiteral _ literal _ =>
      if guard_current session remoteStreamGuard
      then (remoteStreamGuard, [AppendStreamLiteral literal; EmitHooks event])
      else (remoteStreamGuard, [])
  | StreamEnd _ _ =>
      if guard_current session remoteStreamGuard
      then (None, [EmitHooks event; FinalizeStream None; SetSending false])
      else (remoteStreamGuard, [])
  | AssistantEnd _ message _ =>
      if guard_current session remoteStreamGuard
      then (None, [EmitHooks event; FinalizeStream (Some message); SetSending false])
      else (remoteStreamGuard, [])
  end.

(** The runs of the watcher on a sequence of events, each with the session
    store as it is when the event is handled. *)
Fixpoint on_stream_events (events : list (ChatSession * ChatStreamEvent))
    (remoteStreamGuard : option Guard) : option Guard * list StreamEffect :=
  match events with
  | [] => (remoteStreamGuard, [])
  | (session, event) :: rest =>
      let '(guard1, effects1) := on_stream_event session event remoteStreamGuard in
      let '(guard2, effects2) := on_stream_events rest guard1 in
      (guard2, (effects1 ++ effects2)%list)
  end.

(** A hook of lines 870-917: it broadcasts the event unless a remote event
    is being processed. *)
Definition broadcast_hook (isProcessingRemoteStream : bool) (event : ChatStreamEvent)
  : list ChatStreamEvent :=
  if isProcessingRemoteStream then [] else [event].

Definition guarded (remoteStreamGuard : option Guard) : bool :=
  match remoteStreamGuard with
  | Some _ => true
  | None => false
  end.

Definition is_before_send (event : ChatStreamEvent) : bool :=
  match event with
  | BeforeSend _ _ _ => true
  | _ => false
  end.

Definition is_hook (effect : StreamEffect) : bool :=
  match effect with
  | EmitHooks _ => true
  | _ => false
  end.

(** What a chat stream allows: literals and a finalization only after a
    begin that has not been finalized. *)
Fixpoint stream_open_after (open : bool) (effects : list StreamEffect) : option bool :=
  match effects with
  | [] => Some open
  | BeginStream :: rest => stream_open_after true rest
  | AppendStreamLiteral _ :: rest =>
      if open then stream_open_after open rest else None
  | FinalizeStream _ :: rest =>
      if open then stream_open_after false rest else None
  | _ :: rest => stream_open_after open rest
  end.

(** The literals a window that stays on one session shows for a sequence of
    events: those that arrive after a [before-send] and before the first
    end that follows it. *)
Fixpoint shown_literals (open : bool) (events : list ChatStreamEvent) : list string :=
  match events with
  | [] => []
  | BeforeSend _ _ _ :: rest => shown_literals true rest
  | TokenLiteral _ literal _ :: rest =>
      if open then literal :: shown_literals open rest else shown_literals open rest
  | StreamEnd _ _ :: rest | AssistantEnd _ _ _ :: rest => shown_literals false rest
  | _ :: rest => shown_literals open rest
  end.

(** The finalizations of such a window: the first end after each
    [before-send], with the message of an [assistant-end]. *)
Fixpoint shown_finalizations (open : bool) (events : list ChatStreamEvent)
  : list (option JValue) :=
  match events with
  | [] => []
  | BeforeSend _ _ _ :: rest => shown_finalizations true rest
  | StreamEnd _ _ :: rest =>
      if open then None :: shown_finalizations false rest
      else shown_finalizations false rest
  | AssistantEnd _ message _ :: rest =>
      if open then Some message :: shown_finalizations false rest
      else shown_finalizations false rest
  | _ :: rest => shown_finalizations open rest
  end.

Definition begins (effects : list StreamEffect) : nat :=
  length (List.filter (fun e => match e with BeginStream => true | _ => false end) effects).

Definition appended (effects : list StreamEffect) : list string :=
  flat_map (fun e => match e with AppendStreamLiteral l => [l] | _ => [] end) effects.

Definition finalizations (effects : list StreamEffect) : list (option JValue) :=
  flat_map (fun e => match e with FinalizeStream m => [m] | _ => [] end) effects.

(** A window on session [s1], a window on session [s2], and a stream with
    a literal after its end. *)
Definition sample_session : ChatSession :=
  {| activeSessionId := "s1"; getSessionGenerationValue := fun _ => 0 |}.

Definition other_session : ChatSession :=
  {| activeSessionId := "s2"; getSessionGenerationValue := fun _ => 0 |}.

Definition sample_stream : list ChatStreamEvent :=
  [BeforeSend "s1" JNull JNull; TokenLiteral "s1" "a" JNull; StreamEnd "s1" JNull;
   TokenLiteral "s1" "b" JNull; AssistantEnd "s1" (JStr "a") JNull].

End RemoteStream.

(** ** The stage component

    [src/packages/stage-ui/src/components/scenes/Stage.vue], first document
    (lines 1-628). *)

Module Stage.

Inductive Effect : Type :=
(* playback and lip sync *)
| StopAll (reason : string)
| SetupAnalyser
| SetupLipSync
| SetNowSpeaking (speaking : bool)
| ResetMouthOpenSize
| PlaySpecialToken (special : string)
(* the caption and presentation channels *)
| PostCaption (text : string)
| PostPresentReset
| PostPresentAppend (text : string)
(* speech intents *)
| CancelIntent (intent : nat) (reason : string)
| OpenIntent (intent : nat) (ownerId : string)
| WriteLiteral (intent : nat) (literal : string)
| WriteSpecial (intent : nat) (special : string)
| WriteFlush (intent : nat)
| EndIntent (intent : nat)
(* the model *)
| SetThinkMotion
| EnqueueInferenceEnd
| SetExpression (name : string) (tenths : Z)
| ClearInterval.

(** *** The lip sync animation of [airi:lipsync] (lines 517-549) *)

Definition interval : Z := 150.

(** [event.detail.duration || 2000]. *)
Definition lipsync_duration (duration : Z) : Z :=
  if duration =? 0 then 2000 else duration.

(** One run of the callback given to [setInterval]: the new [elapsed], what
    it does, and whether it cleared the interval.  Weights are in tenths
    ([0.6] is [6]). *)
Definition animateMouth (duration elapsed : Z) : Z * list Effect * bool :=
  let elapsed := elapsed + interval in
  let frame :=
    if (elapsed / interval) mod 2 =? 0
    then SetExpression "surprised" 6
    else SetExpression "neutral" 3 in
  if duration <=? elapsed
  then (elapsed, [frame; ClearInterval; SetExpression "neutral" 10], true)
  else (elapsed, [frame], false).

(** The runs of the callback until it clears the interval; [None] when
    [fuel] runs have not sufficed. *)
Fixpoint run_interval (fuel : nat) (duration elapsed : Z) : option (list Effect) :=
  match fuel with
  | O => None
  | S fuel' =>
      let '(elapsed', effects, cleared) := animateMouth duration elapsed in
      if cleared then Some effects
      else match run_interval fuel' duration elapsed' with
           | Some rest => Some (effects ++ rest)%list
           | None => None
           end
  end.

(** [handleLipSyncEvent]: the animation runs only with a viewer and the
    [vrm] renderer. *)
Definition handleLipSyncEvent (fuel : nat) (hasViewer : bool) (stageModelRenderer : string)
    (duration : Z) : option (list Effect) :=
  if hasViewer && String.eqb stageModelRenderer "vrm"
  then run_interval fuel (lipsync_duration duration) 0
  else Some [].

(** The frame the callback shows on its [k]-th run. *)
Definition frame (k : Z) : Effect :=
  if k mod 2 =? 0 then SetExpression "surprised" 6 else SetExpression "neutral" 3.

(** The frames of runs [k+1], ..., [k+n], then the end of the animation. *)
Fixpoint animation (n : nat) (k : Z) : list Effect :=
  match n with
  | O => [ClearInterval; SetExpression "neutral" 10]
  | S n' => frame (k + 1) :: animation n' (k + 1)
  end.

(** The number of runs of the callback for a duration. *)
Definition frames (duration : Z) : Z :=
  Z.max 1 ((lipsync_duration duration + interval - 1) / interval).

(** *** Chat hooks and playback (lines 333-359 and 402-465) *)

(** The state of the component the hooks share: the caption, the open
    intent, and how many intents were opened ([openIntent] returns a new
    intent each time; the count names it). *)
Record State : Type := {
  assistantCaption : string;
  currentChatIntent : option nat;
  opened : nat
}.

Definition initial : State :=
  {| assistantCaption := ""; currentChatIntent := None; opened := 0 |}.

Inductive Hook : Type :=
| BeforeMessageComposed (activeCardId : string)
| BeforeSend
| TokenLiteral (literal : string)
| TokenSpecial (special : string)
| StreamEnd
| AssistantResponseEnd
| PlaybackStart (text : string)
| PlaybackEnd (special : string).

Definition with_intent (st : State) (f : nat -> Effect) : list Effect :=
  match currentChatIntent st with
  | Some intent => [f intent]
  | None => []
  end.

(** One hook call.  [PlaybackEnd special]: [item.special], the empty string
    when the item has none. *)
Definition on_hook (h : Hook) (st : State) : State * list Effect :=
  match h with
  | BeforeMessageComposed activeCardId =>
      ({| assistantCaption := "";
          currentChatIntent := Some (opened st);
          opened := S (opened st) |},
       [StopAll "new-message"; SetupAnalyser; SetupLipSync;
        PostCaption ""; PostPresentReset]
       ++ with_intent st (fun intent => CancelIntent intent "new-message")
       ++ [OpenIntent (opened st) activeCardId])%list
  | BeforeSend => (st, [SetThinkMotion])
  | TokenLiteral literal => (st, with_intent st (fun intent => WriteLiteral intent literal))
  | TokenSpecial special => (st, with_intent st (fun intent => WriteSpecial intent special))
  | StreamEnd => (st, EnqueueInferenceEnd :: with_intent st WriteFlush)
  | AssistantResponseEnd =>
      ({| assistantCaption := assistantCaption st;
          currentChatIntent := None;
          opened := opened st |},
       with_intent st EndIntent)
  | PlaybackStart text =>
      let caption := (assistantCaption st ++ " " ++ text)%string in
      ({| assistantCaption := caption;
          currentChatIntent := currentChatIntent st;
          opened := opened st |},
       [SetNowSpeaking true; PostCaption caption; PostPresentAppend text])
  | PlaybackEnd special =>
      (st, (if String.eqb special "" then [] else [PlaySpecialToken special])
           ++ [SetNowSpeaking false; ResetMouthOpenSize])%list
  end.

Fixpoint on_hooks (hs : list Hook) (st : State) : State * list Effect :=
  match hs with
  | [] => (st, [])
  | h :: rest =>
      let '(st1, effects1) := on_hook h st in
      let '(st2, effects2) := on_hooks rest st1 in
      (st2, (effects1 ++ effects2)%list)
  end.

(** What a listener of the presentation channel rebuilds from the events it
    receives, joining appended texts as the caption does. *)
Fixpoint presented (acc : string) (effects : list Effect) : string :=
  match effects with
  | [] => acc
  | PostPresentReset :: rest => presented "" rest
  | PostPresentAppend text :: rest => presented (acc ++ " " ++ text)%string rest
  | _ :: rest => presented acc rest
  end.

(** The caption a listener of the caption channel shows: the last one
    posted. *)
Fixpoint captioned (acc : string) (effects : list Effect) : string :=
  match effects with
  | [] => acc
  | PostCaption text :: rest => captioned text rest
  | _ :: rest => captioned acc rest
  end.

(** The intent that is open after a sequence of effects, when every write,
    end and cancel in it goes to the intent open at that point and no
    intent is opened while another is open; [None] otherwise. *)
Fixpoint intent_after (open : option nat) (effects : list Effect) : option (option nat) :=
  match effects with
  | [] => Some open
  | OpenIntent intent _ :: rest =>
      match open with
      | None => intent_after (Some intent) rest
      | Some _ => None
      end
  | CancelIntent intent _ :: rest | EndIntent intent :: rest =>
      if bool_decide (open = Some intent) then intent_after None rest else None
  | WriteLiteral intent _ :: rest | WriteSpecial intent _ :: rest | WriteFlush intent :: rest =>
      if bool_decide (open = Some intent) then intent_after open rest else None
  | _ :: rest => intent_after open rest
  end.

Definition is_before_message_composed (h : Hook) : bool :=
  match h with
  | BeforeMessageComposed _ => true
  | _ => false
  end.

Definition opened_intents (effects : list Effect) : list nat :=
  flat_map (fun e => match e with OpenIntent intent _ => [intent] | _ => [] end) effects.

Definition writes (effects : list Effect) : list Effect :=
  List.filter (fun e => match e with
                        | WriteLiteral _ _ | WriteSpecial _ _ | WriteFlush _ => true
                        | _ => false
                        end) effects.

End Stage.

(** ** The speech request of the stage (first document, lines 238-324) *)

Module Tts.
Import Bridge.

(** [v === s] for a string literal [s]. *)
Definition is_string (s : string) (v : JValue) : bool :=
  match v with
  | JStr s' => String.eqb s' s
  | _ => false
  end.

(** [a || b]. *)
Definition or_else (a b : JValue) : JValue := if truthy a then a else b.

(** The voice built for the OpenAI compatible provider (lines 272-280 and
    284-292). *)
Definition compatible_voice (id provider : JValue) : JValue :=
  JObj [("id", id); ("name", id); ("description", id); ("previewURL", JStr "");
        ("languages", JArr [JObj [("code", JStr "en"); ("title", JStr "English")]]);
        ("provider", provider); ("gender", JStr "neutral")].

(** Lines 258-298: the model and the voice of the request, [None] where
    the function returns [null] for want of one. *)
Definition resolve (activeSpeechProvider activeSpeechModel activeSpeechVoice
    providerConfig : JValue) : option (JValue * JValue) :=
  let '(model, voice) :=
    if is_string "openai-compatible-audio-speech" activeSpeechProvider
    then (or_else (chain "model" providerConfig) (JStr "tts-1"),
          compatible_voice (or_else (chain "voice" providerConfig) (JStr "alloy"))
            activeSpeechProvider)
    else (activeSpeechModel, activeSpeechVoice) in
  if negb (truthy model) || negb (truthy voice) then None else Some (model, voice).

End Tts.

(** ** speak:text (second document, lines 792-867) *)

Module SpeakText.
Import Bridge.

(** What the handler meets outside the store. *)
Record World : Type := {
  hasWindow : bool;                 (* [typeof window !== 'undefined'] *)
  configured : bool;                (* [speechStore.configured] *)
  speechProvider : option JValue;   (* what [getProviderInstance] resolves to;
                                       [None] when it rejects *)
  speech_resolves : bool;           (* [speechStore.speech] and the audio element succeed *)
  audio_event_fires : bool          (* the audio element fires [ended] or [error] *)
}.

Record Settings : Type := {
  activeSpeechVoiceId : JValue;
  activeSpeechModel : JValue;
  rate : JValue;
  pitch : JValue
}.

Inductive Effect : Type :=
| SetNowSpeaking (speaking : bool)
| Alert
| Speech (provider model text voice speed pitch : JValue)
| Play
| RevokeObjectURL.

(** What follows the reading of [speechStore.configured] (lines 807-866):
    the timer of the branch without speech after 2000 ms, or the speech and
    the audio element's [onended] or [onerror] once one fires.  Whatever is
    thrown there is caught (lines 864-866). *)
Definition speak (w : World) (s : Settings) (data : JValue) : list Effect :=
  if negb (configured w) then [SetNowSpeaking false]
  else match speechProvider w with
       | None => []
       | Some provider =>
           if negb (truthy provider) then []
           else Speech provider (activeSpeechModel s) (get "text" data)
                  (Tts.or_else (get "voiceId" data) (activeSpeechVoiceId s))
                  (Tts.or_else (get "speed" data) (rate s)) (pitch s)
                :: (if negb (speech_resolves w) then []
                    else SetNowSpeaking true :: Play
                         :: (if audio_event_fires w
                             then [SetNowSpeaking false; RevokeObjectURL] else []))
       end.

(** The handler and the callbacks it leaves behind, in the order they run.
    [None]: the handler throws before any of them, at the destructuring of
    a [data] that is [null] or [undefined] (line 793) or at
    [text.substring(0, 50)] (line 795) of a [text] that is not a string. *)
Definition on_speak_text (w : World) (s : Settings) (event : JValue)
  : option (list Effect) :=
  let data := get "data" event in
  match get "text" data with
  | JStr _ =>
      Some ((SetNowSpeaking true :: (if hasWindow w then [Alert] else []))
            ++ speak w s data)%list
  | _ => None
  end.

(** [nowSpeaking] after a sequence of effects. *)
Fixpoint nowSpeaking (before : bool) (effects : list Effect) : bool :=
  match effects with
  | [] => before
  | SetNowSpeaking speaking :: rest => nowSpeaking speaking rest
  | _ :: rest => nowSpeaking before rest
  end.

Definition speeches (effects : list Effect) : list Effect :=
  List.filter (fun e => match e with Speech _ _ _ _ _ _ => true | _ => false end) effects.

End SpeakText.

(** ** Definitions used by the further statements about the declarations *)

Module ExtraStatements.

(** [ContextUpdate<Record<string, unknown>, string | CommonContentPart[]>],
    the instance [InputContextUpdate] is built from (lines 437-439). *)
Definition FullContextUpdate : Ty :=
  Schema.ContextUpdate (TRecord TUnknown) Schema.TextOrParts.

(** A type all of whose values are objects. *)
Fixpoint requires_object (t : Ty) : bool :=
  match t with
  | TObject _ => true
  | TInter parts => existsb requires_object parts
  | _ => false
  end.

End ExtraStatements.

(** * Facts about assignability *)

Ltac field_cases :=
  simpl; unfold req, opt; intros;
  repeat match goal with
         | H : _ \/ _ |- _ => destruct H
         | H : False |- _ => destruct H
         | H : (_, _) = (_, _) |- _ => inversion H; clear H; subst
         end; try done.

Lemma get_prop_without (k k' : string) (ps : list (string * JValue)) :
  get_prop k' (List.filter (fun p => negb (String.eqb k (fst p))) ps)
  = if String.eqb k k' then None else get_prop k' ps.
Proof.
  induction ps as [|[n x] ps IH]; simpl.
  - by destruct (String.eqb k k').
  - destruct (String.eqb k n) eqn:Hkn; simpl.
    + apply String.eqb_eq in Hkn; subst n. rewrite IH.
      destruct (String.eqb k k') eqn:Hkk; [done|].
      rewrite String.eqb_sym, Hkk. done.
    + rewrite IH. destruct (String.eqb k' n) eqn:Hk'n; [|done].
      apply String.eqb_eq in Hk'n; subst n. by rewrite Hkn.
Qed.

Lemma has_type_object_inv (fs : list Field) (v : JValue) :
  has_type (TObject fs) v = true -> exists ps, v = JObj ps.
Proof. destruct v; simpl; try discriminate. eauto. Qed.

Lemma has_type_field (fs : list Field) (ps : list (string * JValue))
    (n : string) (o : bool) (t : Ty) :
  has_type (TObject fs) (JObj ps) = true ->
  In (n, (o, t)) fs ->
  field_ok (has_type t) o (get_prop n ps) = true.
Proof.
  simpl. intros H Hin. rewrite forallb_forall in H. exact (H _ Hin).
Qed.

Lemma field_in_In (fs : list Field) (n : string) (d : bool * Ty) :
  field_in fs n = Some d -> In (n, d) fs.
Proof.
  induction fs as [|[m d'] fs IH]; simpl; [discriminate|].
  destruct (String.eqb n m) eqn:E.
  - apply String.eqb_eq in E. intros [= ->]. subst. by left.
  - intros H. right. by apply IH.
Qed.

Lemma has_type_required (fs : list Field) (v : JValue) (n : string) (t : Ty) :
  has_type (TObject fs) v = true ->
  field_in fs n = Some (false, t) ->
  exists x, prop n v = Some x /\ has_type t x = true.
Proof.
  intros H Hf. destruct (has_type_object_inv _ _ H) as [ps ->].
  apply field_in_In in Hf.
  pose proof (has_type_field _ _ _ _ _ H Hf) as Hok.
  unfold field_ok in Hok. simpl. destruct (get_prop n ps) as [x|]; [|discriminate].
  exists x. split; [done|]. simpl in Hok. by rewrite orb_false_r in Hok.
Qed.

Lemma has_type_optional (fs : list Field) (v : JValue) (n : string) (t : Ty) :
  has_type (TObject fs) v = true ->
  field_in fs n = Some (true, t) ->
  absent (prop n v) = true \/ exists x, prop n v = Some x /\ has_type t x = true.
Proof.
  intros H Hf. destruct (has_type_object_inv _ _ H) as [ps ->].
  apply field_in_In in Hf.
  pose proof (has_type_field _ _ _ _ _ H Hf) as Hok.
  unfold field_ok in Hok. simpl. destruct (get_prop n ps) as [x|]; [|by left].
  simpl in Hok. apply orb_true_iff in Hok as [Hok|Hok]; [right; eauto|by left].
Qed.

Lemma has_type_one_of (names : list string) (x : JValue) :
  has_type (Schema.OneOf names) x = true <-> exists s, x = JStr s /\ In s names.
Proof.
  unfold Schema.OneOf. simpl. rewrite existsb_exists. split.
  - intros [t [Hin Ht]]. apply in_map_iff in Hin as [s [<- Hs]].
    simpl in Ht. destruct x; try discriminate.
    apply String.eqb_eq in Ht. subst. eauto.
  - intros [s [-> Hs]]. exists (TLit s). split; [by apply in_map|].
    simpl. apply String.eqb_refl.
Qed.

Lemma is_string_inv (x : JValue) : is_string x = true -> exists s, x = JStr s.
Proof. destruct x; simpl; try discriminate. eauto. Qed.

Lemma has_type_string_array (x : JValue) :
  has_type (TArray TString) x = true ->
  exists items, x = JArr items /\ Forall (fun d => exists s, d = JStr s) items.
Proof.
  destruct x; simpl; try discriminate. intros H. exists items. split; [done|].
  rewrite forallb_forall in H. apply Forall_forall.
  intros d Hd. apply is_string_inv. apply H. by apply list_elem_of_In.
Qed.

Lemma has_type_without (fs : list Field) (v : JValue) (k : string) :
  (forall o t, In (k, (o, t)) fs -> o = true) ->
  has_type (TObject fs) v = true ->
  has_type (TObject fs) (without k v) = true.
Proof.
  intros Hopt H. destruct (has_type_object_inv _ _ H) as [ps ->].
  simpl in *. rewrite forallb_forall in *. intros [n [o t]] Hin.
  specialize (H _ Hin). simpl in H. rewrite get_prop_without.
  destruct (String.eqb k n) eqn:E; [|done].
  apply String.eqb_eq in E; subst n. by rewrite (Hopt _ _ Hin).
Qed.

(** The children of a combinator are the array bound to [all] or [any]. *)
Lemma is_route_expr_children (tag key : string) (ps : list (string * JValue)) :
  (tag, key) = ("and", "all") \/ (tag, key) = ("or", "any") ->
  get_prop "type" ps = Some (JStr tag) ->
  is_route_expr (JObj ps)
  = match get_prop key ps with
    | Some (JArr items) => forallb is_route_expr items
    | _ => false
    end.
Proof.
  intros Htag.
  assert (forall k,
             (fix find (qs : list (string * JValue)) : bool :=
                match qs with
                | [] => false
                | (k', x) :: rest =>
                    if String.eqb k k'
                    then match x with
                         | JArr items => forallb is_route_expr items
                         | _ => false
                         end
                    else find rest
                end) ps
             = match get_prop k ps with
               | Some (JArr items) => forallb is_route_expr items
               | _ => false
               end) as Hfind.
  { intros k. induction ps as [|[k' x] ps IH]; [done|].
    simpl. by destruct (String.eqb k k'). }
  intros Htype.
  destruct Htag as [[= -> ->]|[= -> ->]];
    rewrite <- Hfind; simpl; rewrite Htype; reflexivity.
Qed.

(** * What the declared types admit *)

Module SchemaFacts.
Import Schema Statements.

(** The catalogue has exactly the keys [keyof ProtocolEvents] stands for. *)
Lemma protocol_event_names (C : Ty) :
  map fst (ProtocolEvents C) = ProtocolEventNames.
Proof. reflexivity. Qed.

(** Every event defined with [defineEventa] is in the catalogue under the
    same name and with the same payload. *)
Lemma defined_events_in_catalogue :
  Forall (fun d => payload_of TUndefined (fst d) = Some (snd d)) definedEvents
  /\ Forall (fun n => In n (map fst definedEvents)) ProtocolEventNames.
Proof.
  split.
  - repeat constructor.
  - unfold ProtocolEventNames. repeat (constructor; [simpl; tauto|]). constructor.
Qed.

(** ** The envelope invariant *)

(** C4, the claim as stated, fails: a value of the declared type
    [ModuleConfigEnvelope] with neither [full] nor [patch]. *)
Lemma envelope_invariant_not_enforced :
  ~ (forall v : JValue,
       has_type (ModuleConfigEnvelope (TRecord TUnknown)) v = true ->
       envelope_invariant v = true).
Proof.
  intros H. specialize (H Samples.envelope_without_payload eq_refl). discriminate H.
Qed.

Lemma envelope_optional_fields (C : Ty) (k : string) (o : bool) (t : Ty) :
  In k ["full"; "patch"; "baseRevision"] ->
  In (k, (o, t)) (fields_of (ModuleConfigEnvelope C)) -> o = true.
Proof.
  field_cases.
Qed.

(** C4, amended: [full], [patch] and [baseRevision] are independently
    optional fields of [ModuleConfigEnvelope].  Dropping any of them from an
    envelope of the declared type leaves an envelope of the declared type,
    and a [baseRevision] that is set is a number.  The invariant "exactly
    one of [full]/[patch], and [baseRevision] with every [patch]" is
    therefore a condition that separates envelopes of the type -- it holds
    for the source's own example and fails with both payloads, with neither,
    and with a patch that has no [baseRevision] -- not a property of every
    envelope. *)
Theorem envelope_payload_fields_optional (C : Ty) (v : JValue) (k : string) :
  has_type (ModuleConfigEnvelope C) v = true ->
  In k ["full"; "patch"; "baseRevision"] ->
  has_type (ModuleConfigEnvelope C) (without k v) = true
  /\ present k (without k v) = false
  /\ (present "baseRevision" v = true -> exists n, prop "baseRevision" v = Some (JNum n))
  /\ (let E := ModuleConfigEnvelope (TRecord TUnknown) in
      (has_type E Samples.envelope_full = true
       /\ envelope_invariant Samples.envelope_full = true)
      /\ (has_type E Samples.envelope_with_both = true
          /\ envelope_invariant Samples.envelope_with_both = false)
      /\ (has_type E Samples.envelope_without_payload = true
          /\ envelope_invariant Samples.envelope_without_payload = false)
      /\ (has_type E Samples.envelope_patch_without_base = true
          /\ envelope_invariant Samples.envelope_patch_without_base = false)).
Proof.
  intros H Hk. split; [|split; [|split]].
  - apply has_type_without; [|done].
    intros o t. by apply envelope_optional_fields.
  - destruct (has_type_object_inv _ _ H) as [ps ->].
    unfold present, without, prop. rewrite get_prop_without, String.eqb_refl. done.
  - intros Hp.
    destruct (has_type_optional _ _ "baseRevision" TNumber H eq_refl) as [Ha|[x [Hx Ht]]].
    + unfold present in Hp. by rewrite Ha in Hp.
    + destruct x; try discriminate. eauto.
  - repeat split.
Qed.

Lemma envelope_payload_fields_optional_witness :
  has_type (ModuleConfigEnvelope (TRecord TUnknown))
    (without "full" Samples.envelope_full) = true.
Proof.
  apply (envelope_payload_fields_optional (TRecord TUnknown) Samples.envelope_full "full").
  - reflexivity.
  - simpl. tauto.
Defined.

(** ** The reason of a failed phase *)

(** C6, the claim as stated, fails: a [module:status] event of the declared
    type that announces [failed] and has no [reason]. *)
Lemma failed_status_without_reason :
  ~ (forall (T : Ty) (v : JValue),
       In T status_payloads ->
       has_type T v = true ->
       prop "phase" v = Some (JStr "failed") ->
       present "reason" v = true).
Proof.
  intros H.
  specialize (H ModuleStatusEvent Samples.failed_without_reason
                (or_introl eq_refl) eq_refl eq_refl).
  discriminate H.
Qed.

Lemma prop_without_other (k n : string) (v : JValue) :
  String.eqb k n = false -> prop n (without k v) = prop n v.
Proof.
  intros E. destruct v; try done. simpl. by rewrite get_prop_without, E.
Qed.

(** C6, amended: in [module:status] and [module:status:change] the field
    [reason] is optional for every phase, [failed] included.  An event of
    either declared type names one of the seven phases; its [reason], when
    set, is a string; and the same event without [reason] is still of the
    declared type and names the same phase. *)
Theorem status_reason_optional (T : Ty) (v : JValue) :
  In T status_payloads ->
  has_type T v = true ->
  (exists p, prop "phase" v = Some (JStr p) /\ In p ModulePhaseNames)
  /\ (present "reason" v = true -> exists s, prop "reason" v = Some (JStr s))
  /\ has_type T (without "reason" v) = true
  /\ prop "phase" (without "reason" v) = prop "phase" v
  /\ present "reason" (without "reason" v) = false.
Proof.
  intros HT H.
  assert (T = ModuleStatusEvent) as ->.
  { destruct HT as [<-|[<-|[]]]; reflexivity. }
  repeat split.
  - destruct (has_type_required _ _ "phase" ModulePhase H eq_refl) as [x [Hx Hp]].
    apply has_type_one_of in Hp as [p [-> Hp]]. eauto.
  - intros Hp.
    destruct (has_type_optional _ _ "reason" TString H eq_refl) as [Ha|[x [Hx Ht]]].
    + unfold present in Hp. by rewrite Ha in Hp.
    + apply is_string_inv in Ht as [s ->]. eauto.
  - apply has_type_without; [|done]. field_cases.
  - by apply prop_without_other.
  - destruct (has_type_object_inv _ _ H) as [ps ->].
    unfold present, without, prop. by rewrite get_prop_without, String.eqb_refl.
Qed.

Lemma status_reason_optional_witness :
  has_type ModuleStatusChangeEvent Samples.failed_with_reason = true
  /\ has_type ModuleStatusChangeEvent (without "reason" Samples.failed_with_reason) = true
  /\ prop "phase" (without "reason" Samples.failed_with_reason) = Some (JStr "failed").
Proof.
  assert (In ModuleStatusChangeEvent status_payloads) as HT by (simpl; tauto).
  assert (has_type ModuleStatusChangeEvent Samples.failed_with_reason = true) as H
    by reflexivity.
  destruct (status_reason_optional _ _ HT H) as (_ & _ & Hw & Hp & _).
  split; [exact H|]. split; [exact Hw|]. rewrite Hp. reflexivity.
Defined.

(** ** The events a module announces *)

Lemma has_type_array (t : Ty) (x : JValue) :
  has_type (TArray t) x = true ->
  exists items, x = JArr items /\ Forall (fun d => has_type t d = true) items.
Proof.
  destruct x; simpl; try discriminate. intros H. exists items. split; [done|].
  rewrite forallb_forall in H. apply Forall_forall.
  intros d Hd. apply H. by apply list_elem_of_In.
Qed.

Lemma payload_in_names (table : list (string * Ty)) (E : string) :
  In E (map fst table) -> exists T, payload_in table E = Some T.
Proof.
  induction table as [|[n t] table IH]; simpl; [done|].
  intros [->|Hin].
  - rewrite String.eqb_refl. eauto.
  - destruct (String.eqb E n); eauto.
Qed.

(** C8: [possibleEvents] of a [module:announce] event is an array, and each
    of its entries is the name of an event of the catalogue: a key of
    [ProtocolEvents], to which the catalogue assigns a payload. *)
Theorem announce_possible_events_in_catalogue (C : Ty) (v : JValue) :
  has_type ModuleAnnounceEvent v = true ->
  exists items,
    prop "possibleEvents" v = Some (JArr items)
    /\ Forall (fun x => exists name,
                   x = JStr name
                   /\ In name (map fst (ProtocolEvents C))
                   /\ exists T, payload_of C name = Some T) items.
Proof.
  intros H.
  destruct (has_type_required _ _ "possibleEvents" (TArray KeyofProtocolEvents) H eq_refl)
    as [x [Hx Ht]].
  apply has_type_array in Ht as [items [-> Hall]].
  exists items. split; [done|].
  eapply Forall_impl; [exact Hall|].
  intros d Hd. apply has_type_one_of in Hd as [name [-> Hin]].
  exists name. split; [done|].
  rewrite protocol_event_names. split; [done|].
  apply payload_in_names. by rewrite protocol_event_names.
Qed.

Lemma announce_possible_events_in_catalogue_witness :
  has_type ModuleAnnounceEvent Samples.announce = true
  /\ exists items, prop "possibleEvents" Samples.announce = Some (JArr items)
                   /\ length items = 2%nat.
Proof.
  split; [reflexivity|].
  destruct (announce_possible_events_in_catalogue TUndefined Samples.announce eq_refl)
    as [items [Hp _]].
  exists items. split; [exact Hp|].
  simpl in Hp. injection Hp as <-. reflexivity.
Defined.

(** ** Spark payloads *)

Lemma is_route_expr_object (d : JValue) :
  is_route_expr d = true -> exists ps, d = JObj ps.
Proof. destruct d; simpl; try discriminate. eauto. Qed.

Lemma missing_required_field (fs : list Field) (v : JValue) (k : string) (t : Ty) :
  field_in fs k = Some (false, t) ->
  has_type (TObject fs) (without k v) = false.
Proof.
  intros Hf. destruct (has_type (TObject fs) (without k v)) eqn:H; [|done].
  destruct (has_type_required _ _ _ _ H Hf) as [x [Hx _]].
  destruct v; simpl in *; try discriminate.
  by rewrite get_prop_without, String.eqb_refl in Hx.
Qed.

(** C9: in the three spark payloads [destinations] is a required array whose
    entries are strings, none of them a [RouteTargetExpression]; [id] is a
    required string; [spark:notify] also requires [eventId] (an event
    without it is not of the declared type), while in [spark:emit] and
    [spark:command] [eventId] is optional. *)
Theorem spark_destinations_are_plain_ids (T : Ty) (v : JValue) :
  In T spark_payloads ->
  has_type T v = true ->
  field_of T "destinations" = Some (false, TArray TString)
  /\ (exists items,
        prop "destinations" v = Some (JArr items)
        /\ Forall (fun d => (exists s, d = JStr s) /\ is_route_expr d = false) items)
  /\ has_type T (without "destinations" v) = false
  /\ (exists s, prop "id" v = Some (JStr s))
  /\ (T = SparkNotifyEvent ->
      field_of T "eventId" = Some (false, TString)
      /\ (exists s, prop "eventId" v = Some (JStr s))
      /\ has_type T (without "eventId" v) = false)
  /\ (T = SparkEmitEvent \/ T = SparkCommandEvent ->
      field_of T "eventId" = Some (true, TString)
      /\ has_type T (without "eventId" v) = true).
Proof.
  intros HT H.
  assert (field_of T "destinations" = Some (false, TArray TString)) as Hd.
  { destruct HT as [<-|[<-|[<-|[]]]]; reflexivity. }
  assert (field_of T "id" = Some (false, TString)) as Hi.
  { destruct HT as [<-|[<-|[<-|[]]]]; reflexivity. }
  assert (exists fs, T = TObject fs) as [fs ->].
  { destruct HT as [<-|[<-|[<-|[]]]]; eexists; reflexivity. }
  simpl in Hd, Hi.
  split; [exact Hd|]. split; [|split; [|split; [|split]]].
  - destruct (has_type_required _ _ _ _ H Hd) as [x [Hx Ht]].
    apply has_type_string_array in Ht as [items [-> Hall]].
    exists items. split; [done|].
    eapply Forall_impl; [exact Hall|].
    intros d [s ->]. split; [eauto|reflexivity].
  - by eapply missing_required_field.
  - destruct (has_type_required _ _ _ _ H Hi) as [x [Hx Ht]].
    apply is_string_inv in Ht as [s ->]. eauto.
  - intros E. rewrite E in *. split; [reflexivity|]. split.
    + destruct (has_type_required _ _ "eventId" TString H eq_refl) as [x [Hx Ht]].
      apply is_string_inv in Ht as [s ->]. eauto.
    + by eapply missing_required_field.
  - intros [E|E]; rewrite E in *; (split; [reflexivity|]);
      (apply has_type_without; [|done]); field_cases.
Qed.

Lemma spark_destinations_are_plain_ids_witness :
  has_type SparkEmitEvent Samples.emit = true
  /\ has_type SparkEmitEvent (without "eventId" Samples.emit) = true
  /\ has_type SparkEmitEvent (without "destinations" Samples.emit) = false.
Proof.
  assert (In SparkEmitEvent spark_payloads) as HT by (simpl; tauto).
  assert (has_type SparkEmitEvent Samples.emit = true) as H by reflexivity.
  destruct (spark_destinations_are_plain_ids _ _ HT H) as (_ & _ & Hd & _ & _ & He).
  split; [exact H|]. split; [|exact Hd].
  apply He. left. reflexivity.
Defined.

(** ** Context updates *)

Lemma get_prop_with (k n : string) (x : JValue) (ps : list (string * JValue)) :
  get_prop n ((k, x) :: ps) = if String.eqb n k then Some x else get_prop n ps.
Proof. reflexivity. Qed.

Lemma has_type_with_prop (fs : list Field) (v : JValue) (k : string) (x : JValue) :
  (forall o t, In (k, (o, t)) fs -> has_type t x = true) ->
  has_type (TObject fs) v = true ->
  has_type (TObject fs) (with_prop k x v) = true.
Proof.
  intros Hx H. destruct (has_type_object_inv _ _ H) as [ps ->].
  simpl in *. rewrite forallb_forall in *. intros [n [o t]] Hin.
  specialize (H _ Hin). simpl in H.
  destruct (String.eqb n k) eqn:E; [|done].
  apply String.eqb_eq in E; subst n. simpl. by rewrite (Hx _ _ Hin).
Qed.

Lemma is_string_array_has_type (d : JValue) :
  is_string_array d = has_type (TArray TString) d.
Proof. reflexivity. Qed.

(** C10: a [ContextUpdate] carries optional [ideas] and [hints], arrays of
    strings when set; its optional [destinations] is a plain string array or
    a [ContextUpdateDestinationFilter], that is [{all: true}] or
    [{include?, exclude?}], and every value of one of these shapes is
    accepted.  The filter is a shape of its own: the declared type is not
    [RouteTargetExpression], and [{all: true}] is a filter but not a route
    expression. *)
Theorem context_update_targeting (Metadata Content : Ty) (v : JValue) :
  has_type (ContextUpdate Metadata Content) v = true ->
  let CU := ContextUpdate Metadata Content in
  (field_of CU "ideas" = Some (true, TArray TString)
   /\ field_of CU "hints" = Some (true, TArray TString)
   /\ field_of CU "destinations"
      = Some (true, TUnion [TArray TString; ContextUpdateDestinationFilter]))
  /\ (forall k, In k ["ideas"; "hints"] ->
        has_type CU (without k v) = true
        /\ (present k v = true ->
            exists items, prop k v = Some (JArr items)
                          /\ Forall (fun d => exists s, d = JStr s) items))
  /\ (present "destinations" v = true ->
      exists d, prop "destinations" v = Some d /\ context_destination d = true)
  /\ (forall d, context_destination d = true ->
        has_type CU (with_prop "destinations" d v) = true)
  /\ (ContextUpdateDestinationFilter
      = TUnion [TObject [req "all" (TLitBool true)];
                TObject [opt "include" (TArray TString); opt "exclude" (TArray TString)]]
      /\ ContextUpdateDestinationFilter <> RouteTargetExpression
      /\ has_type ContextUpdateDestinationFilter Samples.destination_all = true
      /\ has_type RouteTargetExpression Samples.destination_all = false).
Proof.
  intros H CU. subst CU. split; [repeat split|]. split; [|split; [|split]].
  - intros k Hk. split.
    + apply has_type_without; [|done]. revert Hk. field_cases.
    + intros Hp.
      assert (field_of (ContextUpdate Metadata Content) k = Some (true, TArray TString)) as Hf.
      { destruct Hk as [<-|[<-|[]]]; reflexivity. }
      destruct (has_type_optional _ _ _ _ H Hf) as [Ha|[x [Hx Ht]]].
      * unfold present in Hp. by rewrite Ha in Hp.
      * apply has_type_string_array in Ht as [items [-> Hall]]. eauto.
  - intros Hp.
    destruct (has_type_optional _ _ "destinations" _ H eq_refl) as [Ha|[x [Hx Ht]]].
    + unfold present in Hp. by rewrite Ha in Hp.
    + exists x. split; [done|]. unfold context_destination.
      simpl in Ht. rewrite !orb_false_r in Ht. rewrite <- Ht.
      rewrite is_string_array_has_type. simpl. by rewrite !orb_assoc.
  - intros d Hd. apply has_type_with_prop; [|done].
    intros o t Hin.
    assert (t = TUnion [TArray TString; ContextUpdateDestinationFilter]) as ->.
    { revert Hin. field_cases. }
    unfold context_destination in Hd. simpl. simpl in Hd.
    rewrite !orb_false_r. by rewrite !orb_assoc.
  - repeat split. discriminate.
Qed.

Lemma context_update_targeting_witness :
  has_type ContextUpdateDefault (Samples.context_update Samples.destination_list) = true
  /\ has_type ContextUpdateDefault
       (with_prop "destinations" Samples.destination_all
          (Samples.context_update Samples.destination_list)) = true.
Proof.
  assert (has_type ContextUpdateDefault
            (Samples.context_update Samples.destination_list) = true) as H
    by reflexivity.
  split; [exact H|].
  destruct (context_update_targeting (TRecord TUnknown) TUndefined _ H)
    as (_ & _ & _ & Hd & _).
  apply Hd. reflexivity.
Defined.

(** ** Module-level and capability-level negotiation payloads *)

Lemma forallb_split {A : Type} (f p : A -> bool) (l : list A) :
  forallb f l
  = forallb f (List.filter (fun a => negb (p a)) l) && forallb f (List.filter p l).
Proof.
  induction l as [|a l IH]; simpl; [done|].
  rewrite IH. destruct (p a); simpl; destruct (f a); simpl;
    rewrite ?andb_true_r, ?andb_false_r; try done.
Qed.

(** An object type is the conjunction of what it says about one property
    and what it says about the others. *)
Lemma has_type_split_field (name : string) (fs : list Field) (v : JValue) :
  has_type (TObject fs) v
  = has_type (TObject (drop_field name fs)) v
    && has_type (TObject (keep_field name fs)) v.
Proof.
  destruct v; try done. simpl. unfold drop_field, keep_field.
  apply (forallb_split _ (fun f : Field => String.eqb name (fst f))).
Qed.

(** C5: for each of the nine negotiation steps the catalogue has a
    module-level and a capability-level payload, and the capability-level
    one is the module-level one with exactly one more field, the required
    string [capabilityId]: without that field the two field lists are equal,
    the module-level payload has no such field, and a value is of the
    capability-level type exactly when it is of the module-level type and
    has a string [capabilityId].  The [state] of every [:status] payload, at
    both levels, is one of [queued], [working], [done], [failed]. *)
Theorem capability_payload_extends_module_payload (C : Ty) (step : string) :
  In step negotiation_steps ->
  exists m c : list Field,
    payload_of C (module_prefix ++ step) = Some (TObject m)
    /\ payload_of C (capability_prefix ++ step) = Some (TObject c)
    /\ drop_field "capabilityId" c = m
    /\ keep_field "capabilityId" c = [req "capabilityId" TString]
    /\ field_in m "capabilityId" = None
    /\ length c = S (length m)
    /\ (forall v, has_type (TObject c) v
                  = has_type (TObject m) v
                    && has_type (TObject [req "capabilityId" TString]) v)
    /\ (In step status_steps ->
        field_in m "state" = Some (false, OneOf progress_states)
        /\ field_in c "state" = Some (false, OneOf progress_states)).
Proof.
  intros Hstep.
  assert (exists m c : list Field,
             payload_of C (module_prefix ++ step) = Some (TObject m)
             /\ payload_of C (capability_prefix ++ step) = Some (TObject c)
             /\ drop_field "capabilityId" c = m
             /\ keep_field "capabilityId" c = [req "capabilityId" TString]
             /\ field_in m "capabilityId" = None
             /\ length c = S (length m)
             /\ (In step status_steps ->
                 field_in m "state" = Some (false, OneOf progress_states)
                 /\ field_in c "state" = Some (false, OneOf progress_states)))
    as (m & c & Hm & Hc & Hdrop & Hkeep & Hnone & Hlen & Hstate).
  { simpl in Hstep.
    repeat (destruct Hstep as [<-|Hstep];
            [eexists; eexists;
             split; [reflexivity|]; split; [reflexivity|];
             split; [reflexivity|]; split; [reflexivity|];
             split; [reflexivity|]; split; [reflexivity|];
             try (intros _; split; reflexivity);
             simpl; intros Hs;
             repeat (destruct Hs as [Hs|Hs]; [discriminate Hs|]); destruct Hs
            |]).
    destruct Hstep. }
  exists m, c. repeat (split; [assumption|]). split; [|assumption].
  intros v. rewrite (has_type_split_field "capabilityId" c v).
  by rewrite Hdrop, Hkeep.
Qed.

Lemma capability_payload_extends_module_payload_witness :
  In "commit" negotiation_steps
  /\ exists m c : list Field,
       payload_of TUndefined "module:configuration:commit" = Some (TObject m)
       /\ payload_of TUndefined "module:contribute:capability:configuration:commit"
          = Some (TObject c)
       /\ drop_field "capabilityId" c = m.
Proof.
  assert (In "commit" negotiation_steps) as H by (simpl; tauto).
  split; [exact H|].
  destruct (capability_payload_extends_module_payload TUndefined "commit" H)
    as (m & c & Hm & Hc & Hd & _).
  exists m, c. split; [exact Hm|]. split; [exact Hc|exact Hd].
Defined.

(** ** Event metadata *)

Lemma Ty_inter_ind (P : Ty -> Prop) :
  (forall t, (forall parts, t <> TInter parts) -> P t) ->
  (forall parts, Forall P parts -> P (TInter parts)) ->
  forall t, P t.
Proof.
  intros Hbase Hinter. fix IH 1. intros t.
  destruct t; try (apply Hbase; discriminate).
  apply Hinter. induction parts as [|p parts IHp]; constructor; [apply IH|exact IHp].
Qed.

Lemma forallb_ext_in {A : Type} (f g : A -> bool) (l : list A) :
  (forall a, In a l -> f a = g a) -> forallb f l = forallb g l.
Proof.
  induction l as [|a l IH]; simpl; [done|]. intros H.
  rewrite (H a (or_introl eq_refl)), IH; [done|]. intros b Hb. apply H. by right.
Qed.

(** A type that does not name [k] cannot tell whether [k] is bound. *)
Lemma has_type_fresh (k : string) (ps qs : list (string * JValue)) (t : Ty) :
  (forall n, String.eqb k n = false -> get_prop n qs = get_prop n ps) ->
  object_like t = true ->
  mentions k t = false ->
  has_type t (JObj qs) = has_type t (JObj ps).
Proof.
  intros Hsame. induction t as [t Hne|parts IH] using Ty_inter_ind.
  - destruct t; try discriminate; [|by destruct (Hne parts)].
    intros _ Hm. simpl in *. apply forallb_ext_in. intros [n [o ft]] Hin.
    rewrite Hsame; [done|].
    destruct (String.eqb k n) eqn:E; [|done].
    assert (existsb (fun f : Field => String.eqb k (fst f)) fields = true) as Hex.
    { apply existsb_exists. exists (n, (o, ft)). split; [done|exact E]. }
    by rewrite Hex in Hm.
  - simpl. intros Hobj Hm. apply forallb_ext_in. intros p Hp.
    rewrite Forall_forall in IH. apply IH.
    + by apply list_elem_of_In.
    + rewrite forallb_forall in Hobj. by apply Hobj.
    + destruct (mentions k p) eqn:E; [|done].
      assert (existsb (mentions k) parts = true) as Hex.
      { apply existsb_exists. eauto. }
      by rewrite Hex in Hm.
Qed.

Lemma omit_object_like (k : string) (t : Ty) :
  object_like t = true ->
  object_like (Omit t [k]) = true /\ mentions k (Omit t [k]) = false.
Proof.
  induction t as [t Hne|parts IH] using Ty_inter_ind.
  - destruct t; try discriminate; [|by destruct (Hne parts)].
    intros _. split; [done|]. simpl. clear Hne.
    induction fields as [|[n d] fields IHf]; simpl; [done|].
    unfold named_in. simpl. rewrite orb_false_r, (String.eqb_sym n k).
    destruct (String.eqb k n) eqn:E; simpl; [exact IHf|]. rewrite E. exact IHf.
  - simpl. intros Hobj. rewrite forallb_forall in Hobj. rewrite Forall_forall in IH.
    split.
    + apply forallb_forall. intros q Hq. apply in_map_iff in Hq as [p [<- Hp]].
      apply IH; [by apply list_elem_of_In|by apply Hobj].
    + destruct (existsb (mentions k) (map (fun p => Omit p [k]) parts)) eqn:E; [|done].
      apply existsb_exists in E as [q [Hq Hm]].
      apply in_map_iff in Hq as [p [<- Hp]].
      destruct (IH p) as [_ Hno]; [by apply list_elem_of_In|by apply Hobj|].
      by rewrite Hno in Hm.
Qed.

Lemma payload_in_Forall (P : Ty -> Prop) (table : list (string * Ty)) (E : string) (T : Ty) :
  Forall (fun p => P (snd p)) table -> payload_in table E = Some T -> P T.
Proof.
  induction 1 as [|[n t] table Hp _ IH]; simpl; [discriminate|].
  destruct (String.eqb E n); [by intros [= <-]|exact IH].
Qed.

(** Every payload of the catalogue is an object type or an intersection of
    object types. *)
Lemma catalogue_object_like (C : Ty) (E : string) (T : Ty) :
  payload_of C E = Some T -> object_like T = true.
Proof.
  apply (payload_in_Forall (fun t => object_like t = true)).
  repeat constructor.
Qed.

Lemma protocol_event_of_inv (C : Ty) (E : string) (T : Ty) :
  ProtocolEventOf E C = Some T ->
  exists payload,
    payload_of C E = Some payload
    /\ T = TInter [Omit payload ["metadata"]; OpenMetadata].
Proof.
  unfold ProtocolEventOf. destruct (payload_of C E) as [payload|]; [|discriminate].
  intros [= <-]. eauto.
Qed.

Lemma has_type_inter2 (a b : Ty) (v : JValue) :
  has_type (TInter [a; b]) v = has_type a v && has_type b v.
Proof. simpl. by rewrite andb_true_r. Qed.

(** C7, the claim as stated, fails: an [error] event of the type
    [ProtocolEventOf] gives it whose [metadata] is set and is not an
    [EventBaseMetadata]. *)
Lemma catalogue_metadata_not_event_base_metadata :
  ~ (forall (E : string) (T : Ty) (v m : JValue),
       ProtocolEventOf E TUndefined = Some T ->
       has_type T v = true ->
       prop "metadata" v = Some m ->
       has_type EventBaseMetadata m = true).
Proof.
  intros H.
  specialize (H "error" _ Samples.error_with_free_metadata _ eq_refl eq_refl eq_refl).
  discriminate H.
Qed.

Lemma has_type_event_of (payload : Ty) (v : JValue) (m : JValue) :
  object_like payload = true ->
  has_type (TInter [Omit payload ["metadata"]; OpenMetadata]) v = true ->
  exists ps,
    v = JObj ps
    /\ has_type (Omit payload ["metadata"]) (without "metadata" v) = true
    /\ has_type (Omit payload ["metadata"]) (with_prop "metadata" m v) = true.
Proof.
  intros Hobj H. rewrite has_type_inter2 in H. apply andb_true_iff in H as [Hp Hm].
  destruct (has_type_object_inv _ _ Hm) as [ps ->]. exists ps. split; [done|].
  destruct (omit_object_like "metadata" payload Hobj) as [Ho Hno].
  split.
  - etrans; [|exact Hp]. apply (has_type_fresh "metadata"); [|done|done].
    intros n E. by rewrite get_prop_without, E.
  - etrans; [|exact Hp]. apply (has_type_fresh "metadata"); [|done|done].
    intros n E. rewrite get_prop_with. by rewrite String.eqb_sym, E.
Qed.

(** C7, amended: through [ProtocolEventOf] every event of the catalogue
    carries an optional [metadata] that is an open record
    ([Record<string, unknown>]), not an [EventBaseMetadata]: a [metadata]
    that is set is an object, and an event stays of its type without
    [metadata].  The declarations put no constraint on the [parentId] of
    [metadata.event]: an event stays of its type whatever [parentId] its
    metadata carries. *)
Theorem catalogue_metadata_is_open_record (C : Ty) (E : string) (T : Ty) (v : JValue) :
  ProtocolEventOf E C = Some T ->
  has_type T v = true ->
  (present "metadata" v = true -> exists ps, prop "metadata" v = Some (JObj ps))
  /\ has_type T (without "metadata" v) = true
  /\ (forall parentId,
        has_type T
          (with_prop "metadata" (JObj [("event", JObj [("parentId", parentId)])]) v)
        = true).
Proof.
  intros HT H. destruct (protocol_event_of_inv _ _ _ HT) as [payload [Hpay ->]].
  pose proof (catalogue_object_like _ _ _ Hpay) as Hobj.
  pose proof H as H'. rewrite has_type_inter2 in H'.
  apply andb_true_iff in H' as [_ Hmeta].
  split; [|split].
  - intros Hp.
    destruct (has_type_optional _ _ "metadata" (TRecord TUnknown) Hmeta eq_refl)
      as [Ha|[x [Hx Ht]]].
    + unfold present in Hp. by rewrite Ha in Hp.
    + destruct x; try discriminate. eauto.
  - destruct (has_type_event_of payload v JNull Hobj H) as (ps & -> & Hw & _).
    rewrite has_type_inter2, Hw. rewrite andb_true_l.
    apply has_type_without; [|exact Hmeta]. field_cases.
  - intros parentId.
    destruct (has_type_event_of payload v
                (JObj [("event", JObj [("parentId", parentId)])]) Hobj H)
      as (ps & -> & _ & Hw).
    rewrite has_type_inter2, Hw. reflexivity.
Qed.

Lemma catalogue_metadata_is_open_record_witness :
  ProtocolEventOf "module:configuration:validate:response" TUndefined
  = Some (TInter [Omit (ModuleConfigurationValidateResponseEvent TUndefined) ["metadata"];
                  OpenMetadata])
  /\ has_type
       (TInter [Omit (ModuleConfigurationValidateResponseEvent TUndefined) ["metadata"];
                OpenMetadata])
       (JObj [("identity", Samples.identity);
              ("validation", JObj [("status", JStr "valid")])]) = true
  /\ has_type
       (TInter [Omit (ModuleConfigurationValidateResponseEvent TUndefined) ["metadata"];
                OpenMetadata])
       (with_prop "metadata" (JObj [("event", JObj [("parentId", JStr "req-2")])])
          (JObj [("identity", Samples.identity);
                 ("validation", JObj [("status", JStr "valid")])])) = true.
Proof.
  split; [reflexivity|]. split; [reflexivity|].
  destruct (catalogue_metadata_is_open_record TUndefined
              "module:configuration:validate:response" _
              (JObj [("identity", Samples.identity);
                     ("validation", JObj [("status", JStr "valid")])])
              eq_refl eq_refl) as (_ & _ & Hp).
  apply Hp.
Defined.

End SchemaFacts.

(** * Commit with optimistic concurrency *)

Module CommitFacts.
Import Commit.

Lemma commit_patch_cases (st : ConfigStore) (e : ModuleConfigEnvelope) (p : Config) (base : Z) :
  patch e = Some p ->
  baseRevision e = Some base ->
  (exists cur,
      st !! configId e = Some cur
      /\ stored_revision cur = base
      /\ commit e st
         = (<[configId e := {| stored_revision := base + 1;
                               stored_config := p ∪ stored_config cur |}]> st,
            Configured (configured_envelope e
                          {| stored_revision := base + 1;
                             stored_config := p ∪ stored_config cur |})))
  \/ (storedRevision st (configId e) <> Some base
      /\ commit e st = (st, RejectedStale (storedRevision st (configId e)))).
Proof.
  intros Hp Hb. unfold commit, storedRevision. rewrite Hp, Hb.
  destruct (st !! configId e) as [cur|] eqn:Hcur; simpl.
  - destruct (base =? stored_revision cur) eqn:E.
    + apply Z.eqb_eq in E. subst base. left. exists cur. done.
    + apply Z.eqb_neq in E. right. split; [congruence|done].
  - right. done.
Qed.

(** C1: for a commit that carries a patch with a [baseRevision], the commit
    is accepted exactly when [baseRevision] is the revision stored for its
    [configId]; an accepted commit leaves that stored revision greater by
    exactly one, announces the envelope of the new revision and touches no
    other [configId]; a rejected one reports the stale base and leaves the
    store as it was. *)
Theorem commit_patch_iff_base_is_current
    (st : ConfigStore) (e : ModuleConfigEnvelope) (p : Config) (base : Z) :
  patch e = Some p ->
  baseRevision e = Some base ->
  let st' := fst (commit e st) in
  let out := snd (commit e st) in
  (accepted out = true <-> storedRevision st (configId e) = Some base)
  /\ (accepted out = true ->
      storedRevision st' (configId e) = Some (base + 1)
      /\ (exists env, out = Configured env /\ revision env = base + 1)
      /\ (forall other, other <> configId e -> st' !! other = st !! other))
  /\ (accepted out = false ->
      st' = st /\ out = RejectedStale (storedRevision st (configId e))).
Proof.
  intros Hp Hb st' out. subst st' out.
  destruct (commit_patch_cases st e p base Hp Hb)
    as [(cur & Hcur & Hrev & ->)|[Hne ->]]; simpl.
  - split; [|split].
    + split; [|done]. intros _. unfold storedRevision. rewrite Hcur. simpl. by rewrite Hrev.
    + intros _. split; [|split].
      * unfold storedRevision. by rewrite lookup_insert_eq.
      * eexists. split; [reflexivity|]. reflexivity.
      * intros other Hother. by rewrite lookup_insert_ne.
    + discriminate.
  - split; [|split].
    + split; [discriminate|]. intros H. by destruct Hne.
    + discriminate.
    + done.
Qed.

Lemma commit_patch_iff_base_is_current_witness :
  accepted (snd (commit scenario2_patch scenario2_store)) = true
  /\ storedRevision (fst (commit scenario2_patch scenario2_store)) "stage-ui-live2d"
     = Some 6.
Proof.
  destruct (commit_patch_iff_base_is_current scenario2_store scenario2_patch
              {[ "model" := JStr "Haru" ]} 5 eq_refl eq_refl) as (Hiff & Hok & _).
  assert (accepted (snd (commit scenario2_patch scenario2_store)) = true) as Hacc.
  { apply Hiff. reflexivity. }
  split; [exact Hacc|]. destruct (Hok Hacc) as [Hrev _]. exact Hrev.
Defined.

(** Scenario 2 of the specification: the commit on base 5 is accepted and
    stores revision 6; the second commit that reuses base 5 is rejected. *)
Lemma scenario2_second_commit_rejected :
  map accepted (snd (commit_all [scenario2_patch; scenario2_patch] scenario2_store))
  = [true; false]
  /\ storedRevision (fst (commit_all [scenario2_patch; scenario2_patch] scenario2_store))
       "stage-ui-live2d" = Some 6.
Proof. split; reflexivity. Qed.

(** A commit never lowers a stored revision. *)
Lemma commit_revision_monotone (st : ConfigStore) (e : ModuleConfigEnvelope)
    (cid : string) (r : Z) :
  storedRevision st cid = Some r ->
  exists r', storedRevision (fst (commit e st)) cid = Some r' /\ r <= r'.
Proof.
  unfold storedRevision. intros Hr.
  assert (forall next : StoredConfig,
             (forall cur, st !! configId e = Some cur ->
                          stored_revision cur <= stored_revision next) ->
             exists r', stored_revision <$> <[configId e := next]> st !! cid = Some r'
                        /\ r <= r') as Hins.
  { intros next Hle. destruct (decide (configId e = cid)) as [<-|Hne].
    - rewrite lookup_insert_eq. simpl. eexists. split; [done|].
      destruct (st !! configId e) as [cur|] eqn:Hcur; [|discriminate].
      simpl in Hr. injection Hr as <-. by apply Hle.
    - rewrite lookup_insert_ne by done. exists r. split; [done|lia]. }
  unfold commit.
  destruct (patch e) as [p|].
  - destruct (baseRevision e) as [base|]; [|exists r; split; [done|lia]].
    destruct (st !! configId e) as [cur|] eqn:Hcur; [|exists r; split; [done|lia]].
    destruct (base =? stored_revision cur); [|exists r; split; [done|lia]].
    simpl. apply Hins. intros cur' [= <-]. simpl. lia.
  - destruct (full e) as [c|]; [|exists r; split; [done|lia]].
    simpl. apply Hins. intros cur Hcur. rewrite Hcur. simpl. lia.
Qed.

End CommitFacts.

(** * Route evaluation *)

Module RoutingFacts.
Import Routing.

(** Induction on expressions, with the hypothesis for every child of a
    combinator. *)
Lemma route_ind (P : RouteTargetExpression -> Prop) :
  (forall all, Forall P all -> P (RouteAnd all)) ->
  (forall any, Forall P any -> P (RouteOr any)) ->
  (forall x, is_leaf x = true -> P x) ->
  forall x, P x.
Proof.
  intros Hand Hor Hleaf. fix IH 1. intros x.
  destruct x as [all|any| | | | | | | ]; try (apply Hleaf; reflexivity).
  - apply Hand. induction all as [|c all IHc]; constructor; [apply IH|exact IHc].
  - apply Hor. induction any as [|c any IHc]; constructor; [apply IH|exact IHc].
Qed.

Lemma match_set_subseteq (selects : RegistryEntry -> bool) (reg : Registry) :
  match_set selects reg ⊆ registry_ids reg.
Proof.
  unfold match_set, registry_ids. intros id.
  rewrite !elem_of_list_to_set, !list_elem_of_In, !in_map_iff.
  intros [e [<- He]]. apply filter_In in He as [He _]. eauto.
Qed.

Lemma leaf_result_subseteq (inverted : option bool) (selects : RegistryEntry -> bool)
    (reg : Registry) :
  leaf_result inverted selects reg ⊆ registry_ids reg.
Proof.
  unfold leaf_result.
  destruct (is_inverted inverted); [set_solver|apply match_set_subseteq].
Qed.

Lemma leaf_result_toggle (inverted : option bool) (selects : RegistryEntry -> bool)
    (reg : Registry) :
  leaf_result (toggle inverted) selects reg
  = registry_ids reg ∖ leaf_result inverted selects reg.
Proof.
  unfold leaf_result, toggle. pose proof (match_set_subseteq selects reg) as Hsub.
  destruct (is_inverted inverted); simpl; [|done].
  apply set_eq. intros id. rewrite !elem_of_difference.
  destruct (decide (id ∈ match_set selects reg)) as [Hid|Hid]; [|tauto].
  split; [|tauto]. intros _. split; [by apply Hsub|tauto].
Qed.

Section WithMatchers.
Context {M : LeafMatchers}.

Lemma evaluate_and_cons (c : RouteTargetExpression) (all : list RouteTargetExpression)
    (reg : Registry) :
  evaluate (RouteAnd (c :: all)) reg = evaluate c reg ∩ evaluate (RouteAnd all) reg.
Proof. reflexivity. Qed.

Lemma evaluate_or_cons (c : RouteTargetExpression) (any : list RouteTargetExpression)
    (reg : Registry) :
  evaluate (RouteOr (c :: any)) reg = evaluate c reg ∪ evaluate (RouteOr any) reg.
Proof. reflexivity. Qed.

(** Every result is a set of ids of the registry. *)
Lemma evaluate_subseteq (x : RouteTargetExpression) (reg : Registry) :
  evaluate x reg ⊆ registry_ids reg.
Proof.
  induction x as [all IH|any IH|x Hleaf] using route_ind.
  - induction IH as [|c all Hc _ IHall]; [done|].
    rewrite evaluate_and_cons. set_solver.
  - induction IH as [|c any Hc _ IHany]; [simpl; set_solver|].
    rewrite evaluate_or_cons. set_solver.
  - destruct x; try discriminate; apply leaf_result_subseteq.
Qed.

Lemma evaluate_invert (x : RouteTargetExpression) (reg : Registry) :
  evaluate (invert x) reg = registry_ids reg ∖ evaluate x reg.
Proof.
  induction x as [all IH|any IH|x Hleaf] using route_ind.
  - induction IH as [|c all Hc _ IHall].
    + simpl. set_solver.
    + change (invert (RouteAnd (c :: all)))
        with (RouteOr (invert c :: map invert all)).
      rewrite evaluate_or_cons, evaluate_and_cons, Hc.
      change (RouteOr (map invert all)) with (invert (RouteAnd all)).
      rewrite IHall. apply set_eq. intros id.
      rewrite elem_of_union, !elem_of_difference, elem_of_intersection.
      destruct (decide (id ∈ evaluate c reg)); tauto.
  - induction IH as [|c any Hc _ IHany].
    + simpl. set_solver.
    + change (invert (RouteOr (c :: any)))
        with (RouteAnd (invert c :: map invert any)).
      rewrite evaluate_and_cons, evaluate_or_cons, Hc.
      change (RouteAnd (map invert any)) with (invert (RouteOr any)).
      rewrite IHany. set_solver.
  - destruct x; try discriminate; apply leaf_result_toggle.
Qed.

Lemma evaluate_destination_subseteq (d : string + RouteTargetExpression) (reg : Registry) :
  evaluate_destination d reg ⊆ registry_ids reg.
Proof. destruct d; apply evaluate_subseteq. Qed.

(** The properties of section 8 for the combinators. *)
Lemma evaluate_and_pair (a b : RouteTargetExpression) (reg : Registry) :
  evaluate (RouteAnd [a; b]) reg = evaluate a reg ∩ evaluate b reg.
Proof.
  simpl. pose proof (evaluate_subseteq b reg). set_solver.
Qed.

Lemma evaluate_or_pair (a b : RouteTargetExpression) (reg : Registry) :
  evaluate (RouteOr [a; b]) reg = evaluate a reg ∪ evaluate b reg.
Proof. simpl. set_solver. Qed.

Lemma invert_involutive (x : RouteTargetExpression) (reg : Registry) :
  evaluate (invert (invert x)) reg = evaluate x reg.
Proof.
  rewrite !evaluate_invert. pose proof (evaluate_subseteq x reg) as Hsub.
  apply set_eq. intros id. rewrite !elem_of_difference.
  destruct (decide (id ∈ evaluate x reg)); [|tauto].
  split; [tauto|]. intros _. split; [by apply Hsub|tauto].
Qed.
End WithMatchers.

(** C2: for every expression, every registry and every choice of leaf
    matching rules, the inversion of the expression evaluates to the ids of
    the registry minus the evaluation of the expression.  So when an
    expression (an uninverted leaf, say) matches nothing, its inversion
    evaluates to the whole registry, which is not the empty set as soon as
    the registry has an entry; and an inverted leaf is the registry minus
    its match set. *)
Theorem evaluate_invert_is_complement
    (M : LeafMatchers) (x : RouteTargetExpression) (reg : Registry) :
  evaluate (invert x) reg = registry_ids reg ∖ evaluate x reg
  /\ (evaluate x reg = ∅ ->
      evaluate (invert x) reg = registry_ids reg
      /\ (reg <> [] -> evaluate (invert x) reg <> ∅))
  /\ (forall selects, leaf_result (Some true) selects reg
                      = registry_ids reg ∖ match_set selects reg).
Proof.
  split; [apply evaluate_invert|]. split; [|done].
  intros Hempty. rewrite evaluate_invert, Hempty.
  split; [set_solver|].
  intros Hreg. destruct reg as [|e reg]; [done|].
  unfold registry_ids. simpl. set_solver.
Qed.

Lemma evaluate_invert_is_complement_witness :
  evaluate (M := scenario_matchers) (RouteGlob "desk-*" None) scenario3_registry = ∅
  /\ evaluate (M := scenario_matchers) (invert (RouteGlob "desk-*" None)) scenario3_registry
     = {[ "stage-web"; "telegram-bot" ]}.
Proof.
  assert (evaluate (M := scenario_matchers) (RouteGlob "desk-*" None) scenario3_registry
          = ∅) as Hempty by reflexivity.
  split; [exact Hempty|].
  destruct (evaluate_invert_is_complement scenario_matchers (RouteGlob "desk-*" None)
              scenario3_registry) as (_ & Hfull & _).
  destruct (Hfull Hempty) as [-> _].
  apply set_eq. intros id. unfold registry_ids. simpl. set_solver.
Defined.

(** Scenario 3 of the specification resolves to [telegram-bot]. *)
Lemma scenario3_resolves :
  elements (evaluate (M := scenario_matchers) scenario3_expression scenario3_registry)
  = ["telegram-bot"].
Proof. vm_compute. reflexivity. Qed.

End RoutingFacts.

(** * The spark:emit tracker *)

Module SparkFacts.
Import Spark.

Lemma history_cons (key : string * option string) (t : Transition) (log : list Transition) :
  history key (t :: log)
  = if bool_decide (tr_key t = key) then tr_to t :: history key log
    else history key log.
Proof. unfold history. simpl. by destruct (bool_decide (tr_key t = key)). Qed.

Lemma deliver_all_log (e : SparkEmitEvent) (es : list SparkEmitEvent) (tr : Tracker) :
  snd (deliver_all (e :: es) tr)
  = match snd (deliver e tr) with
    | Some t => t :: snd (deliver_all es (fst (deliver e tr)))
    | None => snd (deliver_all es (fst (deliver e tr)))
    end.
Proof.
  simpl. destruct (deliver e tr) as [tr1 o]. simpl.
  by destruct (deliver_all es tr1).
Qed.

Lemma deliver_cases (e : SparkEmitEvent) (tr : Tracker) :
  (exists from,
      tr !! correlation e = from
      /\ match from with
         | Some cur => spark_next cur (emit_state e) = true
         | None => True
         end
      /\ deliver e tr
         = (<[correlation e := emit_state e]> tr,
            Some {| tr_key := correlation e; tr_from := from; tr_to := emit_state e |}))
  \/ (exists cur,
        tr !! correlation e = Some cur
        /\ spark_next cur (emit_state e) = false
        /\ deliver e tr = (tr, None)).
Proof.
  unfold deliver. destruct (tr !! correlation e) as [cur|] eqn:Hcur.
  - destruct (spark_next cur (emit_state e)) eqn:Hstep.
    + left. exists (Some cur). done.
    + right. exists cur. done.
  - left. exists None. done.
Qed.

Lemma deliver_all_one_way (es : list SparkEmitEvent) (tr : Tracker)
    (key : string * option string) :
  one_way (history_from (tr !! key) (history key (snd (deliver_all es tr)))) = true.
Proof.
  revert tr. induction es as [|e es IH]; intros tr.
  - simpl. unfold history. simpl. by destruct (tr !! key).
  - rewrite deliver_all_log.
    destruct (deliver_cases e tr) as [(from & Hfrom & Hstep & ->)|(cur & Hcur & Hstep & ->)];
      simpl; [|apply IH].
    specialize (IH (<[correlation e := emit_state e]> tr)).
    rewrite history_cons. simpl.
    destruct (decide (correlation e = key)) as [<-|Hk].
    + rewrite bool_decide_eq_true_2 by done.
      rewrite lookup_insert_eq in IH. simpl in IH.
      rewrite Hfrom. destruct from as [cur|]; simpl; [|exact IH].
      rewrite Hstep. exact IH.
    + rewrite bool_decide_eq_false_2 by done.
      by rewrite lookup_insert_ne in IH.
Qed.

Lemma one_way_adjacent (l1 l2 : list SparkEmitState) (a b : SparkEmitState) :
  one_way (l1 ++ a :: b :: l2) = true -> spark_next a b = true.
Proof.
  induction l1 as [|c l1 IH]; simpl.
  - intros H. by apply andb_true_iff in H as [H _].
  - destruct (l1 ++ a :: b :: l2)%list eqn:E; [by destruct l1|].
    intros H. apply andb_true_iff in H as [_ H]. by apply IH.
Qed.

Lemma spark_next_rank (a b : SparkEmitState) :
  spark_next a b = true -> (rank a < rank b)%nat.
Proof. destruct a, b; simpl; try discriminate; lia. Qed.

Lemma one_way_tail (a : SparkEmitState) (l : list SparkEmitState) :
  one_way (a :: l) = true -> one_way l = true.
Proof.
  destruct l as [|b l]; [done|]. simpl. intros H. by apply andb_true_iff in H as [_ H].
Qed.

Lemma one_way_ranks (l : list SparkEmitState) (i j : nat) (a b : SparkEmitState) :
  one_way l = true ->
  (i < j)%nat -> l !! i = Some a -> l !! j = Some b -> (rank a < rank b)%nat.
Proof.
  revert i j a. induction l as [|c l IH]; intros i j a Hl Hij Hi Hj; [done|].
  destruct j as [|j]; [lia|].
  destruct i as [|i].
  - simpl in Hi. injection Hi as ->. simpl in Hj.
    clear Hij. revert a j Hl Hj IH.
    induction l as [|d l IHl]; intros a j Hl Hj IH; [done|].
    simpl in Hl. apply andb_true_iff in Hl as [Had Hl].
    apply spark_next_rank in Had.
    destruct j as [|j].
    + simpl in Hj. injection Hj as ->. done.
    + simpl in Hj. destruct l as [|d' l]; [done|].
      assert (rank d < rank b)%nat; [|lia].
      apply (IH 0%nat (S j) d); [done|lia|done|done].
  - simpl in Hi, Hj. apply (IH i j a); [by eapply one_way_tail|lia|done|done].
Qed.

Lemma one_way_length (l : list SparkEmitState) :
  one_way l = true -> (length l <= 3)%nat.
Proof.
  intros H. destruct l as [|a [|b [|c [|d l]]]]; simpl; try lia.
  pose proof (one_way_ranks _ 0 1 a b H ltac:(lia) eq_refl eq_refl).
  pose proof (one_way_ranks _ 1 2 b c H ltac:(lia) eq_refl eq_refl).
  pose proof (one_way_ranks _ 2 3 c d H ltac:(lia) eq_refl eq_refl).
  assert (rank d <= 2)%nat by (destruct d; simpl; lia). lia.
Qed.

Lemma deliver_all_steps (es : list SparkEmitEvent) (tr : Tracker) :
  Forall (fun t => match tr_from t with
                   | Some a => spark_next a (tr_to t) = true
                   | None => True
                   end) (snd (deliver_all es tr)).
Proof.
  revert tr. induction es as [|e es IH]; intros tr; simpl; [constructor|].
  unfold deliver. destruct (tr !! correlation e) as [cur|].
  - destruct (spark_next cur (emit_state e)) eqn:Hstep.
    + specialize (IH (<[correlation e := emit_state e]> tr)).
      destruct (deliver_all es _) as [tr2 log]. simpl in *. by constructor.
    + specialize (IH tr). by destruct (deliver_all es tr).
  - specialize (IH (<[correlation e := emit_state e]> tr)).
    destruct (deliver_all es _) as [tr2 log]. simpl in *. by constructor.
Qed.

(** C3: whatever reports are delivered, and in whatever order, the states
    observed for one correlation form the progression: every observed
    change is one of its steps ([queued] to [working], [working] to a
    terminal state), a later observed state always ranks above an earlier
    one, so that nothing follows a terminal state and [working] is never
    observed after [done], and at most three states are observed. *)
Theorem spark_emit_state_one_way (es : list SparkEmitEvent) (key : string * option string) :
  one_way (observed es key) = true
  /\ Forall (fun t => match tr_from t with
                      | Some a => spark_next a (tr_to t) = true
                      | None => True
                      end) (snd (deliver_all es ∅))
  /\ (forall i j a b,
        (i < j)%nat ->
        observed es key !! i = Some a -> observed es key !! j = Some b ->
        (rank a < rank b)%nat /\ terminal a = false /\ (a, b) <> (Done, Working))
  /\ (length (observed es key) <= 3)%nat.
Proof.
  pose proof (deliver_all_one_way es ∅ key) as Hone.
  rewrite lookup_empty in Hone. simpl in Hone. fold (observed es key) in Hone.
  split; [exact Hone|]. split; [apply deliver_all_steps|]. split.
  - intros i j a b Hij Hi Hj.
    pose proof (one_way_ranks _ i j a b Hone Hij Hi Hj) as Hr.
    split; [exact Hr|]. split.
    + destruct a; try done; destruct b; simpl in Hr; lia.
    + intros [= -> ->]. simpl in Hr. lia.
  - by apply one_way_length.
Qed.

Lemma spark_emit_state_one_way_witness :
  observed [report "n1" (Some "ev1") Queued; report "n1" (Some "ev1") Working;
            report "n1" (Some "ev1") Done; report "n1" (Some "ev1") Working]
    ("n1", Some "ev1")
  = [Queued; Working; Done]
  /\ one_way (observed [report "n1" (Some "ev1") Queued; report "n1" (Some "ev1") Working;
                        report "n1" (Some "ev1") Done; report "n1" (Some "ev1") Working]
                ("n1", Some "ev1")) = true.
Proof.
  split; [reflexivity|].
  apply (spark_emit_state_one_way
           [report "n1" (Some "ev1") Queued; report "n1" (Some "ev1") Working;
            report "n1" (Some "ev1") Done; report "n1" (Some "ev1") Working]
           ("n1", Some "ev1")).
Defined.

(** The dedup contract: a report delivered again changes nothing. *)
Lemma deliver_twice (e : SparkEmitEvent) (tr : Tracker) :
  deliver e (fst (deliver e tr)) = (fst (deliver e tr), None).
Proof.
  unfold deliver at 2 3. destruct (tr !! correlation e) as [cur|] eqn:Hcur.
  - destruct (spark_next cur (emit_state e)) eqn:Hstep; simpl.
    + unfold deliver. rewrite lookup_insert_eq.
      by destruct (emit_state e).
    + unfold deliver. by rewrite Hcur, Hstep.
  - simpl. unfold deliver. rewrite lookup_insert_eq. by destruct (emit_state e).
Qed.

End SparkFacts.

(** * Records against the declarations *)

Module WireFacts.
Import Wire.

Lemma has_type_object_intro (fs : list Field) (ps : list (string * JValue)) :
  (forall n o t, In (n, (o, t)) fs -> field_ok (has_type t) o (get_prop n ps) = true) ->
  has_type (TObject fs) (JObj ps) = true.
Proof.
  intros H. simpl. apply forallb_forall. intros [n [o t]] Hin. by apply H.
Qed.

Lemma field_ok_typed (t : Ty) (o : bool) (x : JValue) :
  has_type t x = true -> field_ok (has_type t) o (Some x) = true.
Proof. intros H. unfold field_ok. by rewrite H. Qed.

Lemma strings_json_typed (l : list string) :
  has_type (TArray TString) (strings_json l) = true.
Proof.
  simpl. apply forallb_forall. intros x Hx. by apply in_map_iff in Hx as [s [<- _]].
Qed.

Lemma labels_json_typed (m : gmap string string) :
  has_type (TRecord TString) (labels_json m) = true.
Proof.
  simpl. apply forallb_forall. intros x Hx. by apply in_map_iff in Hx as [kv [<- _]].
Qed.

Lemma config_json_typed (c : Config) :
  has_type (TRecord TUnknown) (config_json c) = true.
Proof. simpl. by apply forallb_forall. Qed.

Ltac typed_fields :=
  apply has_type_object_intro; intros n o t Hin;
  simpl in Hin; unfold req, opt in Hin;
  repeat match goal with
         | H : _ \/ _ |- _ => destruct H
         | H : False |- _ => destruct H
         | H : (_, _) = (_, _) |- _ => inversion H; clear H; subst
         end;
  try reflexivity;
  cbn -[has_type labels_json plugin_json identity_json config_json strings_json].

Lemma plugin_json_typed (p : PluginIdentity) :
  has_type Schema.PluginIdentity (plugin_json p) = true.
Proof.
  destruct p as [id [v|] [l|]]; unfold Schema.PluginIdentity, plugin_json;
    typed_fields; by rewrite labels_json_typed.
Qed.

Lemma identity_json_typed (i : ModuleIdentity) :
  has_type Schema.ModuleIdentity (identity_json i) = true.
Proof.
  destruct i as [id p [l|]]; unfold Schema.ModuleIdentity, identity_json;
    typed_fields; by rewrite ?plugin_json_typed, ?labels_json_typed.
Qed.

Lemma envelope_json_typed (e : ModuleConfigEnvelope) :
  has_type (Schema.ModuleConfigEnvelope (TRecord TUnknown)) (envelope_json e) = true.
Proof.
  destruct e as [cid rev sv [src|] [f|] [p|] [b|]];
    unfold Schema.ModuleConfigEnvelope, envelope_json;
    typed_fields; by rewrite ?identity_json_typed, ?config_json_typed.
Qed.

(** On the wire an envelope record satisfies the invariant exactly when one
    of its payloads is set and a patch comes with its base. *)
Lemma envelope_json_invariant (e : ModuleConfigEnvelope) :
  envelope_invariant (envelope_json e)
  = xorb (bool_decide (is_Some (full e))) (bool_decide (is_Some (patch e)))
    && implb (bool_decide (is_Some (patch e))) (bool_decide (is_Some (baseRevision e))).
Proof.
  destruct e as [cid rev sv [src|] [f|] [p|] [b|]]; reflexivity.
Qed.

Lemma state_names :
  map state_name [Queued; Working; Done; Dropped; Blocked; Expired]
  = Schema.SparkEmitStateNames.
Proof. reflexivity. Qed.

Lemma emit_json_typed (e : SparkEmitEvent) :
  has_type Schema.SparkEmitEvent (emit_json e) = true.
Proof.
  destruct e as [id [ev|] st [note|] ds [md|]];
    unfold Schema.SparkEmitEvent, emit_json;
    typed_fields;
    rewrite ?strings_json_typed, ?config_json_typed; try reflexivity;
    by destruct st.
Qed.

Lemma leaf_json_route (tag key : string) (names : list string) (inverted : option bool) :
  In (tag, key) [("ids", "ids"); ("plugin", "plugins"); ("instance", "instances");
                 ("label", "selectors"); ("module", "modules"); ("source", "sources")] ->
  is_route_expr (leaf_json tag key names inverted) = true.
Proof.
  pose proof (strings_json_typed names) as Hs.
  assert (is_string_array (strings_json names) = true) as Hn by exact Hs.
  intros Hin. simpl in Hin.
  repeat (destruct Hin as [[= <- <-]|Hin];
          [destruct inverted as [[]|]; cbn -[strings_json]; by rewrite Hn|]).
  destruct Hin.
Qed.

(** Every expression of the record type is a [RouteTargetExpression] of the
    declaration. *)
Lemma route_json_typed (x : RouteTargetExpression) :
  has_type Schema.RouteTargetExpression (route_json x) = true.
Proof.
  change (is_route_expr (route_json x) = true).
  induction x as [all IH|any IH|x Hleaf] using RoutingFacts.route_ind.
  - simpl. apply forallb_forall. intros v Hv.
    apply in_map_iff in Hv as [c [<- Hc]].
    rewrite Forall_forall in IH. apply IH. by apply list_elem_of_In.
  - simpl. apply forallb_forall. intros v Hv.
    apply in_map_iff in Hv as [c [<- Hc]].
    rewrite Forall_forall in IH. apply IH. by apply list_elem_of_In.
  - destruct x; try discriminate;
      try (apply leaf_json_route; simpl; tauto).
    by destruct inverted as [[]|].
Qed.

End WireFacts.

(** * Further facts about the declarations *)

Module SchemaExtras.
Import Schema Statements ExtraStatements.

Lemma absent_not_present (k : string) (v : JValue) :
  absent (prop k v) = true -> present k v = false.
Proof. unfold present. by intros ->. Qed.

Lemma has_type_undefined_absent (k : string) (v x : JValue) :
  prop k v = Some x -> has_type TUndefined x = true -> present k v = false.
Proof. intros Hx Ht. unfold present. rewrite Hx. by destruct x. Qed.

(** X1: the events of the file are defined at the default [C = undefined],
    and there every envelope type is [ModuleConfigEnvelope<undefined>]: its
    [full] and [patch] can only be absent.  So the [config] of a commit or
    configured event, at module or capability level, has no payload and
    does not satisfy the envelope invariant. *)
Theorem defined_commit_has_no_payload (E : string) (T : Ty) (v : JValue) :
  In E ["module:configuration:commit";
        "module:configuration:configured";
        "module:contribute:capability:configuration:commit";
        "module:contribute:capability:configuration:configured"] ->
  payload_in definedEvents E = Some T ->
  has_type T v = true ->
  exists config,
    prop "config" v = Some config
    /\ has_type (ModuleConfigEnvelope TUndefined) config = true
    /\ present "full" config = false
    /\ present "patch" config = false
    /\ envelope_invariant config = false.
Proof.
  intros HE HT H.
  assert (exists fs, T = TObject fs
                     /\ field_in fs "config" = Some (false, ModuleConfigEnvelope TUndefined))
    as (fs & -> & Hf).
  { simpl in HE.
    repeat (destruct HE as [<-|HE];
            [injection HT as <-; eexists; split; reflexivity|]).
    destruct HE. }
  destruct (has_type_required _ _ _ _ H Hf) as [config [Hc Ht]].
  exists config. split; [done|]. split; [done|].
  assert (present "full" config = false) as Hfull.
  { destruct (has_type_optional _ _ "full" TUndefined Ht eq_refl) as [Ha|[x [Hx Hxt]]].
    - by apply absent_not_present.
    - by eapply has_type_undefined_absent. }
  assert (present "patch" config = false) as Hpatch.
  { destruct (has_type_optional _ _ "patch" TUndefined Ht eq_refl) as [Ha|[x [Hx Hxt]]].
    - by apply absent_not_present.
    - by eapply has_type_undefined_absent. }
  split; [done|]. split; [done|].
  unfold envelope_invariant. by rewrite Hfull, Hpatch.
Qed.

Lemma defined_commit_has_no_payload_witness :
  payload_in definedEvents "module:configuration:commit"
  = Some (ModuleConfigurationCommitEvent TUndefined)
  /\ exists config,
       prop "config" (JObj [("identity", Samples.identity);
                            ("config", Samples.envelope_without_payload)])
       = Some config
       /\ present "full" config = false.
Proof.
  split; [reflexivity|].
  destruct (defined_commit_has_no_payload "module:configuration:commit" _
              (JObj [("identity", Samples.identity);
                     ("config", Samples.envelope_without_payload)])
              (or_introl eq_refl) eq_refl eq_refl) as (config & Hc & _ & Hf & _).
  exists config. split; [exact Hc|exact Hf].
Defined.

Lemma payload_in_In (table : list (string * Ty)) (E : string) (T : Ty) :
  NoDup (map fst table) ->
  payload_in table E = Some T <-> In (E, T) table.
Proof.
  induction table as [|[n t] table IH]; simpl; intros Hnd.
  - split; [discriminate|tauto].
  - apply NoDup_cons in Hnd as [Hn Hnd]. destruct (String.eqb E n) eqn:Heq.
    + apply String.eqb_eq in Heq. subst n. split.
      * intros [= ->]. by left.
      * intros [[= ->]|Hin]; [done|]. destruct Hn.
        apply list_elem_of_In, in_map_iff. by exists (E, T).
    + apply String.eqb_neq in Heq. rewrite (IH Hnd). split; [tauto|].
      intros [[= -> ->]|Hin]; [done|done].
Qed.

Lemma payload_in_perm (l1 l2 : list (string * Ty)) (E : string) :
  NoDup (map fst l1) -> l1 ≡ₚ l2 -> payload_in l1 E = payload_in l2 E.
Proof.
  intros Hnd Hperm.
  assert (NoDup (map fst l2)) as Hnd2.
  { assert (map fst l1 ≡ₚ map fst l2) as Hm by (by apply Permutation_map).
    by rewrite <- Hm. }
  destruct (payload_in l1 E) as [T|] eqn:H1.
  - symmetry. apply payload_in_In; [done|].
    apply payload_in_In in H1; [|done].
    eapply Permutation_in; [exact Hperm|done].
  - destruct (payload_in l2 E) as [T|] eqn:H2; [|done].
    apply payload_in_In in H2; [|done].
    assert (In (E, T) l1) as Hin.
    { eapply Permutation_in; [symmetry; exact Hperm|done]. }
    apply payload_in_In in Hin; [|done]. congruence.
Qed.

(** X2: every event is defined once and the definitions are the catalogue:
    the names given to [defineEventa] have no repetition, the keys of
    [ProtocolEvents] have none, the two tables hold the same
    (name, payload) pairs at [C = undefined], and so a name has the same
    payload in both. *)
Theorem defined_events_are_the_catalogue :
  NoDup (map fst definedEvents)
  /\ NoDup ProtocolEventNames
  /\ definedEvents ≡ₚ ProtocolEvents TUndefined
  /\ (forall E, payload_in definedEvents E = payload_of TUndefined E).
Proof.
  assert (NoDup (map fst definedEvents)) as Hnd.
  { apply (bool_decide_unpack _). vm_compute. exact I. }
  assert (definedEvents ≡ₚ ProtocolEvents TUndefined) as Hperm.
  { unfold definedEvents, ProtocolEvents.
    symmetry.
    apply (Permutation_cons_app
             [("module:authenticate", ModuleAuthenticateEvent);
              ("module:authenticated", ModuleAuthenticatedEvent);
              ("module:compatibility:request", ModuleCompatibilityRequestEvent);
              ("module:compatibility:result", ModuleCompatibilityResultEvent);
              ("registry:modules:sync", RegistryModulesSyncEvent)]).
    reflexivity. }
  split; [done|]. split; [|split; [done|]].
  - rewrite <- (SchemaFacts.protocol_event_names TUndefined).
    assert (map fst definedEvents ≡ₚ map fst (ProtocolEvents TUndefined)) as Hm
      by (by apply Permutation_map).
    by rewrite <- Hm.
  - intros E. by apply payload_in_perm.
Qed.

Lemma has_string_prop (k : string) (v : JValue) :
  has_type (TObject [req k TString]) v = true <-> exists s, prop k v = Some (JStr s).
Proof.
  split.
  - intros H. destruct (has_type_required _ _ k TString H) as [x [Hx Ht]].
    { simpl. by rewrite String.eqb_refl. }
    apply is_string_inv in Ht as [s ->]. eauto.
  - intros [s Hs]. destruct v; try discriminate. simpl in *. by rewrite Hs.
Qed.

Lemma input_context_update_parts (v : JValue) :
  has_type InputContextUpdate v
  = has_type (Omit FullContextUpdate ["id"; "contextId"]) v
    && has_type (TObject [opt "id" TString; opt "contextId" TString]) v.
Proof.
  change (has_type InputContextUpdate v)
    with (has_type (Omit FullContextUpdate ["id"; "contextId"]) v
          && (has_type (TObject [opt "id" TString; opt "contextId" TString]) v && true)).
  by rewrite andb_true_r.
Qed.

Lemma full_context_update_parts (v : JValue) :
  has_type FullContextUpdate v
  = has_type (Omit FullContextUpdate ["id"; "contextId"]) v
    && has_type (TObject [req "contextId" TString]) v
    && has_type (TObject [req "id" TString]) v.
Proof.
  unfold FullContextUpdate at 1. unfold ContextUpdate.
  rewrite (SchemaFacts.has_type_split_field "id").
  rewrite (SchemaFacts.has_type_split_field "contextId" (drop_field "id" _)).
  reflexivity.
Qed.

(** X3: [InputContextUpdate] is [ContextUpdate] with [id] and [contextId]
    made optional, and nothing else changed: a value is a [ContextUpdate]
    exactly when it is an [InputContextUpdate] whose [id] and [contextId]
    are strings. *)
Theorem input_context_update_relaxes_ids (v : JValue) :
  has_type FullContextUpdate v = true
  <-> has_type InputContextUpdate v = true
      /\ (exists s, prop "id" v = Some (JStr s))
      /\ (exists s, prop "contextId" v = Some (JStr s)).
Proof.
  rewrite <- !has_string_prop.
  rewrite full_context_update_parts, input_context_update_parts.
  destruct (has_type (Omit FullContextUpdate ["id"; "contextId"]) v);
    destruct (has_type (TObject [req "id" TString]) v) eqn:Hid;
    destruct (has_type (TObject [req "contextId" TString]) v) eqn:Hcid;
    simpl; try tauto; try (split; [discriminate|]; intros (? & ? & ?); discriminate).
  split; [intros _|done]. split; [|done].
  destruct v; try discriminate. simpl in *.
  destruct (get_prop "id" props) as [[]|]; try discriminate.
  destruct (get_prop "contextId" props) as [[]|]; try discriminate. reflexivity.
Qed.

(** X4: the [type] of an [InputEventEnvelope] names the catalogue event
    whose payload its [data] is: the envelope has one of the three input
    event names as [type], and [data] of the type [ProtocolEvents] gives
    that name. *)
Theorem input_envelope_data_is_catalogue_payload (C : Ty) (v : JValue) :
  has_type InputEventEnvelope v = true ->
  exists (name : string) (data : JValue) (T : Ty),
    prop "type" v = Some (JStr name)
    /\ In name ["input:text"; "input:text:voice"; "input:voice"]
    /\ prop "data" v = Some data
    /\ payload_of C name = Some T
    /\ has_type T data = true.
Proof.
  intros H. unfold InputEventEnvelope in H.
  change (has_type (TUnion ?l) v) with (existsb (fun t => has_type t v) l) in H.
  apply existsb_exists in H as [t [Hin Ht]]. simpl in Hin.
  assert (forall name T,
             t = TObject [req "type" (TLit name); req "data" T] ->
             prop "type" v = Some (JStr name)
             /\ exists data, prop "data" v = Some data /\ has_type T data = true) as Hcase.
  { intros name T ->.
    destruct (has_type_required _ _ "type" (TLit name) Ht eq_refl) as [x [Hx Hxt]].
    destruct (has_type_required _ _ "data" T Ht eq_refl) as [d [Hd Hdt]].
    split; [|eauto]. rewrite Hx. simpl in Hxt. destruct x; try discriminate.
    apply String.eqb_eq in Hxt. by subst. }
  destruct Hin as [<-|[<-|[<-|[]]]];
    edestruct Hcase as [Htype [data [Hd Hdt]]]; try reflexivity;
    eexists _, data, _; (split; [exact Htype|]); (split; [simpl; tauto|]);
    (split; [exact Hd|]); (split; [reflexivity|exact Hdt]).
Qed.

Lemma input_envelope_data_is_catalogue_payload_witness :
  has_type InputEventEnvelope
    (JObj [("type", JStr "input:text"); ("data", JObj [("text", JStr "hello")])]) = true
  /\ exists T, payload_of TUndefined "input:text" = Some T
               /\ has_type T (JObj [("text", JStr "hello")]) = true.
Proof.
  split; [reflexivity|].
  destruct (input_envelope_data_is_catalogue_payload TUndefined
              (JObj [("type", JStr "input:text"); ("data", JObj [("text", JStr "hello")])])
              eq_refl) as (name & data & T & Htype & _ & Hd & HT & Ht).
  injection Htype as <-. injection Hd as <-. eauto.
Defined.

Lemma payload_in_In_fst (table : list (string * Ty)) (E : string) (T : Ty) :
  payload_in table E = Some T -> In E (map fst table).
Proof.
  induction table as [|[n t] table IH]; simpl; [discriminate|].
  destruct (String.eqb E n) eqn:Heq.
  - apply String.eqb_eq in Heq. by left.
  - intros H. right. by apply IH.
Qed.

Lemma requires_object_inv (t : Ty) (v : JValue) :
  requires_object t = true -> has_type t v = true -> exists ps, v = JObj ps.
Proof.
  induction t as [t Hne|parts IH] using SchemaFacts.Ty_inter_ind.
  - destruct t; try discriminate; [|by destruct (Hne parts)].
    intros _. apply has_type_object_inv.
  - simpl. intros Hex H. apply existsb_exists in Hex as [p [Hp Hreq]].
    rewrite Forall_forall in IH. apply (IH p); [by apply list_elem_of_In|done|].
    rewrite forallb_forall in H. by apply H.
Qed.

Lemma catalogue_requires_object (C : Ty) (E : string) (T : Ty) :
  payload_of C E = Some T -> requires_object T = true.
Proof.
  apply (SchemaFacts.payload_in_Forall (fun t => requires_object t = true)).
  repeat constructor.
Qed.

Lemma omit_weakens (names : list string) (t : Ty) (v : JValue) :
  object_like t = true -> has_type t v = true -> has_type (Omit t names) v = true.
Proof.
  induction t as [t Hne|parts IH] using SchemaFacts.Ty_inter_ind.
  - destruct t; try discriminate; [|by destruct (Hne parts)].
    intros _. destruct v; try discriminate. simpl.
    rewrite !forallb_forall. intros H f Hf. apply H.
    by apply filter_In in Hf as [Hf _].
  - simpl. intros Hobj. rewrite !forallb_forall in *. intros H q Hq.
    apply in_map_iff in Hq as [p [<- Hp]].
    rewrite Forall_forall in IH. apply IH; [by apply list_elem_of_In|by apply Hobj|by apply H].
Qed.

(** X5: [ProtocolEventOf] is [never] exactly for the names outside the
    catalogue; for a name of the catalogue it accepts every value of the
    payload type whose [metadata] is absent or an object. *)
Theorem protocol_event_of_accepts_payloads (C : Ty) (E : string) :
  (ProtocolEventOf E C = None <-> ~ In E ProtocolEventNames)
  /\ (forall T v,
        payload_of C E = Some T ->
        has_type T v = true ->
        present "metadata" v = false \/ (exists ps, prop "metadata" v = Some (JObj ps)) ->
        exists T', ProtocolEventOf E C = Some T' /\ has_type T' v = true).
Proof.
  split.
  - unfold ProtocolEventOf, payload_of. split.
    + intros H Hin. rewrite <- (SchemaFacts.protocol_event_names C) in Hin.
      apply SchemaFacts.payload_in_names in Hin as [T HT]. by rewrite HT in H.
    + intros Hout. destruct (payload_in (ProtocolEvents C) E) as [T|] eqn:HT; [|done].
      destruct Hout. rewrite <- (SchemaFacts.protocol_event_names C).
      apply payload_in_In_fst in HT. exact HT.
  - intros T v HT H Hmeta. unfold ProtocolEventOf. rewrite HT. eexists. split; [done|].
    rewrite SchemaFacts.has_type_inter2.
    rewrite omit_weakens; [|by eapply SchemaFacts.catalogue_object_like|done].
    destruct (requires_object_inv T v) as [ps ->];
      [by eapply catalogue_requires_object|done|].
    simpl. rewrite andb_true_r. unfold present in Hmeta. simpl in Hmeta.
    destruct Hmeta as [Ha|[qs Hq]].
    + destruct (get_prop "metadata" ps) as [[]|]; try discriminate; reflexivity.
    + rewrite Hq. simpl. rewrite orb_false_r. by apply forallb_forall.
Qed.

Lemma protocol_event_of_accepts_payloads_witness :
  exists T', ProtocolEventOf "spark:emit" TUndefined = Some T'
             /\ has_type T' Samples.emit = true.
Proof.
  destruct (protocol_event_of_accepts_payloads TUndefined "spark:emit") as [_ H].
  apply (H _ Samples.emit eq_refl); [vm_compute; reflexivity|left; reflexivity].
Defined.

End SchemaExtras.

(** * The context bridge *)

Module BridgeFacts.
Import Schema ExtraStatements Bridge.

Lemma get_cons (k n : string) (x : JValue) (ps : list (string * JValue)) :
  get n (JObj ((k, x) :: ps)) = if String.eqb n k then x else get n (JObj ps).
Proof. unfold get. simpl. by destruct (String.eqb n k). Qed.

Lemma get_own_props (k : string) (v : JValue) :
  get k (JObj (own_props v)) = get k v.
Proof. by destruct v. Qed.

Lemma coalesce_not_nullish (v d : JValue) :
  nullish d = false -> nullish (coalesce v d) = false.
Proof. unfold coalesce. by destruct (nullish v) eqn:E. Qed.

Lemma normalize_update_ids_helper (fresh : string) (update : JValue) :
  nullish (get "id" (normalize_update fresh update)) = false
  /\ nullish (get "contextId" (normalize_update fresh update)) = false.
Proof.
  unfold normalize_update.
  change (get "id" (JObj (("id", ?x) :: _))) with x.
  change (get "contextId" (JObj (_ :: ("contextId", ?y) :: _))) with y.
  split; repeat apply coalesce_not_nullish; done.
Qed.

(** X6: normalizing a context update that is an object (lines 714-722)
    gives it an [id] and a [contextId]: a given [id] or [contextId] is
    kept, a missing [id] is the fresh one, a missing [contextId] is the
    [id], every other property is as it was, and normalizing again changes
    nothing.  On [null] and [undefined], and on them only, the callback
    throws, and with it the map over an array that holds one. *)
Theorem normalize_update_ids (fresh : string) (props : list (string * JValue)) :
  let update := JObj props in
  let n := normalize_update fresh update in
  (nullish (get "id" n) = false /\ nullish (get "contextId" n) = false)
  /\ get "id" n = (if nullish (get "id" update) then JStr fresh else get "id" update)
  /\ get "contextId" n
     = (if nullish (get "contextId" update) then get "id" n else get "contextId" update)
  /\ (forall k, k <> "id" -> k <> "contextId" -> get k n = get k update)
  /\ (forall fresh' k, get k (normalize_update fresh' n) = get k n)
  /\ (forall before after,
        map_throws (JArr (before ++ update :: after))
        = map_throws (JArr (before ++ after)))
  /\ (forall before after,
        map_throws (JArr (before ++ JNull :: after)) = true
        /\ map_throws (JArr (before ++ JUndefined :: after)) = true).
Proof.
  intros update n. subst update n. unfold normalize_update.
  set (update := JObj props).
  set (id := coalesce (get "id" update) (JStr fresh)).
  set (cid := coalesce (get "contextId" update) id).
  assert (nullish id = false) as Hid by (by apply coalesce_not_nullish).
  assert (nullish cid = false) as Hcid by (by apply coalesce_not_nullish).
  assert (get "id" (JObj (("id", id) :: ("contextId", cid) :: own_props update)) = id)
    as Hgid by reflexivity.
  assert (get "contextId" (JObj (("id", id) :: ("contextId", cid) :: own_props update)) = cid)
    as Hgcid by reflexivity.
  rewrite Hgid, Hgcid.
  split; [done|]. split; [done|]. split; [done|]. split; [|split; [|split]].
  - intros k Hk1 Hk2. rewrite !get_cons.
    apply String.eqb_neq in Hk1, Hk2. by rewrite Hk1, Hk2, get_own_props.
  - intros fresh' k. unfold coalesce at 1 2. rewrite Hid, Hcid.
    simpl own_props. rewrite !get_cons. by repeat case_match.
  - intros before after. cbn [map_throws]. by rewrite !existsb_app.
  - intros before after. cbn [map_throws]. rewrite !existsb_app. cbn [existsb nullish].
    by rewrite !orb_true_r.
Qed.

Lemma optional_string_get (fs : list Field) (v : JValue) (k : string) :
  has_type (TObject fs) v = true ->
  field_in fs k = Some (true, TString) ->
  get k v = JUndefined \/ exists s, get k v = JStr s.
Proof.
  intros H Hf. unfold get.
  destruct (has_type_optional _ _ _ _ H Hf) as [Ha|[x [-> Ht]]].
  - left. destruct (prop k v) as [[]|]; try discriminate; reflexivity.
  - right. by apply is_string_inv.
Qed.

Lemma optional_field_get (fs : list Field) (v : JValue) (k : string) (t : Ty) :
  has_type (TObject fs) v = true ->
  field_in fs k = Some (true, t) ->
  get k v = JUndefined \/ has_type t (get k v) = true.
Proof.
  intros H Hf. unfold get.
  destruct (has_type_optional _ _ _ _ H Hf) as [Ha|[x [-> Ht]]].
  - left. destruct (prop k v) as [[]|]; try discriminate; reflexivity.
  - by right.
Qed.

Lemma has_type_rest_with_ids (ps : list (string * JValue)) (x y : JValue) :
  has_type (Omit FullContextUpdate ["id"; "contextId"]) (JObj ps) = true ->
  has_type (Omit FullContextUpdate ["id"; "contextId"])
    (JObj (("id", x) :: ("contextId", y) :: ps)) = true.
Proof.
  intros H. etrans; [|exact H].
  etrans; [apply (SchemaFacts.has_type_fresh "id" (("contextId", y) :: ps))|
           apply (SchemaFacts.has_type_fresh "contextId" ps)];
    try reflexivity;
    intros n E; rewrite SchemaFacts.get_prop_with; by rewrite String.eqb_sym, E.
Qed.

Lemma normalize_update_typed_helper (fresh : string) (update : JValue) :
  has_type InputContextUpdate update = true ->
  has_type FullContextUpdate (normalize_update fresh update) = true.
Proof.
  intros H. rewrite SchemaExtras.input_context_update_parts in H.
  apply andb_true_iff in H as [Hrest Hids].
  destruct (has_type_object_inv _ _ Hids) as [ps ->].
  assert (exists a b, normalize_update fresh (JObj ps)
                      = JObj (("id", JStr a) :: ("contextId", JStr b) :: ps))
    as (a & b & ->).
  { unfold normalize_update, coalesce.
    destruct (optional_string_get _ _ "id" Hids eq_refl) as [Hid|[s Hid]];
      destruct (optional_string_get _ _ "contextId" Hids eq_refl) as [Hcid|[s' Hcid]];
      rewrite Hid, Hcid; eexists _, _; reflexivity. }
  rewrite SchemaExtras.full_context_update_parts.
  rewrite has_type_rest_with_ids by done. reflexivity.
Qed.

Lemma forallb_ext_in_fields (f g : Field -> bool) (l : list Field) :
  (forall a, In a l -> f a = g a) -> forallb f l = forallb g l.
Proof. apply SchemaFacts.forallb_ext_in. Qed.

Lemma context_message_get (metadata : JValue) (now : Z) (update : JValue) (k : string) :
  get k (context_message metadata now update)
  = if String.eqb k "metadata" then metadata
    else if String.eqb k "createdAt" then JNum now
    else get k update.
Proof.
  unfold context_message. rewrite !get_cons, get_own_props. reflexivity.
Qed.

Lemma normalize_from_length (nanoid : nat -> string) (i : nat) (updates : list JValue) :
  length (normalize_from nanoid i updates) = length updates.
Proof.
  revert i. induction updates as [|u updates IH]; intros i; simpl; [done|].
  by rewrite IH.
Qed.

Lemma normalize_from_ids (nanoid : nat -> string) (i : nat) (updates : list JValue) :
  Forall (fun u => nullish (get "id" u) = false /\ nullish (get "contextId" u) = false)
    (normalize_from nanoid i updates).
Proof.
  revert i. induction updates as [|u updates IH]; intros i; simpl; constructor.
  - apply (normalize_update_ids_helper (nanoid i) u).
  - apply IH.
Qed.

Lemma ingested_map (f : JValue -> JValue) (l : list JValue) (rest : list Effect) :
  ingested (map (fun u => IngestContextMessage (f u)) l ++ rest)
  = (map f l ++ ingested rest)%list.
Proof.
  induction l as [|u l IH]; simpl; [done|]. unfold ingested in *. simpl. by rewrite IH.
Qed.

Lemma forwarded_map (f : JValue -> JValue) (l : list JValue) (rest : list Effect) :
  forwarded (map (fun u => IngestContextMessage (f u)) l ++ rest) = forwarded rest.
Proof.
  induction l as [|u l IH]; simpl; [done|]. unfold forwarded in *. simpl. by rewrite IH.
Qed.

Lemma typed_updates_do_not_throw (updates : list JValue) :
  forallb (has_type InputContextUpdate) updates = true ->
  existsb nullish updates = false.
Proof.
  induction updates as [|u updates IH]; [done|].
  cbn [forallb existsb]. intros H. apply andb_true_iff in H as [Hu Hrest].
  rewrite (IH Hrest), orb_false_r.
  rewrite SchemaExtras.input_context_update_parts in Hu.
  apply andb_true_iff in Hu as [_ Hids].
  by destruct (has_type_object_inv _ _ Hids) as [ps ->].
Qed.

Lemma input_text_does_not_throw (data : JValue) :
  has_type WebSocketEventInputText data = true ->
  nullish data || map_throws (get "contextUpdates" data) = false.
Proof.
  intros H.
  change (has_type WebSocketEventInputText data)
    with (has_type WebSocketEventInputTextBase data
          && (has_type (Partial (WithInputSource AllInputSources)) data && true)) in H.
  apply andb_true_iff in H as [Hbase _].
  destruct (has_type_object_inv _ _ Hbase) as [ps ->]. cbn [nullish orb].
  destruct (optional_field_get _ _ "contextUpdates" _ Hbase eq_refl) as [->|Ht]; [done|].
  destruct (get "contextUpdates" (JObj ps)); try discriminate.
  by apply typed_updates_do_not_throw.
Qed.

(** X7: what the [input:text] handler ingests (lines 706-789).  On a [data]
    that is [null] or [undefined], or whose [contextUpdates] make the map
    throw, the handler throws before it has called anything.  On a [data]
    of the event's type, [WebSocketEventInputText], it ingests one context
    message per received context update, each with the event's [metadata],
    the one [createdAt], an [id] and a [contextId].  It then hands the
    input to the chat once when a provider and a model are active, the
    provider instance is obtained and the lock interface exists, and not
    otherwise; it throws, after the context messages, exactly when a
    provider and a model are active and the provider instance is not
    obtained or the lock interface is missing.  The input it hands over
    carries the received text and the same updates, with the ids the
    context messages got. *)
Theorem input_text_ingests_what_it_forwards
    (nanoid : nat -> string) (now : Z) (activeProvider activeModel : JValue)
    (chatProvider : option JValue) (locks : bool) (event : JValue) :
  let outcome :=
    on_input_text nanoid now activeProvider activeModel chatProvider locks event in
  let effects := effects_of outcome in
  let data := get "data" event in
  (nullish data = true \/ map_throws (get "contextUpdates" data) = true ->
     outcome = Throws [])
  /\ (has_type WebSocketEventInputText data = true ->
      length (ingested effects) = length (items (get "contextUpdates" data))
      /\ Forall (fun m => get "metadata" m = get "metadata" event
                          /\ get "createdAt" m = JNum now
                          /\ nullish (get "id" m) = false
                          /\ nullish (get "contextId" m) = false) (ingested effects)
      /\ length (forwarded effects)
         = (if truthy activeProvider && truthy activeModel && resolved chatProvider && locks
            then 1 else 0)%nat
      /\ returns outcome
         = negb (truthy activeProvider && truthy activeModel
                 && negb (resolved chatProvider && locks))
      /\ Forall (fun input =>
                   get "type" input = JStr "input:text"
                   /\ get "text" (get "data" input) = get "text" data
                   /\ map (get "id") (items (get "contextUpdates" (get "data" input)))
                      = map (get "id") (ingested effects)
                   /\ map (get "contextId") (items (get "contextUpdates" (get "data" input)))
                      = map (get "contextId") (ingested effects)) (forwarded effects)).
Proof.
  intros outcome effects data. subst effects outcome. unfold on_input_text. fold data.
  split.
  - intros [H|H]; rewrite H; [done|by rewrite orb_true_r].
  - intros Htyped. rewrite (input_text_does_not_throw data Htyped).
    set (normalized := normalizedContextUpdates nanoid (get "contextUpdates" data)).
    set (messages := map _ (items normalized)).
    assert (length (items normalized) = length (items (get "contextUpdates" data))) as Hlen.
    { subst normalized. unfold normalizedContextUpdates.
      destruct (get "contextUpdates" data); try done. simpl. apply normalize_from_length. }
    assert (Forall (fun u => nullish (get "id" u) = false
                             /\ nullish (get "contextId" u) = false)
              (items normalized)) as Hids.
    { subst normalized. unfold normalizedContextUpdates.
      destruct (get "contextUpdates" data); try constructor. simpl. apply normalize_from_ids. }
    assert (ingested messages
            = map (context_message (get "metadata" event) now) (items normalized)) as Hing.
    { subst messages. rewrite <- (app_nil_r (map _ (items normalized))) at 1.
      rewrite ingested_map. by rewrite app_nil_r. }
    assert (forwarded messages = []) as Hfw.
    { subst messages. rewrite <- (app_nil_r (map _ (items normalized))).
      by rewrite forwarded_map. }
    assert (Forall (fun m => get "metadata" m = get "metadata" event
                             /\ get "createdAt" m = JNum now
                             /\ nullish (get "id" m) = false
                             /\ nullish (get "contextId" m) = false)
              (map (context_message (get "metadata" event) now) (items normalized)))
      as Hmsgs.
    { apply Forall_map. eapply Forall_impl; [exact Hids|].
      intros u [Hid Hcid]. rewrite !context_message_get. simpl. done. }
    destruct (truthy activeProvider && truthy activeModel);
      [destruct chatProvider as [provider|]; [destruct locks|]|];
      cbn [effects_of returns resolved andb negb].
    + subst messages. rewrite ingested_map, forwarded_map. cbn [ingested forwarded flat_map].
      rewrite app_nil_r, length_map.
      split; [done|]. split; [done|]. split; [done|]. split; [done|].
      constructor; [|constructor]. split; [done|]. split; [done|].
      change (get "contextUpdates" (get "data" (ingest_input data normalized)))
        with normalized.
      rewrite !map_map. split; apply map_ext; intros u; by rewrite context_message_get.
    + rewrite Hing, Hfw, length_map. by repeat split.
    + rewrite Hing, Hfw, length_map. by repeat split.
    + rewrite Hing, Hfw, length_map. by repeat split.
Qed.

Lemma input_text_ingests_what_it_forwards_witness :
  length (forwarded (effects_of
    (on_input_text (fun _ => "V1StGXR8") 1700000000000 (JStr "openai") (JStr "gpt-4o")
       (Some (JObj [])) true
       (JObj [("type", JStr "input:text");
              ("data", JObj [("text", JStr "hello");
                             ("contextUpdates",
                              JArr [JObj [("strategy", JStr "append-self");
                                          ("text", JStr "witch nearby")]])])]))))
  = 1%nat.
Proof.
  destruct (input_text_ingests_what_it_forwards (fun _ => "V1StGXR8") 1700000000000
              (JStr "openai") (JStr "gpt-4o") (Some (JObj [])) true
              (JObj [("type", JStr "input:text");
                     ("data", JObj [("text", JStr "hello");
                                    ("contextUpdates",
                                     JArr [JObj [("strategy", JStr "append-self");
                                                 ("text", JStr "witch nearby")]])])]))
    as [_ H].
  destruct (H eq_refl) as (_ & _ & Hf & _). exact Hf.
Defined.

Lemma normalize_from_typed (nanoid : nat -> string) (i : nat) (updates : list JValue) :
  forallb (has_type InputContextUpdate) updates = true ->
  forallb (has_type FullContextUpdate) (normalize_from nanoid i updates) = true.
Proof.
  revert i. induction updates as [|u updates IH]; intros i; [done|].
  cbn [normalize_from forallb]. intros H. apply andb_true_iff in H as [Hu Hrest].
  apply andb_true_iff. split; [by apply normalize_update_typed_helper|by apply IH].
Qed.

(** X8: normalizing turns [InputContextUpdate]s into [ContextUpdate]s: an
    array of the received type becomes an array of full context updates of
    the same length, and [undefined] stays [undefined]. *)
Theorem normalized_updates_are_context_updates (nanoid : nat -> string) (contextUpdates : JValue) :
  contextUpdates = JUndefined \/ has_type (TArray InputContextUpdate) contextUpdates = true ->
  let normalized := normalizedContextUpdates nanoid contextUpdates in
  (contextUpdates = JUndefined -> normalized = JUndefined)
  /\ (forall updates, contextUpdates = JArr updates ->
        exists l, normalized = JArr l
                  /\ length l = length updates
                  /\ Forall (fun u => has_type FullContextUpdate u = true) l).
Proof.
  intros H normalized. subst normalized. split; [by intros ->|].
  intros updates ->. destruct H as [H|H]; [discriminate|].
  eexists. split; [reflexivity|]. split; [apply normalize_from_length|].
  apply Forall_forall. intros u Hu. apply list_elem_of_In in Hu.
  pose proof (normalize_from_typed nanoid 0 updates H) as Hall.
  rewrite forallb_forall in Hall. by apply Hall.
Qed.

Lemma normalized_updates_are_context_updates_witness :
  has_type (TArray InputContextUpdate)
    (JArr [JObj [("strategy", JStr "append-self"); ("text", JStr "witch nearby")]]) = true
  /\ exists l,
       normalizedContextUpdates (fun _ => "V1StGXR8")
         (JArr [JObj [("strategy", JStr "append-self"); ("text", JStr "witch nearby")]])
       = JArr l
       /\ Forall (fun u => has_type FullContextUpdate u = true) l.
Proof.
  split; [reflexivity|].
  destruct (normalized_updates_are_context_updates (fun _ => "V1StGXR8")
              (JArr [JObj [("strategy", JStr "append-self"); ("text", JStr "witch nearby")]])
              (or_intror eq_refl)) as [_ Harr].
  destruct (Harr _ eq_refl) as (l & Hl & _ & Hall). eauto.
Defined.

Lemma full_is_input (v : JValue) :
  has_type FullContextUpdate v = true -> has_type InputContextUpdate v = true.
Proof.
  rewrite SchemaExtras.full_context_update_parts, SchemaExtras.input_context_update_parts.
  intros H. apply andb_true_iff in H as [H Hid]. apply andb_true_iff in H as [-> Hcid].
  destruct v; try discriminate. simpl in *.
  destruct (get_prop "id" props) as [[]|]; try discriminate.
  destruct (get_prop "contextId" props) as [[]|]; try discriminate. reflexivity.
Qed.

Lemma field_ok_get (t : Ty) (x : JValue) :
  x = JUndefined \/ has_type t x = true ->
  field_ok (has_type t) true (Some x) = true.
Proof.
  intros [->|H]; unfold field_ok; [|by rewrite H].
  simpl. by rewrite orb_true_r.
Qed.

(** X9: the input the handler forwards is an [InputEventEnvelope] whenever
    the data it received is a [WebSocketEventInputText], and every context
    update in it is then a full [ContextUpdate]. *)
Theorem forwarded_input_is_input_envelope (nanoid : nat -> string) (data : JValue) :
  has_type WebSocketEventInputText data = true ->
  let input := ingest_input data (normalizedContextUpdates nanoid (get "contextUpdates" data)) in
  has_type InputEventEnvelope input = true
  /\ Forall (fun u => has_type FullContextUpdate u = true)
       (items (get "contextUpdates" (get "data" input))).
Proof.
  intros H input. subst input.
  change (has_type WebSocketEventInputText data)
    with (has_type WebSocketEventInputTextBase data
          && (has_type (Partial (WithInputSource AllInputSources)) data && true)) in H.
  apply andb_true_iff in H as [Hbase Hsrc]. rewrite andb_true_r in Hsrc.
  destruct (has_type_object_inv _ _ Hbase) as [ps ->].
  set (normalized := normalizedContextUpdates nanoid (get "contextUpdates" (JObj ps))).
  assert (normalized = JUndefined
          \/ exists l, normalized = JArr l
                       /\ forallb (has_type FullContextUpdate) l = true) as Hnorm.
  { subst normalized.
    destruct (optional_field_get _ _ "contextUpdates" _ Hbase eq_refl) as [->|Ht]; [by left|].
    destruct (get "contextUpdates" (JObj ps)); try discriminate.
    right. eexists. split; [reflexivity|]. by apply normalize_from_typed. }
  split.
  - assert (has_type WebSocketEventInputText (get "data" (ingest_input (JObj ps) normalized))
            = true) as Hdata; [|by (simpl in *; rewrite Hdata)].
    change (get "data" (ingest_input (JObj ps) normalized))
      with (JObj (("text", get "text" (JObj ps))
                  :: ("textRaw", get "textRaw" (JObj ps))
                  :: ("overrides", get "overrides" (JObj ps))
                  :: ("contextUpdates", normalized) :: ps)).
    change (has_type WebSocketEventInputText ?v)
      with (has_type WebSocketEventInputTextBase v
            && (has_type (Partial (WithInputSource AllInputSources)) v && true)).
    apply andb_true_iff. split; [|rewrite andb_true_r].
    + apply WireFacts.has_type_object_intro. intros n o t Hin.
      simpl in Hin. unfold req, opt in Hin.
      destruct Hin as [[= <- <- <-]|[[= <- <- <-]|[[= <- <- <-]|[[= <- <- <-]|[]]]]].
      * destruct (has_type_required _ _ "text" TString Hbase eq_refl) as [x [Hx Ht]].
        apply WireFacts.field_ok_typed. unfold get. rewrite Hx. exact Ht.
      * apply field_ok_get. apply (optional_field_get _ _ "textRaw" TString Hbase eq_refl).
      * apply field_ok_get.
        apply (optional_field_get _ _ "overrides" InputMessageOverrides Hbase eq_refl).
      * apply field_ok_get. destruct Hnorm as [->|(l & -> & Hl)]; [by left|right].
        simpl. rewrite forallb_forall in *. intros u Hu. apply full_is_input. by apply Hl.
    + etrans; [|exact Hsrc]. apply forallb_ext_in_fields. intros [n [o t]] Hin.
      simpl in Hin. unfold req, opt in Hin.
      destruct Hin as [[= <- <- <-]|[[= <- <- <-]|[[= <- <- <-]|[]]]]; reflexivity.
  - change (get "contextUpdates" (get "data" (ingest_input (JObj ps) normalized)))
      with normalized.
    destruct Hnorm as [->|(l & -> & Hl)]; [constructor|].
    simpl. apply Forall_forall. rewrite forallb_forall in Hl.
    intros u Hu. apply Hl. by apply list_elem_of_In.
Qed.

Lemma forwarded_input_is_input_envelope_witness :
  has_type WebSocketEventInputText
    (JObj [("text", JStr "hello");
           ("contextUpdates", JArr [JObj [("strategy", JStr "append-self");
                                          ("text", JStr "witch nearby")]])]) = true
  /\ has_type InputEventEnvelope
       (ingest_input
          (JObj [("text", JStr "hello");
                 ("contextUpdates", JArr [JObj [("strategy", JStr "append-self");
                                                ("text", JStr "witch nearby")]])])
          (normalizedContextUpdates (fun _ => "V1StGXR8")
             (JArr [JObj [("strategy", JStr "append-self");
                          ("text", JStr "witch nearby")]]))) = true.
Proof.
  split; [reflexivity|].
  apply (forwarded_input_is_input_envelope (fun _ => "V1StGXR8")
           (JObj [("text", JStr "hello");
                  ("contextUpdates", JArr [JObj [("strategy", JStr "append-self");
                                                 ("text", JStr "witch nearby")]])])).
  reflexivity.
Defined.


Lemma input_envelope_sources (input : JValue) :
  has_type InputEventEnvelope input = true ->
  exists ps data,
    input = JObj ps
    /\ prop "data" input = Some data
    /\ has_type (Partial (WithInputSource AllInputSources)) data = true.
Proof.
  intros H. unfold InputEventEnvelope in H.
  change (has_type (TUnion ?l) input) with (existsb (fun t => has_type t input) l) in H.
  apply existsb_exists in H as [t [Hin Ht]]. simpl in Hin.
  assert (forall name base,
             t = TObject [req "type" (TLit name);
                          req "data" (TInter [base; Partial (WithInputSource AllInputSources)])] ->
             exists ps data,
               input = JObj ps
               /\ prop "data" input = Some data
               /\ has_type (Partial (WithInputSource AllInputSources)) data = true) as Hcase.
  { intros name base ->. destruct (has_type_object_inv _ _ Ht) as [ps ->].
    destruct (has_type_required _ _ "data" _ Ht eq_refl) as [d [Hd Hdt]].
    exists ps, d. split; [done|]. split; [done|].
    change (has_type (TInter [?a; ?b]) d) with (has_type a d && (has_type b d && true)) in Hdt.
    apply andb_true_iff in Hdt as [_ Hdt]. by rewrite andb_true_r in Hdt. }
  destruct Hin as [<-|[<-|[<-|[]]]]; eapply Hcase; reflexivity.
Qed.

Lemma spread_input_discord (input : JValue) :
  input = JUndefined \/ has_type InputEventEnvelope input = true ->
  field_ok (has_type Discord) true (get_prop "discord" (own_props (chain "data" input))) = true.
Proof.
  intros [->|H]; [reflexivity|].
  destruct (input_envelope_sources input H) as (ps & data & -> & Hd & Ht).
  unfold chain, get. simpl nullish. cbv iota. rewrite Hd.
  destruct (has_type_object_inv _ _ Ht) as [qs ->].
  apply (has_type_field _ _ "discord" true Discord Ht). simpl. tauto.
Qed.

(** X11: the chat events the bridge sends (lines 919-962) carry the input
    they answer.  When the [input] of the chat context is [undefined] or an
    [InputEventEnvelope], the [data] of both events has the input sources
    of its payload type ([stage-web], [stage-tamagotchi] and the input's
    [discord]); the properties the handlers write win over the input's
    ([message], the sources, [gen-ai:chat] with the context's [input], and
    on a completed turn no tool calls and a usage that is an
    [OutputGenAiChatUsage]); every other property of [data] is the one of
    the input's [data]. *)
Theorem chat_outputs_carry_the_input
    (stageWeb stageTamagotchi : bool) (message : JValue)
    (chat context : list (string * JValue)) :
  let input := get "input" (JObj context) in
  input = JUndefined \/ has_type InputEventEnvelope input = true ->
  let sent :=
    get "data" (assistant_message_event stageWeb stageTamagotchi message (JObj context)) in
  let done :=
    get "data" (chat_turn_complete_event stageWeb stageTamagotchi (JObj chat) (JObj context)) in
  (has_type (Partial (WithInputSource AllInputSources)) sent = true
   /\ has_type (Partial (WithInputSource AllInputSources)) done = true)
  /\ (get "message" sent = message /\ get "message" done = get "output" (JObj chat))
  /\ (get "stage-web" sent = JBool stageWeb
      /\ get "stage-tamagotchi" sent = JBool stageTamagotchi
      /\ get "stage-web" done = JBool stageWeb
      /\ get "stage-tamagotchi" done = JBool stageTamagotchi)
  /\ (get "toolCalls" done = JArr []
      /\ has_type OutputGenAiChatUsage (get "usage" done) = true)
  /\ (get "input" (get "gen-ai:chat" sent) = input
      /\ get "input" (get "gen-ai:chat" done) = input)
  /\ (forall k, ~ In k ["message"; "stage-web"; "stage-tamagotchi"; "gen-ai:chat"] ->
                get k sent = get k (chain "data" input))
  /\ (forall k, ~ In k ["message"; "toolCalls"; "stage-web"; "stage-tamagotchi";
                        "usage"; "gen-ai:chat"] ->
                get k done = get k (chain "data" input)).
Proof.
  intros input Hin sent done. subst sent done.
  pose proof (spread_input_discord _ Hin) as Hdiscord. fold input in Hdiscord.
  set (spread := own_props (chain "data" input)) in *.
  assert (forall ps : list (string * JValue),
             get_prop "discord" ps = get_prop "discord" spread ->
             get_prop "stage-web" ps = Some (JBool stageWeb) ->
             get_prop "stage-tamagotchi" ps = Some (JBool stageTamagotchi) ->
             has_type (Partial (WithInputSource AllInputSources)) (JObj ps) = true) as Hsrc.
  { intros ps Hd Hw Ht. apply WireFacts.has_type_object_intro. intros n o t Hf.
    simpl in Hf. destruct Hf as [[= <- <- <-]|[[= <- <- <-]|[[= <- <- <-]|[]]]].
    - by rewrite Hw.
    - by rewrite Ht.
    - by rewrite Hd. }
  change (get "data" (assistant_message_event stageWeb stageTamagotchi message (JObj context)))
    with (JObj (("message", message)
                :: ("stage-web", JBool stageWeb)
                :: ("stage-tamagotchi", JBool stageTamagotchi)
                :: ("gen-ai:chat", gen_ai_chat (JObj context)) :: spread)).
  change (get "data" (chat_turn_complete_event stageWeb stageTamagotchi (JObj chat)
                        (JObj context)))
    with (JObj (("message", get "output" (JObj chat))
                :: ("toolCalls", JArr [])
                :: ("stage-web", JBool stageWeb)
                :: ("stage-tamagotchi", JBool stageTamagotchi)
                :: ("usage", JObj [("promptTokens", JNum 0);
                                   ("completionTokens", JNum 0);
                                   ("totalTokens", JNum 0);
                                   ("source", JStr "estimate-based")])
                :: ("gen-ai:chat", gen_ai_chat (JObj context)) :: spread)).
  split; [split; apply Hsrc; reflexivity|].
  split; [done|]. split; [done|]. split; [done|]. split; [done|].
  split; intros k Hk; rewrite !get_cons; subst spread; rewrite get_own_props;
    repeat match goal with
           | |- context [String.eqb k ?n] =>
               destruct (String.eqb_spec k n) as [->|_];
               [exfalso; apply Hk; simpl; tauto|]
           end;
    reflexivity.
Qed.

Lemma chat_outputs_carry_the_input_witness :
  get "discord"
    (get "data"
       (chat_turn_complete_event true false
          (JObj [("output", JObj [("role", JStr "assistant"); ("content", JStr "hello")])])
          (JObj [("message", JObj [("role", JStr "user"); ("content", JStr "hi")]);
                 ("composedMessage", JArr []);
                 ("contexts", JObj []);
                 ("input",
                  JObj [("type", JStr "input:text");
                        ("data", JObj [("text", JStr "hi");
                                       ("discord", JObj [("guildId", JStr "g1")])])])])))
  = JObj [("guildId", JStr "g1")].
Proof.
  destruct (chat_outputs_carry_the_input true false JNull
              [("output", JObj [("role", JStr "assistant"); ("content", JStr "hello")])]
              [("message", JObj [("role", JStr "user"); ("content", JStr "hi")]);
               ("composedMessage", JArr []);
               ("contexts", JObj []);
               ("input",
                JObj [("type", JStr "input:text");
                      ("data", JObj [("text", JStr "hi");
                                     ("discord", JObj [("guildId", JStr "g1")])])])]
              (or_intror eq_refl)) as (_ & _ & _ & _ & _ & _ & Hrest).
  rewrite (Hrest "discord"); [reflexivity|].
  simpl. intros [H|[H|[H|[H|[H|[H|[]]]]]]]; discriminate H.
Defined.

End BridgeFacts.

(** * Remote chat streams *)

Module RemoteStreamFacts.
Import RemoteStream.

Lemma stream_open_after_app (open : bool) (e1 e2 : list StreamEffect) :
  stream_open_after open (e1 ++ e2)
  = match stream_open_after open e1 with
    | Some open' => stream_open_after open' e2
    | None => None
    end.
Proof.
  revert open. induction e1 as [|e e1 IH]; intros open; simpl; [done|].
  destruct e; try apply IH; destruct open; try done; apply IH.
Qed.

Lemma guard_current_guarded (session : ChatSession) (g : option Guard) :
  guard_current session g = true -> guarded g = true.
Proof. by destruct g. Qed.

Lemma on_stream_event_open (session : ChatSession) (event : ChatStreamEvent)
    (g : option Guard) :
  stream_open_after (guarded g) (snd (on_stream_event session event g))
  = Some (guarded (fst (on_stream_event session event g))).
Proof.
  destruct event; simpl; try done;
    destruct (guard_current session g) eqn:Hg; simpl; try done;
    by rewrite (guard_current_guarded _ _ Hg).
Qed.

Lemma on_stream_events_cons (session : ChatSession) (event : ChatStreamEvent)
    (rest : list (ChatSession * ChatStreamEvent)) (g : option Guard) :
  on_stream_events ((session, event) :: rest) g
  = (fst (on_stream_events rest (fst (on_stream_event session event g))),
     (snd (on_stream_event session event g)
      ++ snd (on_stream_events rest (fst (on_stream_event session event g))))%list).
Proof.
  simpl. destruct (on_stream_event session event g) as [g1 e1]. simpl.
  by destruct (on_stream_events rest g1).
Qed.

Lemma on_stream_events_open (events : list (ChatSession * ChatStreamEvent))
    (g : option Guard) :
  stream_open_after (guarded g) (snd (on_stream_events events g))
  = Some (guarded (fst (on_stream_events events g))).
Proof.
  revert g. induction events as [|[session event] rest IH]; intros g; [done|].
  rewrite on_stream_events_cons. simpl.
  by rewrite stream_open_after_app, on_stream_event_open, IH.
Qed.

Lemma finalizations_bounded (open open' : bool) (effects : list StreamEffect) :
  stream_open_after open effects = Some open' ->
  (length (finalizations effects) + (if open' then 1 else 0)
   <= begins effects + (if open then 1 else 0))%nat.
Proof.
  revert open. induction effects as [|e effects IH]; intros open; simpl.
  - intros [= ->]. lia.
  - unfold finalizations, begins in *.
    destruct e; simpl; try apply IH.
    + intros H. specialize (IH true H). simpl in IH. destruct open; lia.
    + destruct open; [apply IH|discriminate].
    + destruct open; [|discriminate]. intros H. specialize (IH false H). simpl in IH. lia.
Qed.

(** X12: whatever events arrive and whatever the session store holds when
    each is handled, the chat stream is used in order: a literal is
    appended and the stream is finalized only after a [beginStream] that
    has not been finalized since, the guard is set exactly while such a
    stream is open, and the stream is finalized at most once per
    [beginStream]. *)
Theorem remote_stream_is_well_bracketed (events : list (ChatSession * ChatStreamEvent)) :
  let guard := fst (on_stream_events events None) in
  let effects := snd (on_stream_events events None) in
  stream_open_after false effects = Some (guarded guard)
  /\ (length (finalizations effects) <= begins effects)%nat.
Proof.
  intros guard effects. subst guard effects.
  pose proof (on_stream_events_open events None) as Hopen. simpl guarded at 1 in Hopen.
  split; [exact Hopen|].
  pose proof (finalizations_bounded _ _ _ Hopen) as Hb.
  destruct (guarded _); simpl in Hb; lia.
Qed.

Lemma appended_app (e1 e2 : list StreamEffect) :
  appended (e1 ++ e2) = (appended e1 ++ appended e2)%list.
Proof. unfold appended. by rewrite flat_map_app. Qed.

Lemma finalizations_app (e1 e2 : list StreamEffect) :
  finalizations (e1 ++ e2) = (finalizations e1 ++ finalizations e2)%list.
Proof. unfold finalizations. by rewrite flat_map_app. Qed.

(** X13: a window that stays on one session, whose generation does not
    change, shows of a remote stream exactly the literals that arrive after
    a [before-send] and before the first [stream-end] or [assistant-end]
    that follows it, and finalizes once per such stream: an [assistant-end]
    that comes after the [stream-end] of the same stream has no effect.
    The guard the window starts from is unset, or set and current. *)
Theorem stable_session_shows_open_literals (session : ChatSession)
    (events : list ChatStreamEvent) (g : option Guard) :
  getSessionGenerationValue session None
  = getSessionGenerationValue session (Some (activeSessionId session)) ->
  guard_current session g = guarded g ->
  let effects := snd (on_stream_events (map (pair session) events) g) in
  appended effects = shown_literals (guarded g) events
  /\ finalizations effects = shown_finalizations (guarded g) events.
Proof.
  intros Hgen. revert g. induction events as [|event rest IH]; intros g Hg; [done|].
  cbn [map]. rewrite on_stream_events_cons. cbn [snd].
  rewrite appended_app, finalizations_app.
  assert (guard_current session
            (Some {| guard_sessionId := activeSessionId session;
                     generation := getSessionGenerationValue session None |}) = true) as Hnew.
  { simpl. rewrite String.eqb_refl, Hgen. simpl. apply Z.eqb_refl. }
  destruct event; simpl on_stream_event; rewrite ?Hg;
    try (destruct (guarded g) eqn:Hgd);
    cbn [fst snd shown_literals shown_finalizations];
    try (destruct (IH g) as [-> ->]; [by rewrite Hg|]; by rewrite ?Hgd);
    try (destruct (IH None) as [-> ->]; [done|]; done);
    destruct (IH (Some {| guard_sessionId := activeSessionId session;
                          generation := getSessionGenerationValue session None |}))
      as [-> ->]; done.
Qed.

Lemma stable_session_shows_open_literals_witness :
  appended (snd (on_stream_events (map (pair sample_session) sample_stream) None)) = ["a"]
  /\ finalizations (snd (on_stream_events (map (pair sample_session) sample_stream) None))
     = [None].
Proof.
  destruct (stable_session_shows_open_literals sample_session sample_stream None
              eq_refl eq_refl) as [-> ->].
  split; reflexivity.
Defined.

Lemma on_stream_event_stale (session : ChatSession) (event : ChatStreamEvent)
    (g : option Guard) :
  guard_current session g = false ->
  is_before_send event = false ->
  fst (on_stream_event session event g) = g
  /\ forallb is_hook (snd (on_stream_event session event g)) = true.
Proof. intros Hg Hb. destruct event; simpl; rewrite ?Hg; try done. Qed.

(** X14: while the guard is not current -- the window shows another
    session, or the generation of the guarded session has moved -- and no
    [before-send] arrives, the remote stream is neither continued nor
    finalized: the events only run hooks, nothing is appended, [sending] is
    not touched and the guard stays as it is, so the [stream-end] and
    [assistant-end] of the stream are lost to this window. *)
Theorem stale_guard_is_never_finalized (events : list (ChatSession * ChatStreamEvent))
    (g : option Guard) :
  Forall (fun se => guard_current (fst se) g = false /\ is_before_send (snd se) = false)
    events ->
  let effects := snd (on_stream_events events g) in
  fst (on_stream_events events g) = g
  /\ forallb is_hook effects = true
  /\ appended effects = []
  /\ finalizations effects = [].
Proof.
  intros Hall effects. subst effects.
  induction Hall as [|[session event] rest [Hg Hb] _ IH]; [done|].
  rewrite on_stream_events_cons. cbn [fst snd] in *.
  destruct (on_stream_event_stale session event g Hg Hb) as [Hfst Hhooks].
  rewrite Hfst. destruct IH as (IHg & IHh & IHa & IHf).
  split; [done|]. rewrite forallb_app, appended_app, finalizations_app, IHh, IHa, IHf, Hhooks.
  split; [done|]. rewrite !app_nil_r.
  clear -Hhooks. induction (snd (on_stream_event session event g)) as [|e l IHl]; [done|].
  simpl in Hhooks. apply andb_true_iff in Hhooks as [He Hl].
  destruct e; try discriminate. unfold appended, finalizations in *. simpl.
  by apply IHl.
Qed.

Lemma stale_guard_is_never_finalized_witness :
  fst (on_stream_events
         [(other_session, TokenLiteral "s1" "a" JNull); (other_session, StreamEnd "s1" JNull)]
         (Some {| guard_sessionId := "s1"; generation := 0 |}))
  = Some {| guard_sessionId := "s1"; generation := 0 |}.
Proof.
  apply (stale_guard_is_never_finalized
           [(other_session, TokenLiteral "s1" "a" JNull); (other_session, StreamEnd "s1" JNull)]
           (Some {| guard_sessionId := "s1"; generation := 0 |})).
  repeat constructor.
Defined.

End RemoteStreamFacts.

(** * The stage component *)

Module StageFacts.
Import Stage.

Lemma elapsed_frame (k : Z) : (150 * k + interval) / interval = k + 1.
Proof.
  unfold interval. replace (150 * k + 150) with ((k + 1) * 150) by lia.
  by apply Z.div_mul.
Qed.

Lemma animate_mouth_at (duration k : Z) :
  animateMouth duration (150 * k)
  = if duration <=? 150 * (k + 1)
    then (150 * (k + 1), [frame (k + 1); ClearInterval; SetExpression "neutral" 10], true)
    else (150 * (k + 1), [frame (k + 1)], false).
Proof.
  unfold animateMouth. rewrite elapsed_frame. unfold frame, interval.
  replace (150 * k + 150) with (150 * (k + 1)) by lia. reflexivity.
Qed.

Lemma run_interval_frames (duration : Z) (n : nat) :
  forall (k : Z) (fuel : nat),
    (1 <= n)%nat ->
    duration <= 150 * (k + Z.of_nat n) ->
    150 * (k + Z.of_nat n - 1) < duration \/ n = 1%nat ->
    run_interval fuel duration (150 * k)
    = if (n <=? fuel)%nat then Some (animation n k) else None.
Proof.
  induction n as [|n IH]; intros k fuel Hn Hup Hlow; [lia|].
  destruct fuel as [|fuel]; [done|].
  cbn [run_interval]. rewrite animate_mouth_at.
  destruct n as [|n].
  - replace (k + Z.of_nat 1) with (k + 1) in Hup by lia.
    destruct (duration <=? 150 * (k + 1)) eqn:E; [done|]. apply Z.leb_gt in E. lia.
  - destruct Hlow as [Hlow|Hone]; [|lia].
    destruct (duration <=? 150 * (k + 1)) eqn:E; [apply Z.leb_le in E; lia|].
    rewrite (IH (k + 1) fuel); [|lia|lia|left; lia].
    change (S (S n) <=? S fuel)%nat with (S n <=? fuel)%nat.
    by destruct (S n <=? fuel)%nat.
Qed.

Lemma frames_bounds (duration : Z) :
  1 <= frames duration
  /\ lipsync_duration duration <= 150 * frames duration
  /\ (150 * (frames duration - 1) < lipsync_duration duration \/ frames duration = 1).
Proof.
  unfold frames, interval. set (D := lipsync_duration duration).
  pose proof (Z.div_mod (D + 150 - 1) 150 ltac:(lia)) as Hdm.
  pose proof (Z.mod_pos_bound (D + 150 - 1) 150 ltac:(lia)) as Hm.
  destruct (Z.max_spec 1 ((D + 150 - 1) / 150)) as [[Hlt ->]|[Hle ->]]; lia.
Qed.

Lemma animation_last (n : nat) (k : Z) :
  last (animation n k) = Some (SetExpression "neutral" 10).
Proof.
  revert k. induction n as [|n IH]; intros k; [done|].
  cbn [animation]. rewrite last_cons, IH. done.
Qed.

Lemma animation_length (n : nat) (k : Z) : length (animation n k) = (n + 2)%nat.
Proof. revert k. induction n as [|n IH]; intros k; simpl; [done|]. by rewrite IH. Qed.

(** X15: the lip sync animation of [airi:lipsync] (lines 517-549).  With a
    viewer and the [vrm] renderer the interval callback runs
    [frames duration] times, the duration rounded up to whole intervals of
    150 ms and at least one, a duration of 0 counting as 2000: it shows
    [neutral] on odd runs and [surprised] on even ones, then clears the
    interval and ends on [neutral] at full weight.  With fewer runs it has
    not finished; without a viewer or with another renderer it does
    nothing. *)
Theorem lipsync_runs_for_the_duration (fuel : nat) (duration : Z) :
  let n := Z.to_nat (frames duration) in
  handleLipSyncEvent fuel true "vrm" duration
  = (if (n <=? fuel)%nat then Some (animation n 0) else None)
  /\ lipsync_duration duration <= 150 * frames duration
  /\ (150 * (frames duration - 1) < lipsync_duration duration \/ frames duration = 1)
  /\ last (animation n 0) = Some (SetExpression "neutral" 10)
  /\ length (animation n 0) = (n + 2)%nat
  /\ (forall renderer, handleLipSyncEvent fuel false renderer duration = Some [])
  /\ (forall viewer renderer,
        renderer <> "vrm" -> handleLipSyncEvent fuel viewer renderer duration = Some []).
Proof.
  intros n. subst n. destruct (frames_bounds duration) as (H1 & Hup & Hlow).
  split; [|split; [done|split; [done|split; [apply animation_last|split;
    [apply animation_length|split; [done|]]]]]].
  - unfold handleLipSyncEvent. cbn [andb String.eqb Ascii.eqb Bool.eqb].
    change 0 with (150 * 0) at 1.
    apply run_interval_frames; [lia|lia|].
    destruct Hlow as [Hlow|Hone]; [left; lia|right; lia].
  - intros viewer renderer Hr. unfold handleLipSyncEvent.
    apply String.eqb_neq in Hr. rewrite Hr. by destruct viewer.
Qed.

Lemma lipsync_runs_for_the_duration_witness :
  frames 0 = 14
  /\ exists trace, handleLipSyncEvent 14 true "vrm" 0 = Some trace
                   /\ length trace = 16%nat.
Proof.
  split; [reflexivity|].
  destruct (lipsync_runs_for_the_duration 14 0) as (Hrun & _ & _ & _ & Hlen & _).
  eexists. split; [exact Hrun|exact Hlen].
Defined.

Lemma on_hooks_cons (h : Hook) (hs : list Hook) (st : State) :
  on_hooks (h :: hs) st
  = (fst (on_hooks hs (fst (on_hook h st))),
     (snd (on_hook h st) ++ snd (on_hooks hs (fst (on_hook h st))))%list).
Proof.
  simpl. destruct (on_hook h st) as [st1 e1]. simpl. by destruct (on_hooks hs st1).
Qed.

Lemma presented_app (acc : string) (e1 e2 : list Effect) :
  presented acc (e1 ++ e2) = presented (presented acc e1) e2.
Proof.
  revert acc. induction e1 as [|e e1 IH]; intros acc; [done|].
  destruct e; simpl; apply IH.
Qed.

Lemma captioned_app (acc : string) (e1 e2 : list Effect) :
  captioned acc (e1 ++ e2) = captioned (captioned acc e1) e2.
Proof.
  revert acc. induction e1 as [|e e1 IH]; intros acc; [done|].
  destruct e; simpl; apply IH.
Qed.

Lemma on_hook_caption (h : Hook) (st : State) :
  presented (assistantCaption st) (snd (on_hook h st)) = assistantCaption (fst (on_hook h st))
  /\ captioned (assistantCaption st) (snd (on_hook h st)) = assistantCaption (fst (on_hook h st)).
Proof.
  destruct h; simpl; try done; unfold with_intent;
    destruct (currentChatIntent st); try done.
  all: by destruct (String.eqb special "").
Qed.

(** X16: the caption channel and the presentation channel tell the same
    story.  After any sequence of hook calls the caption of the component
    is the last caption posted and is what a listener of the presentation
    channel rebuilds from the resets and appends it received: the texts of
    the items played since the last new message, each after a space. *)
Theorem caption_channels_agree (hs : list Hook) (st : State) :
  let st' := fst (on_hooks hs st) in
  let effects := snd (on_hooks hs st) in
  presented (assistantCaption st) effects = assistantCaption st'
  /\ captioned (assistantCaption st) effects = assistantCaption st'.
Proof.
  revert st. induction hs as [|h hs IH]; intros st; [done|].
  cbn zeta. rewrite on_hooks_cons. cbn [fst snd].
  rewrite presented_app, captioned_app.
  destruct (on_hook_caption h st) as [-> ->]. apply IH.
Qed.

Lemma intent_after_app (open : option nat) (e1 e2 : list Effect) :
  intent_after open (e1 ++ e2)
  = match intent_after open e1 with
    | Some open' => intent_after open' e2
    | None => None
    end.
Proof.
  revert open. induction e1 as [|e e1 IH]; intros open; [done|].
  destruct e; simpl; try apply IH; try (case_bool_decide; [apply IH|done]).
  destruct open; [done|apply IH].
Qed.

Lemma opened_intents_app (e1 e2 : list Effect) :
  opened_intents (e1 ++ e2) = (opened_intents e1 ++ opened_intents e2)%list.
Proof. apply flat_map_app. Qed.

Lemma writes_app (e1 e2 : list Effect) :
  writes (e1 ++ e2) = (writes e1 ++ writes e2)%list.
Proof. apply List.filter_app. Qed.

Lemma on_hook_intent (h : Hook) (st : State) :
  intent_after (currentChatIntent st) (snd (on_hook h st))
  = Some (currentChatIntent (fst (on_hook h st))).
Proof.
  destruct h; simpl; unfold with_intent; destruct (currentChatIntent st) as [i|]; simpl;
    try done; try (by rewrite bool_decide_eq_true_2).
  all: by destruct (String.eqb special "").
Qed.

Lemma on_hook_opened (h : Hook) (st : State) :
  opened_intents (snd (on_hook h st))
  = (if is_before_message_composed h then [opened st] else [])
  /\ opened (fst (on_hook h st))
     = (if is_before_message_composed h then S (opened st) else opened st).
Proof.
  destruct h; simpl; unfold with_intent; destruct (currentChatIntent st) as [i|]; simpl;
    try done.
  all: by destruct (String.eqb special "").
Qed.

Lemma on_hook_closed (h : Hook) (st : State) :
  currentChatIntent st = None ->
  is_before_message_composed h = false ->
  currentChatIntent (fst (on_hook h st)) = None
  /\ writes (snd (on_hook h st)) = []
  /\ intent_after None (snd (on_hook h st)) = Some None.
Proof.
  intros Hc Hh. destruct h; try done; simpl; unfold with_intent; rewrite Hc; try done.
  by destruct (String.eqb special "").
Qed.

(** X17: the speech intents of the chat hooks (lines 402-465).  After any
    sequence of hook calls every write, flush, end and cancel went to the
    intent that was open when it was made, no intent was opened while
    another was open, and the intent left open is the component's
    [currentChatIntent]; one intent is opened for each new message, in
    order.  While no intent is open and no new message is composed, tokens
    and the stream end write nothing. *)
Theorem intents_follow_the_messages (hs : list Hook) (st : State) :
  let st' := fst (on_hooks hs st) in
  let effects := snd (on_hooks hs st) in
  let messages := length (List.filter is_before_message_composed hs) in
  intent_after (currentChatIntent st) effects = Some (currentChatIntent st')
  /\ opened_intents effects = seq (opened st) messages
  /\ opened st' = (opened st + messages)%nat
  /\ (currentChatIntent st = None -> messages = 0%nat ->
      currentChatIntent st' = None /\ writes effects = []).
Proof.
  revert st. induction hs as [|h hs IH]; intros st.
  - cbn. repeat split; try done; lia.
  - cbn zeta. rewrite on_hooks_cons. cbn [fst snd].
    rewrite intent_after_app, opened_intents_app, writes_app, on_hook_intent.
    destruct (IH (fst (on_hook h st))) as (Hi & Ho & Hn & Hw).
    destruct (on_hook_opened h st) as [Hoh Hnh].
    rewrite Hi, Ho, Hn, Hoh, Hnh. cbn [List.filter].
    split; [done|].
    destruct (is_before_message_composed h) eqn:Hh; cbn [length].
    + split; [done|]. split; [lia|]. intros _ Hm. lia.
    + split; [done|]. split; [done|]. intros Hc Hm.
      destruct (on_hook_closed h st Hc Hh) as (Hc1 & Hw1 & _).
      destruct (Hw Hc1 Hm) as [Hc2 Hw2]. by rewrite Hw1, Hw2.
Qed.

Lemma intents_follow_the_messages_witness :
  currentChatIntent (fst (on_hooks [TokenLiteral "hi"; StreamEnd] initial)) = None
  /\ writes (snd (on_hooks [TokenLiteral "hi"; StreamEnd] initial)) = [].
Proof.
  destruct (intents_follow_the_messages [TokenLiteral "hi"; StreamEnd] initial)
    as (_ & _ & _ & H).
  apply H; reflexivity.
Defined.

End StageFacts.

(** * Speech *)

Module SpeechFacts.
Import Bridge.

Lemma or_else_truthy (a b : JValue) : truthy b = true -> truthy (Tts.or_else a b) = true.
Proof. intros Hb. unfold Tts.or_else. by destruct (truthy a) eqn:E. Qed.

(** X18: the model and voice of a speech request (lines 258-298).  For the
    OpenAI compatible provider the request never fails for want of a model
    or a voice and does not depend on the model and voice selected in the
    speech store: the model is the provider configuration's, [tts-1]
    without one, and the voice is named by the configuration's, [alloy]
    without one.  For any other provider the selected model and voice are
    used as they are, and the request is given up unless both are set. *)
Theorem compatible_speech_ignores_selection
    (activeSpeechProvider activeSpeechModel activeSpeechVoice providerConfig : JValue) :
  (Tts.is_string "openai-compatible-audio-speech" activeSpeechProvider = true ->
     exists model voice,
       Tts.resolve activeSpeechProvider activeSpeechModel activeSpeechVoice providerConfig
       = Some (model, voice)
       /\ (forall activeSpeechModel' activeSpeechVoice',
             Tts.resolve activeSpeechProvider activeSpeechModel' activeSpeechVoice'
               providerConfig = Some (model, voice))
       /\ truthy model = true
       /\ truthy (get "id" voice) = true
       /\ get "provider" voice = activeSpeechProvider
       /\ (truthy (chain "model" providerConfig) = true ->
           model = chain "model" providerConfig)
       /\ (truthy (chain "model" providerConfig) = false -> model = JStr "tts-1")
       /\ (truthy (chain "voice" providerConfig) = true ->
           get "id" voice = chain "voice" providerConfig)
       /\ (truthy (chain "voice" providerConfig) = false -> get "id" voice = JStr "alloy"))
  /\ (Tts.is_string "openai-compatible-audio-speech" activeSpeechProvider = false ->
      Tts.resolve activeSpeechProvider activeSpeechModel activeSpeechVoice providerConfig
      = (if truthy activeSpeechModel && truthy activeSpeechVoice
         then Some (activeSpeechModel, activeSpeechVoice) else None)).
Proof.
  split; intros Hp; unfold Tts.resolve; rewrite Hp.
  - assert (truthy (Tts.or_else (chain "model" providerConfig) (JStr "tts-1")) = true)
      as Hm by by apply or_else_truthy.
    assert (truthy (Tts.or_else (chain "voice" providerConfig) (JStr "alloy")) = true)
      as Hv by by apply or_else_truthy.
    eexists _, _. rewrite Hm. cbn [negb orb truthy Tts.compatible_voice].
    split; [reflexivity|]. split; [reflexivity|]. split; [exact Hm|].
    split; [exact Hv|]. split; [reflexivity|].
    unfold Tts.or_else. cbn [get prop]. repeat split; intros H; by rewrite H.
  - by destruct (truthy activeSpeechModel), (truthy activeSpeechVoice).
Qed.

Lemma compatible_speech_ignores_selection_witness :
  Tts.resolve (JStr "openai-compatible-audio-speech") JUndefined JUndefined
    (JObj [("model", JStr "gpt-4o-mini-tts")])
  = Some (JStr "gpt-4o-mini-tts",
          Tts.compatible_voice (JStr "alloy") (JStr "openai-compatible-audio-speech")).
Proof.
  destruct (compatible_speech_ignores_selection (JStr "openai-compatible-audio-speech")
              JUndefined JUndefined (JObj [("model", JStr "gpt-4o-mini-tts")]))
    as [H _].
  destruct (H eq_refl) as (model & voice & Hr & _). rewrite Hr. vm_compute in Hr.
  by injection Hr as <- <-.
Defined.

(** X19: the speaking flag of [speak:text] (lines 792-867).  On an event
    whose [text] is a string the handler raises [nowSpeaking] before
    anything else.  The flag is lowered again when speech is not configured
    (by the timer) and when the audio element reports its end or an error;
    when the provider is not obtained, when generating the speech fails, or
    when the audio element never reports, it stays raised.  Speech is
    requested at most once, with the event's voice and speed where they are
    set and the store's otherwise.  On an event whose [text] is not a
    string the handler throws at once: the flag is not touched and nothing
    is requested. *)
Theorem speak_text_speaking_flag (w : SpeakText.World) (s : SpeakText.Settings)
    (event : JValue) (before : bool) :
  let data := get "data" event in
  (forall text, get "text" data = JStr text ->
     exists effects,
       SpeakText.on_speak_text w s event = Some effects
       /\ head effects = Some (SpeakText.SetNowSpeaking true)
       /\ (SpeakText.nowSpeaking before effects = false
           <-> SpeakText.configured w = false
               \/ (exists provider,
                     SpeakText.speechProvider w = Some provider
                     /\ truthy provider = true
                     /\ SpeakText.speech_resolves w = true
                     /\ SpeakText.audio_event_fires w = true))
       /\ SpeakText.speeches effects
          = match SpeakText.speechProvider w with
            | Some provider =>
                if SpeakText.configured w && truthy provider
                then [SpeakText.Speech provider (SpeakText.activeSpeechModel s)
                        (JStr text)
                        (if truthy (get "voiceId" data) then get "voiceId" data
                         else SpeakText.activeSpeechVoiceId s)
                        (if truthy (get "speed" data) then get "speed" data
                         else SpeakText.rate s)
                        (SpeakText.pitch s)]
                else []
            | None => []
            end)
  /\ ((forall text, get "text" data <> JStr text) ->
      SpeakText.on_speak_text w s event = None).
Proof.
  cbn zeta. split.
  - intros text Htext. unfold SpeakText.on_speak_text. rewrite Htext.
    eexists. split; [reflexivity|]. split; [reflexivity|].
    destruct w as [win conf provider resolves fires]. unfold SpeakText.speak.
    cbn [SpeakText.hasWindow SpeakText.configured SpeakText.speechProvider
           SpeakText.speech_resolves SpeakText.audio_event_fires].
    rewrite Htext. unfold Tts.or_else.
    destruct provider as [provider|]; [destruct (truthy provider) eqn:Hp|];
      destruct win, conf, resolves, fires; cbn; (split; [|done]);
      split; intros H; try done; try (by left);
      try (right; exists provider; done);
      destruct H as [H|(p & H0 & H1 & H2 & H3)]; try done; congruence.
  - intros Hnot. unfold SpeakText.on_speak_text.
    destruct (get "text" (get "data" event)) eqn:E; try reflexivity.
    by destruct (Hnot s0).
Qed.

Lemma speak_text_speaking_flag_witness :
  SpeakText.on_speak_text
    {| SpeakText.hasWindow := true; SpeakText.configured := true;
       SpeakText.speechProvider := Some (JObj []);
       SpeakText.speech_resolves := false; SpeakText.audio_event_fires := false |}
    {| SpeakText.activeSpeechVoiceId := JStr "alloy";
       SpeakText.activeSpeechModel := JStr "tts-1";
       SpeakText.rate := JNum 1; SpeakText.pitch := JNum 0 |}
    (JObj [("type", JStr "speak:text"); ("data", JObj [("voiceId", JStr "nova")])])
  = None.
Proof.
  destruct (speak_text_speaking_flag
              {| SpeakText.hasWindow := true; SpeakText.configured := true;
                 SpeakText.speechProvider := Some (JObj []);
                 SpeakText.speech_resolves := false;
                 SpeakText.audio_event_fires := false |}
              {| SpeakText.activeSpeechVoiceId := JStr "alloy";
                 SpeakText.activeSpeechModel := JStr "tts-1";
                 SpeakText.rate := JNum 1; SpeakText.pitch := JNum 0 |}
              (JObj [("type", JStr "speak:text"); ("data", JObj [("voiceId", JStr "nova")])])
              true) as [_ H].
  apply H. intros text Htext. discriminate Htext.
Defined.

End SpeechFacts.
